(** * Lattice Points Grapher: the decomposition and geometric-consistency engine

    A shallow embedding of the validation helpers of [geometry.js] ([gcd],
    [polygonAreaValue], [orientation], [onSegment], [segmentsIntersect],
    [isSimplePolygon], [trianglesOnOppositeSides], [isPointOnEdge],
    [collectBoundaryPoints]), of [induction.js] ([buildInductionTriangles],
    that is the decomposer followed by the adjacency sequencer,
    [getAccumulatedPolygon] and [getSharedEdgeForStep]) and of the constants
    of [constants.js] they read.

    Modelling conventions.
    - A JavaScript number holding a lattice coordinate is a [Z]: every
      operation the engine applies to coordinates (+, -, *, comparison, and
      the exact divisions by a gcd) is exact on integers far below 2^53.
      The one value that is not an integer, the half-integer polygon area, is
      a [Q].
    - A JavaScript [Set] of strings is the list of its members in insertion
      order (the order [Array.from] observes).
    - Template strings, [split], [Number], the default [sort] and [join] are
      modelled on [string], so that the keys are the keys of the source.
    - [for] loops with a counter are folds over the counter; [while] loops
      whose termination is not structural take a step budget and return
      [None] when it is exhausted. *)

From Stdlib Require Import ZArith QArith Qabs Qround List Bool Ascii String Lia.
From Stdlib Require Import Permutation Sorted Znumtheory FinFun Lqa.
From Stdlib Require Import DecimalString DecimalZ.
Import ListNotations.

Local Open Scope Z_scope.

(** ** The JavaScript runtime pieces the engine relies on *)

Module Js.

(** [`${n}`] for an integer-valued number. *)
Definition numToString (n : Z) : string :=
  NilEmpty.string_of_int (Z.to_int n).

(** [Number(s)] on a decimal integer literal.  Anything else is [NaN] in
    JavaScript, which [Z] does not have; it is mapped to 0 here and
    [Number_numToString] shows that no key of the engine takes this path. *)
Definition Number (s : string) : Z :=
  match NilEmpty.int_of_string s with
  | Some d => Z.of_int d
  | None => 0
  end.

(** [s.split(sep)] for a one-character separator. *)
Fixpoint split (sep : ascii) (s : string) : list string :=
  match s with
  | EmptyString => [EmptyString]
  | String c rest =>
      if Ascii.eqb c sep then EmptyString :: split sep rest
      else match split sep rest with
           | hd :: tl => String c hd :: tl
           | [] => [String c EmptyString]
           end
  end.

(** [arr.join(sep)]. *)
Definition join (sep : string) (l : list string) : string :=
  String.concat sep l.

(** [arr.sort(cmp)]: the sort is stable, which a list insertion sort is
    too.  [le a b] stands for [cmp(a, b) <= 0]. *)
Section Sort.
Context {A : Type} (le : A -> A -> bool).

Fixpoint insert (a : A) (l : list A) : list A :=
  match l with
  | [] => [a]
  | b :: l' => if le a b then a :: l else b :: insert a l'
  end.

Fixpoint sortBy (l : list A) : list A :=
  match l with
  | [] => []
  | a :: l' => insert a (sortBy l')
  end.
End Sort.

(** [arr.sort()] on strings: code-unit lexicographic order. *)
Definition sort (l : list string) : list string := sortBy String.leb l.

(** [arr.includes(s)] on an array of strings. *)
Definition includes (l : list string) (s : string) : bool :=
  existsb (String.eqb s) l.

(** [arr.reduce(f)] without an initial value, on a non-empty array. *)
Definition reduce {A : Type} (f : A -> A -> A) (l : list A) (dflt : A) : A :=
  match l with
  | [] => dflt
  | a :: l' => fold_left f l' a
  end.

(** [for (let i = lo; i < hi; i++) body], threading the loop's state. *)
Fixpoint for_count {St : Type} (cnt : nat) (i : Z) (body : Z -> St -> St) (st : St) : St :=
  match cnt with
  | O => st
  | S c => for_count c (i + 1) body (body i st)
  end.

Definition for_lt {St : Type} (lo hi : Z) (body : Z -> St -> St) (st : St) : St :=
  for_count (Z.to_nat (hi - lo)) lo body st.

(** [new Set()] of strings, with [add], [has] and [size]. *)
Module StrSet.
Definition t := list string.
Definition empty : t := [].
Definition has (k : string) (s : t) : bool := existsb (String.eqb k) s.
Definition add (k : string) (s : t) : t := if has k s then s else s ++ [k].
Definition size (s : t) : nat := List.length s.
Definition of_list (l : list string) : t := fold_left (fun s k => add k s) l empty.
Definition to_array (s : t) : list string := s.
End StrSet.

(** [s.split(",").map(Number)] destructured as [[a, b]].  A missing
    component would be [undefined]; 0 stands for it. *)
Definition parsePair (s : string) : Z * Z :=
  match map Number (split ","%char s) with
  | a :: b :: _ => (a, b)
  | [a] => (a, 0)
  | [] => (0, 0)
  end.

(** An argument that may be [null] or [undefined] instead of an array. *)
Inductive arg (A : Type) : Type :=
| Null : arg A
| Undefined : arg A
| Array : list A -> arg A.
Arguments Null {A}.
Arguments Undefined {A}.
Arguments Array {A} _.

End Js.

(** ** Data *)

Module Point.
Record t : Type := mk { x : Z; y : Z }.

Definition eqb (p q : t) : bool := (x p =? x q) && (y p =? y q).

(** The key [`${v.x},${v.y}`]. *)
Definition key (v : t) : string :=
  (Js.numToString (x v) ++ "," ++ Js.numToString (y v))%string.

(** [const [x, y] = s.split(",").map(Number); return { x, y }]. *)
Definition parse (s : string) : t :=
  let '(a, b) := Js.parsePair s in mk a b.

(** [vertices[i]].  An index out of range would give [undefined]; every
    index the engine computes is reduced modulo the length or bounded by a
    loop guard, so the default below is not read by the functions that
    follow. *)
Definition at_index (vs : list t) (i : nat) : t := nth i vs (mk 0 0).
End Point.

Abbreviation Point := Point.t.
Abbreviation pt := Point.mk.

Module Constants.
Definition latticeRange : Z := 10.

Definition initialTriangle : list Point :=
  [ pt (-3) (-2); pt 3 (-2); pt 0 4 ].

Definition initialAdditive : list Point :=
  [ pt (-4) (-1); pt 3 (-1); pt 2 4; pt (-3) 4 ].

(** right angle vertex, base vertex, height vertex *)
Definition inductionOuterTriangle : list Point :=
  [ pt (-2) (-2); pt 2 (-2); pt (-2) 2 ].
End Constants.

(** ** geometry.js *)

Module Geometry.
Import Js.

(** The [while (y) { [x, y] = [y, x % y]; }] loop, with a step budget. *)
Fixpoint gcd_loop (fuel : nat) (x y : Z) : option Z :=
  if y =? 0 then Some x
  else match fuel with
       | O => None
       | S fuel' => gcd_loop fuel' y (Z.rem x y)
       end.

(** [gcd(a, b)].  The second component of the loop state strictly decreases
    (it is a remainder), so [|b|] steps are always enough: see
    [gcd_loop_terminates]. *)
Definition gcd (a b : Z) : option Z :=
  gcd_loop (Z.to_nat (Z.abs b)) (Z.abs a) (Z.abs b).

(** [Math.round]: the nearest integer, a tie going up.  The argument is the
    exact value of a finite double. *)
Definition round (q : Q) : Z := Qfloor (q + (1 # 2)).

(** [clampVertex(vertex)]; the vertex comes from a pointer position and its
    coordinates need not be integers. *)
Definition clampVertex (vertex : Q * Q) : Point :=
  pt (Z.max (- Constants.latticeRange) (Z.min Constants.latticeRange (round (fst vertex))))
     (Z.max (- Constants.latticeRange) (Z.min Constants.latticeRange (round (snd vertex)))).

Definition area2 (vs : list Point) : Z :=
  let n := List.length vs in
  for_lt 0 (Z.of_nat n)
    (fun i acc =>
       let current := Point.at_index vs (Z.to_nat i) in
       let next := Point.at_index vs (Z.to_nat ((i + 1) mod Z.of_nat n)) in
       acc + (Point.x current * Point.y next - Point.x next * Point.y current))
    0.

Definition polygonAreaValue (vertices : arg Point) : Q :=
  match vertices with
  | Null | Undefined => 0%Q
  | Array vs =>
      if (List.length vs <? 3)%nat then 0%Q
      else (inject_Z (area2 vs) / 2)%Q
  end.

Definition orientation (a b c : Point) : Z :=
  (Point.x b - Point.x a) * (Point.y c - Point.y a)
  - (Point.y b - Point.y a) * (Point.x c - Point.x a).

Definition onSegment (a b c : Point) : bool :=
  (Point.x b >=? Z.min (Point.x a) (Point.x c))
  && (Point.x b <=? Z.max (Point.x a) (Point.x c))
  && (Point.y b >=? Z.min (Point.y a) (Point.y c))
  && (Point.y b <=? Z.max (Point.y a) (Point.y c)).

Definition segmentsIntersect (p1 p2 p3 p4 : Point) : bool :=
  let o1 := orientation p1 p2 p3 in
  let o2 := orientation p1 p2 p4 in
  let o3 := orientation p3 p4 p1 in
  let o4 := orientation p3 p4 p2 in
  if (o1 =? 0) && onSegment p1 p3 p2 then true
  else if (o2 =? 0) && onSegment p1 p4 p2 then true
  else if (o3 =? 0) && onSegment p3 p1 p4 then true
  else if (o4 =? 0) && onSegment p3 p2 p4 then true
  else (o1 * o2 <? 0) && (o3 * o4 <? 0).

Definition Qltb (p q : Q) : bool := negb (Qle_bool q p).

(** The test of one pair [(i, j)] of the double loop of [isSimplePolygon]:
    [false] is the early [return false]. *)
Definition edgePairOk (vs : list Point) (i j : nat) : bool :=
  let n := List.length vs in
  let a1 := Point.at_index vs i in
  let a2 := Point.at_index vs ((i + 1) mod n) in
  if Z.abs (Z.of_nat i - Z.of_nat j) <=? 1 then true
  else if (i =? 0)%nat && (j =? n - 1)%nat then true
  else
    let b1 := Point.at_index vs j in
    let b2 := Point.at_index vs ((j + 1) mod n) in
    negb (segmentsIntersect a1 a2 b1 b2).

Definition isSimplePolygon (vertices : arg Point) : bool :=
  match vertices with
  | Null | Undefined => false
  | Array vs =>
      if (List.length vs <? 3)%nat then false
      else
        let unique := StrSet.of_list (map Point.key vs) in
        if negb (StrSet.size unique =? List.length vs)%nat then false
        else if Qltb (Qabs (polygonAreaValue vertices)) (1 # 2) then false
        else
          let n := List.length vs in
          forallb (fun i => forallb (edgePairOk vs i) (seq (i + 1) (n - (i + 1))))
                  (seq 0 n)
  end.

Definition trianglesOnOppositeSides (vertices : arg Point) : bool :=
  match vertices with
  | Array [a; b; c; d] =>
      let oB := orientation a c b in
      let oD := orientation a c d in
      if (oB =? 0) || (oD =? 0) then false
      else oB * oD <? 0
  | _ => false
  end.

Definition isPointOnEdge (point start end_ : Point) : bool :=
  let cross := (Point.x point - Point.x start) * (Point.y end_ - Point.y start)
               - (Point.y point - Point.y start) * (Point.x end_ - Point.x start) in
  if negb (cross =? 0) then false
  else
    let minX := Z.min (Point.x start) (Point.x end_) in
    let maxX := Z.max (Point.x start) (Point.x end_) in
    let minY := Z.min (Point.y start) (Point.y end_) in
    let maxY := Z.max (Point.y start) (Point.y end_) in
    (Point.x point >=? minX) && (Point.x point <=? maxX)
    && (Point.y point >=? minY) && (Point.y point <=? maxY).

(** The body of the edge loop of [collectBoundaryPoints] for edge [i].
    [dx / steps] and [dy / steps] are exact ([steps] divides both), so the
    floating division is the integer quotient. *)
Definition addEdgePoints (vs : list Point) (i : Z) (boundary : option StrSet.t)
  : option StrSet.t :=
  match boundary with
  | None => None
  | Some boundary =>
      let n := Z.of_nat (List.length vs) in
      let start := Point.at_index vs (Z.to_nat i) in
      let end_ := Point.at_index vs (Z.to_nat ((i + 1) mod n)) in
      let dx := Point.x end_ - Point.x start in
      let dy := Point.y end_ - Point.y start in
      match gcd (Z.abs dx) (Z.abs dy) with
      | None => None
      | Some steps =>
          if steps =? 0 then Some (StrSet.add (Point.key start) boundary)
          else
            let stepX := dx / steps in
            let stepY := dy / steps in
            Some (for_lt 0 (steps + 1)
                    (fun j b =>
                       StrSet.add
                         (Point.key (pt (Point.x start + stepX * j)
                                        (Point.y start + stepY * j))) b)
                    boundary)
      end
  end.

(** The comparator [(ax === bx ? ay - by : ax - bx)] of the final sort. *)
Definition comparePairs (a b : Z * Z) : Z :=
  if fst a =? fst b then snd a - snd b else fst a - fst b.

(** [collectBoundaryPoints(vertices)]; [None] only if a [gcd] loop ran out
    of its budget, which [collectBoundaryPoints_correct] excludes. *)
Definition collectBoundaryPoints (vertices : list Point) : option (list (Z * Z)) :=
  match for_lt 0 (Z.of_nat (List.length vertices)) (addEdgePoints vertices)
               (Some StrSet.empty) with
  | None => None
  | Some boundary =>
      Some (sortBy (fun a b => comparePairs a b <=? 0)
                   (map parsePair (StrSet.to_array boundary)))
  end.

End Geometry.

(** ** induction.js *)

Module GridPos.
Inductive kind : Type := lower | upper.
Record t : Type := mk { i : Z; j : Z; type : kind }.

Definition is_lower (g : t) : bool :=
  match type g with lower => true | upper => false end.
End GridPos.

Module Triangle.
Record t : Type := mk { vertices : list Point; gridPos : GridPos.t }.
End Triangle.

Abbreviation Triangle := Triangle.t.

Module Induction.
Import Js.

(** The part of [state] the engine reads and writes. *)
Record State : Type := mkState { inductionTriangles : list (list Point) }.

Definition initialState : State := mkState [].

Definition lowerTriangle (v0 : Point) (i j : Z) : Triangle :=
  Triangle.mk
    [ pt (Point.x v0 + i) (Point.y v0 + j);
      pt (Point.x v0 + i + 1) (Point.y v0 + j);
      pt (Point.x v0 + i) (Point.y v0 + j + 1) ]
    (GridPos.mk i j GridPos.lower).

Definition upperTriangle (v0 : Point) (i j : Z) : Triangle :=
  Triangle.mk
    [ pt (Point.x v0 + i + 1) (Point.y v0 + j);
      pt (Point.x v0 + i + 1) (Point.y v0 + j + 1);
      pt (Point.x v0 + i) (Point.y v0 + j + 1) ]
    (GridPos.mk i j GridPos.upper).

(** Lines 6-33 of [buildInductionTriangles]: the Unit Triangle Decomposer,
    with the outer triangle it reads as a parameter. *)
Definition decompose (outer : list Point) : list Triangle :=
  let v0 := Point.at_index outer 0 in
  let n := Point.x (Point.at_index outer 1) - Point.x v0 in
  for_lt 0 n
    (fun i all =>
       for_lt 0 (n - i)
         (fun j all =>
            let all := all ++ [lowerTriangle v0 i j] in
            if i + j <? n - 1 then all ++ [upperTriangle v0 i j] else all)
         all)
    [].

(** [getKey] *)
Definition getKey (vertices : list Point) : string :=
  join "|" (sort (map Point.key vertices)).

(** [sharesEdge(t1, t2)]; only the [vertices] of its arguments are read. *)
Definition sharesEdge (t1 t2 : list Point) : bool :=
  let v1 := map Point.key t1 in
  let v2 := map Point.key t2 in
  let shared := fold_left (fun shared p => if includes v2 p then S shared else shared)
                          v1 O in
  (shared =? 2)%nat.

(** The loop state of the Adjacency Sequencer. *)
Record Seq : Type := mkSeq { ordered : list (list Point); used : StrSet.t }.

Definition place (tri : Triangle) (s : Seq) : Seq :=
  mkSeq (ordered s ++ [Triangle.vertices tri])
        (StrSet.add (getKey (Triangle.vertices tri)) (used s)).

(** Lines 48-54: the seed. *)
Definition seed (allTriangles : list Triangle) : Seq :=
  match find (fun t => (GridPos.i (Triangle.gridPos t) =? 0)
                       && (GridPos.j (Triangle.gridPos t) =? 0)
                       && GridPos.is_lower (Triangle.gridPos t))
             allTriangles with
  | Some startTri => place startTri (mkSeq [] StrSet.empty)
  | None => mkSeq [] StrSet.empty
  end.

(** Lines 58-70: the first unplaced triangle, in generation order, that
    shares an edge with some placed triangle. *)
Definition adjacentCandidate (allTriangles : list Triangle) (s : Seq) : option Triangle :=
  find (fun tri =>
          negb (StrSet.has (getKey (Triangle.vertices tri)) (used s))
          && existsb (fun addedVerts => sharesEdge addedVerts (Triangle.vertices tri))
                     (ordered s))
       allTriangles.

(** Lines 71-80: the fallback, the first unplaced triangle. *)
Definition fallbackCandidate (allTriangles : list Triangle) (s : Seq) : option Triangle :=
  find (fun tri => negb (StrSet.has (getKey (Triangle.vertices tri)) (used s)))
       allTriangles.

(** One iteration of the [while] loop. *)
Definition iteration (allTriangles : list Triangle) (s : Seq) : Seq :=
  match adjacentCandidate allTriangles s with
  | Some tri => place tri s
  | None =>
      match fallbackCandidate allTriangles s with
      | Some tri => place tri s
      | None => s
      end
  end.

(** Lines 56-81: [while (ordered.length < allTriangles.length)]. *)
Fixpoint placementLoop (fuel : nat) (allTriangles : list Triangle) (s : Seq)
  : option Seq :=
  if (List.length (ordered s) <? List.length allTriangles)%nat then
    match fuel with
    | O => None
    | S fuel' => placementLoop fuel' allTriangles (iteration allTriangles s)
    end
  else Some s.

(** The Adjacency Sequencer on a given decomposition. *)
Definition sequence (fuel : nat) (allTriangles : list Triangle)
  : option (list (list Point)) :=
  option_map ordered (placementLoop fuel allTriangles (seed allTriangles)).

Definition buildInductionTriangles (fuel : nat) (st : State) : option State :=
  option_map mkState (sequence fuel (decompose Constants.inductionOuterTriangle)).

(** Lines 92-102 of [getAccumulatedPolygon]: the distinct vertices of the
    first [stepIndex] triangles, in order of first occurrence. *)
Definition prefixPoints (st : State) (stepIndex : Z) : list Point :=
  let pointSet :=
    for_lt 0 stepIndex
      (fun i pointSet =>
         fold_left (fun pointSet v => StrSet.add (Point.key v) pointSet)
                   (nth (Z.to_nat i) (inductionTriangles st) [])
                   pointSet)
      StrSet.empty in
  map Point.parse (StrSet.to_array pointSet).

(** The inner [for (const p of points)] of the gift-wrapping walk.
    [next === current] compares object identities; the points are distinct
    objects with distinct coordinates ([prefixPoints_NoDup]), so it is
    coordinate equality. *)
Definition nextHullPoint (points : list Point) (current : Point) : Point :=
  fold_left (fun next p =>
               if Point.eqb next current || (Geometry.orientation current next p <? 0)
               then p else next)
            points (Point.at_index points 0).

(** The [do ... while (current !== start && hull.length < points.length + 1)]
    loop.  [budget] bounds the number of further iterations; the length guard
    stops the walk before it is used up, see [hullWalk_budget]. *)
Fixpoint hullWalk (budget : nat) (points : list Point) (start : Point)
         (hull : list Point) (current : Point) : list Point :=
  let hull := hull ++ [current] in
  let next := nextHullPoint points current in
  if negb (Point.eqb next start)
     && (List.length hull <? List.length points + 1)%nat
  then match budget with
       | O => hull
       | S budget' => hullWalk budget' points start hull next
       end
  else hull.

Definition getAccumulatedPolygon (st : State) (stepIndex : Z) : list Point :=
  if stepIndex <=? 0 then []
  else if stepIndex >=? Z.of_nat (List.length (inductionTriangles st))
  then Constants.inductionOuterTriangle
  else
    let points := prefixPoints st stepIndex in
    if (List.length points <? 3)%nat then points
    else
      let start :=
        reduce (fun a b =>
                  if (Point.x a <? Point.x b)
                     || ((Point.x a =? Point.x b) && (Point.y a <? Point.y b))
                  then a else b)
               points (pt 0 0) in
      hullWalk (List.length points + 1) points start [] start.

(** [accumulated.some((v) => v.x === e.x && v.y === e.y)] *)
Definition occursIn (accumulated : list Point) (e : Point) : bool :=
  existsb (fun v => Point.eqb v e) accumulated.

(** The inner [for j] of [getSharedEdgeForStep]: does the hull have the edge
    [e1 - e2] in either direction? *)
Definition hullHasEdge (accumulated : list Point) (e1 e2 : Point) : bool :=
  let m := List.length accumulated in
  existsb (fun j =>
             let a1 := Point.at_index accumulated j in
             let a2 := Point.at_index accumulated ((j + 1) mod m) in
             let sameDirection := Point.eqb a1 e1 && Point.eqb a2 e2 in
             let oppositeDirection := Point.eqb a1 e2 && Point.eqb a2 e1 in
             sameDirection || oppositeDirection)
          (seq 0 m).

(** [getSharedEdgeForStep]; [None] is [null], [Some (start, end)] the edge. *)
Definition getSharedEdgeForStep (st : State) (stepIndex : Z) : option (Point * Point) :=
  if (stepIndex <=? 0) || (stepIndex >=? Z.of_nat (List.length (inductionTriangles st)))
  then None
  else
    let newTri := nth (Z.to_nat stepIndex) (inductionTriangles st) [] in
    let accumulated := getAccumulatedPolygon st stepIndex in
    if (List.length accumulated <? 2)%nat then None
    else
      option_map
        (fun i => (Point.at_index newTri i, Point.at_index newTri ((i + 1) mod 3)))
        (find (fun i =>
                 let e1 := Point.at_index newTri i in
                 let e2 := Point.at_index newTri ((i + 1) mod 3) in
                 occursIn accumulated e1 && occursIn accumulated e2
                 && hullHasEdge accumulated e1 e2)
              (seq 0 3)).

End Induction.

(** ** katex-utils.js *)

Module Katex.

(** [str.replace(/c/g, by)] for a one-character pattern. *)
Fixpoint replaceAll (c : ascii) (by_ : string) (str : string) : string :=
  match str with
  | EmptyString => EmptyString
  | String a rest =>
      if Ascii.eqb a c then (by_ ++ replaceAll c by_ rest)%string
      else String a (replaceAll c by_ rest)
  end.

Definition escapeHtml (str : string) : string :=
  replaceAll "034"%char "&quot;"
    (replaceAll ">"%char "&gt;"
       (replaceAll "<"%char "&lt;"
          (replaceAll "&"%char "&amp;" str))).

End Katex.

(** ** state.js, and the handlers of main.js that change the state *)

Module App.
Import Js.

(** The values [state.currentTab] can take: the three of [TABS], or whatever
    other string a tab button carries in [data-tab]. *)
Inductive Tab : Type := TRIANGLE | ADDITIVE | INDUCTION | OtherTab (name : string).

Definition tab_eqb (a b : Tab) : bool :=
  match a, b with
  | TRIANGLE, TRIANGLE | ADDITIVE, ADDITIVE | INDUCTION, INDUCTION => true
  | OtherTab n, OtherTab m => String.eqb n m
  | _, _ => false
  end.

(** The fields of [state] the handlers below read or write.  The snapshots,
    which only hold what the counting oracle returned, and the canvas origin
    are left out. *)
Record State : Type := mkState {
  activeHandle : option nat;
  currentTab : Tab;
  triangleVertices : list Point;
  additiveVertices : list Point;
  inductionStep : Z;
  inductionTriangles : list (list Point)
}.

(** The state when the module is loaded. *)
Definition initial : State :=
  mkState None TRIANGLE Constants.initialTriangle Constants.initialAdditive 0 [].

Definition setTab (tab : Tab) (s : State) : State :=
  mkState (activeHandle s) tab (triangleVertices s) (additiveVertices s)
          (inductionStep s) (inductionTriangles s).

Definition setActiveHandle (index : option nat) (s : State) : State :=
  mkState index (currentTab s) (triangleVertices s) (additiveVertices s)
          (inductionStep s) (inductionTriangles s).

Definition setInductionStep (k : Z) (s : State) : State :=
  mkState (activeHandle s) (currentTab s) (triangleVertices s) (additiveVertices s)
          k (inductionTriangles s).

Definition resetInductionStep (s : State) : State := setInductionStep 0 s.

Definition getActiveVertices (s : State) : list Point :=
  match currentTab s with
  | TRIANGLE => triangleVertices s
  | ADDITIVE => additiveVertices s
  | _ => []
  end.

(** [buildInductionTriangles()], as [initialize] calls it. *)
Definition build (fuel : nat) (s : State) : option State :=
  option_map
    (fun st => mkState (activeHandle s) (currentTab s) (triangleVertices s)
                       (additiveVertices s) (inductionStep s)
                       (Induction.inductionTriangles st))
    (Induction.buildInductionTriangles fuel
       (Induction.mkState (inductionTriangles s))).

(** [findHandle(position)] of render.js.  [within v] stands for the test
    [dist2 <= radius ** 2] on the canvas image of [v], which is computed in
    floating point from the pointer position and the canvas origin. *)
Definition findHandle (within : Point -> bool) (s : State) : option nat :=
  let verts := getActiveVertices s in
  find (fun i => within (Point.at_index verts i)) (seq 0 (List.length verts)).

(** [arr[i] = v] for an index inside the array; [None] outside, where
    JavaScript would grow the array. *)
Fixpoint setAt (l : list Point) (i : nat) (v : Point) : option (list Point) :=
  match l, i with
  | [], _ => None
  | _ :: l', O => Some (v :: l')
  | a :: l', S i' => option_map (cons a) (setAt l' i' v)
  end.

(** The [pointerdown] listener. *)
Definition pointerdown (within : Point -> bool) (s : State) : State :=
  if tab_eqb (currentTab s) INDUCTION then s
  else match findHandle within s with
       | Some hit => setActiveHandle (Some hit) s
       | None => s
       end.

(** The [pointermove] listener.  [raw] is the argument [canvasToLattice]
    passes to [clampVertex].  [getActiveVertices] returns the very array the
    state holds on the triangle and additive tabs, so the assignment to
    [verts[state.activeHandle]] is an update of the state; on any other tab
    it writes to a fresh empty array and the state does not change.  The
    result is [None] when the handle is not an index of the array written to,
    a case [pointermove_defined] excludes. *)
Definition pointermove (raw : Q * Q) (s : State) : option State :=
  match activeHandle s with
  | None => Some s
  | Some h =>
      let next := Geometry.clampVertex raw in
      match currentTab s with
      | TRIANGLE =>
          match nth_error (triangleVertices s) h with
          | None => None
          | Some previous =>
              if Point.eqb previous next then Some s
              else option_map
                     (fun vs => mkState (activeHandle s) (currentTab s) vs
                                        (additiveVertices s) (inductionStep s)
                                        (inductionTriangles s))
                     (setAt (triangleVertices s) h next)
          end
      | ADDITIVE =>
          match nth_error (additiveVertices s) h with
          | None => None
          | Some previous =>
              if Point.eqb previous next then Some s
              else
                match setAt (additiveVertices s) h next with
                | None => None
                | Some vs =>
                    if negb (Geometry.isSimplePolygon (Array vs))
                       || negb (Geometry.trianglesOnOppositeSides (Array vs))
                    then Some s
                    else Some (mkState (activeHandle s) (currentTab s)
                                       (triangleVertices s) vs (inductionStep s)
                                       (inductionTriangles s))
                end
          end
      | _ => Some s
      end
  end.

(** [releasePointer], the [pointerup] and [pointercancel] listener. *)
Definition releasePointer (s : State) : State := setActiveHandle None s.

(** [!targetTab] for a tab name: only the empty string is falsy. *)
Definition emptyName (t : Tab) : bool :=
  match t with
  | OtherTab EmptyString => true
  | _ => false
  end.

(** The click listener of a tab button; [targetTab] is [None] when the
    button has no [data-tab]. *)
Definition tabClick (targetTab : option Tab) (s : State) : State :=
  match targetTab with
  | None => s
  | Some target =>
      if emptyName target || tab_eqb target (currentTab s) then s
      else setActiveHandle None (setTab target s)
  end.

(** The click listeners of the three induction buttons. *)
Definition prevClick (s : State) : State :=
  if inductionStep s >? 0 then setInductionStep (inductionStep s - 1) s else s.

Definition nextClick (s : State) : State :=
  if inductionStep s <? Z.of_nat (List.length (inductionTriangles s))
  then setInductionStep (inductionStep s + 1) s else s.

Definition resetClick (s : State) : State := resetInductionStep s.

(** What can happen to the state once [initialize] has attached the
    listeners. *)
Inductive Event : Type :=
| PointerDown (within : Point -> bool)
| PointerMove (raw : Q * Q)
| PointerUp
| TabClick (targetTab : option Tab)
| PrevClick
| NextClick
| ResetClick.

Definition handle (e : Event) (s : State) : option State :=
  match e with
  | PointerDown within => Some (pointerdown within s)
  | PointerMove raw => pointermove raw s
  | PointerUp => Some (releasePointer s)
  | TabClick target => Some (tabClick target s)
  | PrevClick => Some (prevClick s)
  | NextClick => Some (nextClick s)
  | ResetClick => Some (resetClick s)
  end.

(** The accumulated snapshots of [computeInductionSnapshots] (lines 162-168
    of induction.js), for any counting oracle [computePolygonSnapshot]. *)
Section Snapshots.
Context {Snapshot : Type} (computePolygonSnapshot : list Point -> Snapshot).

Definition accumulatedSnapshots (st : Induction.State) : list Snapshot :=
  for_lt 0 (Z.of_nat (List.length (Induction.inductionTriangles st)))
    (fun i snapshots =>
       let accPoly := Induction.getAccumulatedPolygon st (i + 1) in
       if (3 <=? List.length accPoly)%nat
       then snapshots ++ [computePolygonSnapshot accPoly]
       else snapshots)
    [].

Definition triangleSnapshots (st : Induction.State) : list Snapshot :=
  map computePolygonSnapshot (Induction.inductionTriangles st).
End Snapshots.

End App.

(** * Specification vocabulary

    The notions the statements below are phrased in. *)

Import Js Geometry Induction.

Section Vocabulary.

(** ** Keys and sets *)

(** The characters of [s] all differ from [c]. *)
Fixpoint avoids (c : ascii) (s : string) : bool :=
  match s with
  | EmptyString => true
  | String a s' => negb (Ascii.eqb a c) && avoids c s'
  end.

(** Adding the members of an array to a set, one after the other. *)
Definition addAll (l : list string) (s : StrSet.t) : StrSet.t :=
  fold_left (fun s k => StrSet.add k s) l s.

(** ** Polygons and their edges *)

(** Edge [i] of the closed polygon [vs] runs from vertex [i] to vertex
    [i + 1], wrapping at the end. *)
Definition edgeStart (vs : list Point) (i : nat) : Point := Point.at_index vs i.

Definition edgeEnd (vs : list Point) (i : nat) : Point :=
  Point.at_index vs ((i + 1) mod List.length vs).

(** Edges [i] and [j] of an [n]-gon are the same edge or neighbours on the
    cycle: these are the pairs that share an endpoint. *)
Definition neighbours (n i j : nat) : Prop :=
  (i = j \/ i + 1 = j \/ j + 1 = i \/ (i = 0 /\ j = n - 1) \/ (j = 0 /\ i = n - 1))%nat.

(** Edges [i] and [j] have an endpoint in common. *)
Definition shareEndpoint (vs : list Point) (i j : nat) : Prop :=
  edgeStart vs i = edgeStart vs j \/ edgeStart vs i = edgeEnd vs j
  \/ edgeEnd vs i = edgeStart vs j \/ edgeEnd vs i = edgeEnd vs j.

(** No two edges that are not neighbours intersect. *)
Definition noCrossing (vs : list Point) : Prop :=
  forall i j : nat,
    (i < List.length vs)%nat -> (j < List.length vs)%nat ->
    ~ neighbours (List.length vs) i j ->
    segmentsIntersect (edgeStart vs i) (edgeEnd vs i)
                      (edgeStart vs j) (edgeEnd vs j) = false.

(** ** Lattice points on an edge *)

(** The number of unit steps of the edge from [s] to [e]. *)
Definition edgeSteps (s e : Point) : Z :=
  Z.gcd (Z.abs (Point.x e - Point.x s)) (Z.abs (Point.y e - Point.y s)).

(** The [j]-th sample of the edge from [s] to [e]: [j] times the reduced
    step vector away from [s]. *)
Definition edgeSample (s e : Point) (j : Z) : Z * Z :=
  (Point.x s + (Point.x e - Point.x s) / edgeSteps s e * j,
   Point.y s + (Point.y e - Point.y s) / edgeSteps s e * j).

(** [p] is one of the samples of the edge, respectively of some edge of the
    closed vertex list. *)
Definition sampledOnEdge (s e : Point) (p : Z * Z) : Prop :=
  exists j, 0 <= j <= edgeSteps s e /\ p = edgeSample s e j.

Definition sampledOnBoundary (vs : list Point) (p : Z * Z) : Prop :=
  exists i : nat, (i < List.length vs)%nat
                  /\ sampledOnEdge (edgeStart vs i) (edgeEnd vs i) p.

(** Strictly ascending by x, then by y. *)
Definition lexLt (a b : Z * Z) : Prop :=
  fst a < fst b \/ (fst a = fst b /\ snd a < snd b).

(** The key of a coordinate pair. *)
Definition keyOf (p : Z * Z) : string := Point.key (pt (fst p) (snd p)).

(** All the samples of an edge, first to last. *)
Definition edgeSamples (s e : Point) : list (Z * Z) :=
  map (fun j => edgeSample s e (Z.of_nat j))
      (seq 0 (S (Z.to_nat (edgeSteps s e)))).

(** ** The decomposition, cell by cell *)

(** The counter values of [for (let k = lo; k < lo + cnt; k++)]. *)
Definition zrange (lo : Z) (cnt : nat) : list Z :=
  map (fun k => lo + Z.of_nat k) (seq 0 cnt).

(** What the decomposer emits for the grid cell [(i, j)]. *)
Definition cell (v0 : Point) (n i j : Z) : list Triangle :=
  lowerTriangle v0 i j
  :: (if i + j <? n - 1 then [upperTriangle v0 i j] else []).

(** What it emits for column [i], and for the whole grid. *)
Definition row (v0 : Point) (n i : Z) : list Triangle :=
  flat_map (cell v0 n i) (zrange 0 (Z.to_nat (n - i))).

Definition cells (v0 : Point) (n : Z) : list Triangle :=
  flat_map (row v0 n) (zrange 0 (Z.to_nat n)).

(** The area of a triangle as [polygonAreaValue] computes it, and the sum of
    the areas of a list of triangles. *)
Definition triangleArea (t : Triangle) : Q :=
  polygonAreaValue (Array (Triangle.vertices t)).

Definition totalArea (l : list Triangle) : Q :=
  fold_right Qplus 0%Q (map triangleArea l).

(** ** The sequence and its prefixes *)

(** The decomposition of the fixed outer triangle (leg length 4). *)
Definition allTriangles : list Triangle := decompose Constants.inductionOuterTriangle.

(** The number of vertices of [t1] that are vertices of [t2] as well. *)
Definition sharedVertices (t1 t2 : list Point) : nat :=
  List.length (filter (fun v => existsb (Point.eqb v) t2) t1).

(** The number of vertices of triangle [k] of a sequence that occur among
    the vertices of the triangles before it. *)
Definition sharedWithPrefix (ordered : list (list Point)) (k : nat) : nat :=
  sharedVertices (nth k ordered []) (List.concat (firstn k ordered)).

(** The states in which the [while] test of the sequencer is evaluated. *)
Inductive loopHead (all : list Triangle) : Seq -> Prop :=
| loopHead_seed : loopHead all (seed all)
| loopHead_next s :
    loopHead all s ->
    (List.length (ordered s) < List.length all)%nat ->
    loopHead all (iteration all s).

(** The check of one loop state: if the loop body runs, the adjacency scan
    finds an unplaced triangle sharing exactly two vertices with a placed one. *)
Definition adjacentFound (all : list Triangle) (s : Seq) : bool :=
  if (List.length (ordered s) <? List.length all)%nat then
    match adjacentCandidate all s with
    | Some tri =>
        negb (StrSet.has (getKey (Triangle.vertices tri)) (used s))
        && existsb (fun placed =>
                      sharesEdge placed (Triangle.vertices tri)
                      && (sharedVertices placed (Triangle.vertices tri) =? 2)%nat)
                   (ordered s)
    | None => false
    end
  else true.

(** Removing the first occurrence of [a], if there is one. *)
Fixpoint strike {A : Type} (eqb : A -> A -> bool) (a : A) (l : list A) : option (list A) :=
  match l with
  | [] => None
  | b :: l' => if eqb a b then Some l'
               else option_map (cons b) (strike eqb a l')
  end.

(** [l1] is a permutation of [l2]. *)
Fixpoint permb {A : Type} (eqb : A -> A -> bool) (l1 l2 : list A) : bool :=
  match l1 with
  | [] => match l2 with [] => true | _ => false end
  | a :: l1' => match strike eqb a l2 with
                | Some l2' => permb eqb l1' l2'
                | None => false
                end
  end.

(** Equality of lists, element by element. *)
Fixpoint listEqb {A : Type} (eqb : A -> A -> bool) (l1 l2 : list A) : bool :=
  match l1, l2 with
  | [], [] => true
  | a :: l1', b :: l2' => eqb a b && listEqb eqb l1' l2'
  | _, _ => false
  end.

(** The sequence the Adjacency Sequencer computes for the fixed outer
    triangle; [sequence_cached] states that it is. *)
Definition cachedTriangles : list (list Point) :=
  Eval vm_compute in
    match sequence 15 allTriangles with Some l => l | None => [] end.

(** ** Accumulated polygons *)

(** Vertex [i] of a closed polygon, indices wrapping around. *)
Definition polygonVertex (poly : list Point) (i : nat) : Point :=
  Point.at_index poly (i mod List.length poly).

(** Every three consecutive vertices of the closed polygon make a left turn
    or are collinear. *)
Definition convexCCW (poly : list Point) : Prop :=
  forall i : nat,
    (i < List.length poly)%nat ->
    0 <= orientation (polygonVertex poly i) (polygonVertex poly (i + 1))
                     (polygonVertex poly (i + 2)).

(** The same, as a test. *)
Definition convexCCWb (poly : list Point) : bool :=
  forallb (fun i => 0 <=? orientation (polygonVertex poly i) (polygonVertex poly (i + 1))
                                      (polygonVertex poly (i + 2)))
          (seq 0 (List.length poly)).

(** [v] is a vertex of one of the first [k] triangles of the sequence. *)
Definition fromPrefix (tris : list (list Point)) (k : nat) (v : Point) : Prop :=
  exists tri, In tri (firstn k tris) /\ In v tri.

(** The same, as a test. *)
Definition fromPrefixb (tris : list (list Point)) (k : nat) (v : Point) : bool :=
  existsb (fun tri => existsb (Point.eqb v) tri) (firstn k tris).

(** No point occurs twice. *)
Fixpoint distinctb (l : list Point) : bool :=
  match l with
  | [] => true
  | a :: l' => negb (existsb (Point.eqb a) l') && distinctb l'
  end.

(** The three properties of the accumulated polygon of prefix length [k],
    as one boolean. *)
Definition hullCheck (tris : list (list Point)) (k : nat) : bool :=
  let poly := getAccumulatedPolygon (mkState tris) (Z.of_nat k) in
  forallb (fromPrefixb tris k) poly && convexCCWb poly && distinctb poly.

(** [v] lies in the square of lattice points the application shows. *)
Definition inLattice (v : Point) : Prop :=
  - Constants.latticeRange <= Point.x v <= Constants.latticeRange
  /\ - Constants.latticeRange <= Point.y v <= Constants.latticeRange.

(** The key under which the sequencer records a triangle as placed. *)
Definition keyOfTri (t : Triangle) : string := getKey (Triangle.vertices t).

(** What the sequencer's loop keeps true: the placed vertex lists and the
    used keys are those of a list of input triangles with pairwise distinct
    keys. *)
Definition seqInv (all : list Triangle) (s : Seq) : Prop :=
  exists placed : list Triangle,
    ordered s = map Triangle.vertices placed
    /\ used s = map keyOfTri placed
    /\ NoDup (used s)
    /\ incl placed all.

(** Every vertex list after the first shares an edge with an earlier one. *)
Definition chained (ordered : list (list Point)) : Prop :=
  forall k : nat,
    (0 < k < List.length ordered)%nat ->
    exists m : nat, (m < k)%nat
                    /\ sharesEdge (nth m ordered []) (nth k ordered []) = true.

(** The sums of the coordinates of a vertex list. *)
Definition sumX (vs : list Point) : Z := fold_right (fun p a => Point.x p + a) 0 vs.

Definition sumY (vs : list Point) : Z := fold_right (fun p a => Point.y p + a) 0 vs.

(** How far a triangle of the decomposition is from the corner cell: the
    triangles are ranked along the diagonals of the grid. *)
Definition rank (t : Triangle) : Z :=
  2 * (GridPos.i (Triangle.gridPos t) + GridPos.j (Triangle.gridPos t))
  + (if GridPos.is_lower (Triangle.gridPos t) then 0 else 1).

(** A neighbour of smaller rank: the lower triangle of the same cell for an
    upper triangle, the upper triangle of the cell below (or, in the bottom
    row, of the cell to the left) for a lower one. *)
Definition parent (v0 : Point) (t : Triangle) : Triangle :=
  let i := GridPos.i (Triangle.gridPos t) in
  let j := GridPos.j (Triangle.gridPos t) in
  if GridPos.is_lower (Triangle.gridPos t) then
    if j >? 0 then upperTriangle v0 i (j - 1) else upperTriangle v0 (i - 1) 0
  else lowerTriangle v0 i j.

(** What the loop keeps true on a decomposition: the general invariant, the
    corner triangle placed first, and every later one sharing an edge with
    an earlier one. *)
Definition decompInv (v0 : Point) (n : Z) (s : Seq) : Prop :=
  seqInv (cells v0 n) s
  /\ nth_error (ordered s) 0 = Some (Triangle.vertices (lowerTriangle v0 0 0))
  /\ chained (ordered s).

(** [v] lies in the closed right triangle with right-angle vertex [v0] and
    legs of length [n] along the axes. *)
Definition insideOuter (v0 : Point) (n : Z) (v : Point) : Prop :=
  Point.x v0 <= Point.x v /\ Point.y v0 <= Point.y v
  /\ (Point.x v - Point.x v0) + (Point.y v - Point.y v0) <= n.

(** [a] comes before [b], or is [b], in the order by x and then by y. *)
Definition lexLe (a b : Point) : Prop :=
  Point.x a < Point.x b \/ (Point.x a = Point.x b /\ Point.y a <= Point.y b).

(** The closed polygon [poly] has an edge between [a] and [b], in one
    direction or the other. *)
Definition isHullEdge (poly : list Point) (a b : Point) : Prop :=
  exists j : nat,
    (j < List.length poly)%nat
    /\ ((polygonVertex poly j = a /\ polygonVertex poly (j + 1) = b)
        \/ (polygonVertex poly j = b /\ polygonVertex poly (j + 1) = a)).

(** The states the application can be in once [initialize] has built the
    induction triangles and attached the listeners. *)
Inductive reachable : App.State -> Prop :=
| reachable_start fuel s :
    App.build fuel App.initial = Some s -> reachable s
| reachable_event e s s' :
    reachable s -> App.handle e s = Some s' -> reachable s'.

(** What every reachable state satisfies. *)
Definition wellFormed (s : App.State) : Prop :=
  List.length (App.triangleVertices s) = 3%nat
  /\ List.length (App.additiveVertices s) = 4%nat
  /\ Forall inLattice (App.triangleVertices s)
  /\ Forall inLattice (App.additiveVertices s)
  /\ isSimplePolygon (Array (App.additiveVertices s)) = true
  /\ trianglesOnOppositeSides (Array (App.additiveVertices s)) = true
  /\ (forall h, App.activeHandle s = Some h ->
                (h < List.length (App.getActiveVertices s))%nat)
  /\ 0 <= App.inductionStep s <= Z.of_nat (List.length (App.inductionTriangles s))
  /\ App.inductionTriangles s = cachedTriangles.

(** The entity a character is written as, or the character itself. *)
Definition escapeChar (c : ascii) : string :=
  if Ascii.eqb c "&" then "&amp;"
  else if Ascii.eqb c "<" then "&lt;"
  else if Ascii.eqb c ">" then "&gt;"
  else if Ascii.eqb c "034" then "&quot;"
  else String c EmptyString.

(** Escaping character by character, in one pass. *)
Fixpoint escapeEach (s : string) : string :=
  match s with
  | EmptyString => EmptyString
  | String c rest => (escapeChar c ++ escapeEach rest)%string
  end.

(** Reading the four entities back. *)
Fixpoint unescapeHtml (s : string) : string :=
  match s with
  | EmptyString => EmptyString
  | String c rest =>
      if Ascii.eqb c "&" then
        match rest with
        | String "a" (String "m" (String "p" (String ";" r))) =>
            String "&" (unescapeHtml r)
        | String "l" (String "t" (String ";" r)) => String "<" (unescapeHtml r)
        | String "g" (String "t" (String ";" r)) => String ">" (unescapeHtml r)
        | String "q" (String "u" (String "o" (String "t" (String ";" r)))) =>
            String "034" (unescapeHtml r)
        | _ => String c (unescapeHtml rest)
        end
      else String c (unescapeHtml rest)
  end.

(** The vertex list started one vertex later. *)
Definition rotate1 (vs : list Point) : list Point :=
  match vs with
  | [] => []
  | a :: l => l ++ [a]
  end.

(** Where edge [i] of the reversed list is found in the list itself. *)
Definition mirror (n i : nat) : nat :=
  if (i =? n - 1)%nat then (n - 1)%nat else (n - 2 - i)%nat.

(** The term an edge contributes to twice the signed area. *)
Definition cross (a b : Point) : Z := Point.x a * Point.y b - Point.x b * Point.y a.

(** The sum of a list of integers. *)
Definition zsum (l : list Z) : Z := fold_right Z.add 0 l.

(** Where edge [i] of the list started one vertex later is found in the list
    itself, and back. *)
Definition shift (n i : nat) : nat := ((i + 1) mod n)%nat.

Definition unshift (n i : nat) : nat := if (i =? 0)%nat then (n - 1)%nat else (i - 1)%nat.

(** [v] lies in the closed interval spanned by [u] and [w]. *)
Definition between (u v w : Z) : Prop := Z.min u w <= v <= Z.max u w.

(** The closed segments [p1 p2] and [p3 p4] have a point in common: the point
    [p1 + (a/D) (p2 - p1) = p3 + (b/D) (p4 - p3)], with the two parameters
    [a/D] and [b/D] in [[0, 1]] written over a common denominator. *)
Definition meets (p1 p2 p3 p4 : Point) : Prop :=
  exists a b D : Z,
    0 < D /\ 0 <= a <= D /\ 0 <= b <= D
    /\ D * Point.x p1 + a * (Point.x p2 - Point.x p1)
       = D * Point.x p3 + b * (Point.x p4 - Point.x p3)
    /\ D * Point.y p1 + a * (Point.y p2 - Point.y p1)
       = D * Point.y p3 + b * (Point.y p4 - Point.y p3).

(** The closed segments [p1 p2] and [p3 p4] have a point in common, in the
    usual parametric form with rational parameters. *)
Definition commonPoint (p1 p2 p3 p4 : Point) : Prop :=
  exists s t : Q,
    (0 <= s <= 1 /\ 0 <= t <= 1
     /\ inject_Z (Point.x p1) + s * inject_Z (Point.x p2 - Point.x p1)
        == inject_Z (Point.x p3) + t * inject_Z (Point.x p4 - Point.x p3)
     /\ inject_Z (Point.y p1) + s * inject_Z (Point.y p2 - Point.y p1)
        == inject_Z (Point.y p3) + t * inject_Z (Point.y p4 - Point.y p3))%Q.

End Vocabulary.

(** * Properties *)

(** ** Keys: printing a lattice point and reading it back *)

Section Keys.

Lemma split_avoids sep s : avoids sep s = true -> split sep s = [s].
Proof.
  induction s as [|a s IH]; simpl; [reflexivity|].
  intros H. apply andb_prop in H as [Ha Hs].
  apply negb_true_iff in Ha. rewrite Ha, (IH Hs). reflexivity.
Qed.

Lemma split_append sep s t :
  avoids sep s = true ->
  split sep (s ++ String sep t) = s :: split sep t.
Proof.
  induction s as [|a s IH]; simpl.
  - intros _. now rewrite Ascii.eqb_refl.
  - intros H. apply andb_prop in H as [Ha Hs].
    apply negb_true_iff in Ha. rewrite Ha, (IH Hs). reflexivity.
Qed.

Lemma uint_avoids_comma d :
  avoids ","%char (NilEmpty.string_of_uint d) = true.
Proof. induction d; simpl; auto. Qed.

Lemma numToString_avoids_comma n : avoids ","%char (numToString n) = true.
Proof.
  unfold numToString. destruct (Z.to_int n); simpl; apply uint_avoids_comma.
Qed.

Lemma Number_numToString n : Number (numToString n) = n.
Proof.
  unfold Number, numToString. rewrite NilEmpty.isi. apply DecimalZ.of_to.
Qed.

Lemma parsePair_key p : parsePair (Point.key p) = (Point.x p, Point.y p).
Proof.
  unfold parsePair, Point.key.
  change ("," ++ numToString (Point.y p))%string
    with (String ","%char (numToString (Point.y p))).
  rewrite split_append by apply numToString_avoids_comma.
  rewrite split_avoids by apply numToString_avoids_comma.
  simpl. now rewrite !Number_numToString.
Qed.

Lemma parse_key p : Point.parse (Point.key p) = p.
Proof.
  unfold Point.parse. rewrite parsePair_key. now destruct p.
Qed.

Lemma key_inj p q : Point.key p = Point.key q -> p = q.
Proof.
  intros H. rewrite <- (parse_key p), <- (parse_key q). now rewrite H.
Qed.

Lemma Point_eqb_eq p q : Point.eqb p q = true <-> p = q.
Proof.
  unfold Point.eqb. destruct p as [a b], q as [c d]; simpl.
  rewrite andb_true_iff, !Z.eqb_eq. split.
  - intros [-> ->]. reflexivity.
  - intros [= -> ->]. auto.
Qed.

End Keys.

(** ** String sets *)

Section StrSets.

Lemma has_In k s : StrSet.has k s = true <-> In k s.
Proof.
  unfold StrSet.has. rewrite existsb_exists. split.
  - intros (k' & Hin & E). apply String.eqb_eq in E. now subst.
  - intros Hin. exists k. split; [assumption | apply String.eqb_refl].
Qed.

Lemma has_false k s : StrSet.has k s = false <-> ~ In k s.
Proof.
  rewrite <- has_In. destruct (StrSet.has k s); intuition congruence.
Qed.

Lemma add_In k k' s : In k' (StrSet.add k s) <-> k' = k \/ In k' s.
Proof.
  unfold StrSet.add. destruct (StrSet.has k s) eqn:E.
  - apply has_In in E. intuition (subst; auto).
  - rewrite in_app_iff. simpl. intuition.
Qed.

Lemma add_NoDup k s : NoDup s -> NoDup (StrSet.add k s).
Proof.
  intros Hs. unfold StrSet.add. destruct (StrSet.has k s) eqn:E; [assumption|].
  apply has_false in E. apply NoDup_app; auto.
  - constructor; [intros [] | constructor].
  - intros a Ha [<- | []]. contradiction.
Qed.

Lemma addAll_In l : forall s k, In k (addAll l s) <-> In k s \/ In k l.
Proof.
  induction l as [|a l IH]; simpl; intros s k; [intuition|].
  unfold addAll in *. simpl. rewrite IH, add_In. intuition.
Qed.

Lemma addAll_NoDup l : forall s, NoDup s -> NoDup (addAll l s).
Proof.
  induction l as [|a l IH]; simpl; intros s Hs; [assumption|].
  apply IH, add_NoDup, Hs.
Qed.

Lemma addAll_length_le l :
  forall s, (List.length (addAll l s) <= List.length s + List.length l)%nat.
Proof.
  induction l as [|a l IH]; simpl; intros s; [lia|].
  specialize (IH (StrSet.add a s)). unfold addAll in *. simpl.
  unfold StrSet.add in *. destruct (StrSet.has a s); [lia|].
  rewrite length_app in IH. simpl in IH. lia.
Qed.

Lemma addAll_length l :
  forall s, NoDup s ->
    List.length (addAll l s) = (List.length s + List.length l)%nat
    <-> NoDup (s ++ l).
Proof.
  induction l as [|a l IH]; intros s Hs.
  - simpl. rewrite app_nil_r. intuition lia.
  - change (addAll (a :: l) s) with (addAll l (StrSet.add a s)).
    unfold StrSet.add. destruct (StrSet.has a s) eqn:E.
    + apply has_In in E. pose proof (addAll_length_le l s). simpl. split.
      * lia.
      * intros Hnd. apply NoDup_remove_2 in Hnd. exfalso. apply Hnd.
        apply in_or_app. now left.
    + apply has_false in E.
      assert (Hs' : NoDup (s ++ [a])).
      { apply NoDup_app; auto.
        - constructor; [intros [] | constructor].
        - intros b Hb [<- | []]. contradiction. }
      specialize (IH _ Hs'). rewrite <- app_assoc, length_app in IH.
      simpl in *. rewrite <- IH. split; lia.
Qed.

Lemma of_list_size l : StrSet.size (StrSet.of_list l) = List.length l <-> NoDup l.
Proof.
  unfold StrSet.size, StrSet.of_list.
  apply (addAll_length l []). constructor.
Qed.

End StrSets.

(** ** The polygon validator *)

Section Validator.

Lemma NoDup_keys (vs : list Point) : NoDup (map Point.key vs) <-> NoDup vs.
Proof.
  split.
  - apply NoDup_map_inv.
  - apply Finite.Injective_map_NoDup. intros p q. apply key_inj.
Qed.

Lemma Qltb_false p q : Qltb p q = false <-> (q <= p)%Q.
Proof.
  unfold Qltb. rewrite negb_false_iff. apply Qle_bool_iff.
Qed.

Lemma segmentsIntersect_sym p1 p2 p3 p4 :
  segmentsIntersect p1 p2 p3 p4 = segmentsIntersect p3 p4 p1 p2.
Proof.
  unfold segmentsIntersect. cbv zeta.
  destruct ((orientation p1 p2 p3 =? 0) && onSegment p1 p3 p2),
           ((orientation p1 p2 p4 =? 0) && onSegment p1 p4 p2),
           ((orientation p3 p4 p1 =? 0) && onSegment p3 p1 p4),
           ((orientation p3 p4 p2 =? 0) && onSegment p3 p2 p4);
    try reflexivity.
  apply andb_comm.
Qed.

Lemma edgePairOk_true vs i j :
  (i < j)%nat ->
  edgePairOk vs i j = true <->
  (neighbours (List.length vs) i j \/
   segmentsIntersect (edgeStart vs i) (edgeEnd vs i)
                     (edgeStart vs j) (edgeEnd vs j) = false).
Proof.
  intros Hij. unfold edgePairOk, neighbours, edgeStart, edgeEnd. cbv zeta.
  destruct (Z.leb_spec (Z.abs (Z.of_nat i - Z.of_nat j)) 1) as [H1|H1].
  { split; [intros _; left; lia | reflexivity]. }
  destruct (Nat.eqb_spec i 0) as [H0|H0];
    destruct (Nat.eqb_spec j (List.length vs - 1)) as [Hn|Hn]; simpl.
  1: { split; [intros _; left; lia | reflexivity]. }
  all: rewrite negb_true_iff; split; [intros H; now right | intros [H|H]; [lia | exact H]].
Qed.

Lemma edgeLoops_noCrossing vs :
  forallb (fun i => forallb (edgePairOk vs i)
                            (seq (i + 1) (List.length vs - (i + 1))))
          (seq 0 (List.length vs)) = true
  <-> noCrossing vs.
Proof.
  rewrite forallb_forall. split.
  - intros H i j Hi Hj Hnb.
    assert (Hne : i <> j) by (intros ->; apply Hnb; left; reflexivity).
    destruct (Nat.lt_ge_cases i j) as [Hlt|Hge].
    + specialize (H i ltac:(apply in_seq; lia)).
      rewrite forallb_forall in H.
      specialize (H j ltac:(apply in_seq; lia)).
      apply edgePairOk_true in H as [H|H]; [contradiction | exact H | lia].
    + specialize (H j ltac:(apply in_seq; lia)).
      rewrite forallb_forall in H.
      specialize (H i ltac:(apply in_seq; lia)).
      apply edgePairOk_true in H as [H|H]; [| | lia].
      * exfalso. apply Hnb. unfold neighbours in *. lia.
      * now rewrite segmentsIntersect_sym.
  - intros H i Hi. apply in_seq in Hi. rewrite forallb_forall. intros j Hj.
    apply in_seq in Hj. apply edgePairOk_true; [lia|].
    destruct (Z.leb_spec (Z.abs (Z.of_nat i - Z.of_nat j)) 1) as [H1|H1].
    { left. unfold neighbours. lia. }
    destruct (Nat.eq_dec i 0) as [H0|H0];
      destruct (Nat.eq_dec j (List.length vs - 1)) as [Hn|Hn].
    1: { left. unfold neighbours. lia. }
    all: right; apply H; unfold neighbours; lia.
Qed.

Lemma wrap_succ (n i : nat) :
  (i < n)%nat -> ((i + 1) mod n = if (i + 1 =? n)%nat then 0 else i + 1)%nat.
Proof.
  intros Hi. destruct (Nat.eqb_spec (i + 1) n) as [E|E].
  - rewrite E. apply Nat.Div0.mod_same.
  - apply Nat.mod_small. lia.
Qed.

(** On pairwise distinct vertices, the neighbours are the edges that have an
    endpoint in common. *)
Lemma neighbours_shareEndpoint vs i j :
  NoDup vs ->
  (i < List.length vs)%nat -> (j < List.length vs)%nat ->
  neighbours (List.length vs) i j <-> shareEndpoint vs i j.
Proof.
  intros Hnd Hi Hj.
  assert (Hinj : forall a b, (a < List.length vs)%nat -> (b < List.length vs)%nat ->
                             Point.at_index vs a = Point.at_index vs b -> a = b).
  { intros a b Ha Hb E. unfold Point.at_index in E.
    exact (proj1 (NoDup_nth vs (pt 0 0)) Hnd a b Ha Hb E). }
  assert (Hw : forall a, (a < List.length vs)%nat ->
                         ((a + 1) mod List.length vs < List.length vs)%nat).
  { intros a Ha. apply Nat.mod_upper_bound. lia. }
  unfold neighbours, shareEndpoint, edgeStart, edgeEnd. split.
  - intros H.
    rewrite (wrap_succ _ i Hi), (wrap_succ _ j Hj).
    destruct (Nat.eqb_spec (i + 1) (List.length vs)),
             (Nat.eqb_spec (j + 1) (List.length vs));
      destruct H as [H | [H | [H | [H | H]]]];
      first [ lia
            | left; f_equal; lia
            | right; left; f_equal; lia
            | right; right; left; f_equal; lia
            | right; right; right; f_equal; lia ].
  - intros [H | [H | [H | H]]]; apply Hinj in H; auto;
      rewrite ?(wrap_succ _ i Hi), ?(wrap_succ _ j Hj) in H;
      destruct (Nat.eqb_spec (i + 1) (List.length vs)),
               (Nat.eqb_spec (j + 1) (List.length vs)); lia.
Qed.

Lemma isSimplePolygon_iff vs :
  (3 <= List.length vs)%nat ->
  isSimplePolygon (Array vs) = true <->
  NoDup vs
  /\ (1 # 2 <= Qabs (polygonAreaValue (Array vs)))%Q
  /\ noCrossing vs.
Proof.
  intros Hlen. unfold isSimplePolygon.
  destruct (Nat.ltb_spec (List.length vs) 3) as [?|_]; [lia|].
  rewrite <- edgeLoops_noCrossing, <- Qltb_false, <- NoDup_keys, <- of_list_size.
  rewrite length_map.
  destruct (Nat.eqb_spec (StrSet.size (StrSet.of_list (map Point.key vs)))
                         (List.length vs)) as [E|E]; cbn [negb].
  - destruct (Qltb (Qabs (polygonAreaValue (Array vs))) (1 # 2)).
    + split; [discriminate | intros (_ & H & _); discriminate].
    + split; [intros H; repeat split; assumption | intros (_ & _ & H); exact H].
  - split; [discriminate | intros (H & _); contradiction].
Qed.

End Validator.

(** C7.  On a list of at least three vertices [isSimplePolygon] answers true
    exactly when the vertices are pairwise distinct, the absolute value of the
    signed area is at least 1/2 and no two edges that are not neighbours on
    the cycle (the first and the last edge are neighbours) intersect according
    to [segmentsIntersect]; the edges that are not neighbours are then the
    pairs of edges without a common endpoint.  It rejects the bowtie
    [(0,0),(2,2),(2,0),(0,2)] and accepts the square
    [(0,0),(2,0),(2,2),(0,2)]. *)
Theorem isSimplePolygon_spec :
  (forall vs : list Point,
      (3 <= List.length vs)%nat ->
      (isSimplePolygon (Array vs) = true <->
       NoDup vs
       /\ (1 # 2 <= Qabs (polygonAreaValue (Array vs)))%Q
       /\ noCrossing vs)
      /\ (isSimplePolygon (Array vs) = true <->
          NoDup vs
          /\ (1 # 2 <= Qabs (polygonAreaValue (Array vs)))%Q
          /\ forall i j : nat,
              (i < List.length vs)%nat -> (j < List.length vs)%nat ->
              ~ shareEndpoint vs i j ->
              segmentsIntersect (edgeStart vs i) (edgeEnd vs i)
                                (edgeStart vs j) (edgeEnd vs j) = false))
  /\ isSimplePolygon (Array [pt 0 0; pt 2 2; pt 2 0; pt 0 2]) = false
  /\ isSimplePolygon (Array [pt 0 0; pt 2 0; pt 2 2; pt 0 2]) = true.
Proof.
  split; [|split; vm_compute; reflexivity].
  intros vs Hlen. split; [now apply isSimplePolygon_iff|].
  rewrite (isSimplePolygon_iff vs Hlen). split.
  - intros (Hnd & Ha & Hc). repeat split; try assumption.
    intros i j Hi Hj Hs. apply Hc; try assumption.
    intros Hn. apply Hs. now apply neighbours_shareEndpoint.
  - intros (Hnd & Ha & Hc). repeat split; try assumption.
    intros i j Hi Hj Hn. apply Hc; try assumption.
    intros Hs. apply Hn. now apply neighbours_shareEndpoint.
Qed.

Lemma isSimplePolygon_spec_witness :
  (3 <= List.length [pt 0 0; pt 2 0; pt 2 2; pt 0 2])%nat
  /\ (NoDup [pt 0 0; pt 2 0; pt 2 2; pt 0 2]
      /\ (1 # 2 <= Qabs (polygonAreaValue (Array [pt 0 0; pt 2 0; pt 2 2; pt 0 2])))%Q
      /\ noCrossing [pt 0 0; pt 2 0; pt 2 2; pt 0 2]).
Proof.
  assert (H : (3 <= List.length [pt 0 0; pt 2 0; pt 2 2; pt 0 2])%nat) by (simpl; lia).
  split; [exact H|].
  apply (proj1 (proj1 isSimplePolygon_spec _ H)). vm_compute. reflexivity.
Defined.

(** C10.  Outside its documented domain [isSimplePolygon] still returns a
    value, and that value is false: for [null], for [undefined] and for every
    array of fewer than three vertices. *)
Theorem isSimplePolygon_total_outside_domain :
  isSimplePolygon Null = false
  /\ isSimplePolygon Undefined = false
  /\ forall vs : list Point,
      (List.length vs < 3)%nat -> isSimplePolygon (Array vs) = false.
Proof.
  repeat split. intros vs Hlen. unfold isSimplePolygon.
  destruct (Nat.ltb_spec (List.length vs) 3); [reflexivity | lia].
Qed.

Lemma isSimplePolygon_total_outside_domain_witness :
  (List.length [pt 0 0; pt 1 0] < 3)%nat
  /\ isSimplePolygon (Array [pt 0 0; pt 1 0]) = false.
Proof.
  split; [simpl; lia|].
  apply (proj2 (proj2 isSimplePolygon_total_outside_domain)). simpl. lia.
Defined.

(** C8.  On a list of four vertices [a, b, c, d], [trianglesOnOppositeSides]
    answers true exactly when [orientation a c b] and [orientation a c d] are
    both non-zero and of opposite sign, and false exactly when one of them is
    zero or both have the same sign; it accepts the default additive
    configuration [(-4,-1),(3,-1),(2,4),(-3,4)] and rejects four collinear
    points. *)
Theorem trianglesOnOppositeSides_spec :
  (forall a b c d : Point,
      trianglesOnOppositeSides (Array [a; b; c; d]) = true <->
      orientation a c b <> 0 /\ orientation a c d <> 0
      /\ Z.sgn (orientation a c b) = - Z.sgn (orientation a c d))
  /\ (forall a b c d : Point,
      trianglesOnOppositeSides (Array [a; b; c; d]) = false <->
      orientation a c b = 0 \/ orientation a c d = 0
      \/ Z.sgn (orientation a c b) = Z.sgn (orientation a c d))
  /\ trianglesOnOppositeSides (Array [pt (-4) (-1); pt 3 (-1); pt 2 4; pt (-3) 4]) = true
  /\ trianglesOnOppositeSides (Array Constants.initialAdditive) = true
  /\ trianglesOnOppositeSides (Array [pt 0 0; pt 1 1; pt 2 2; pt 3 3]) = false
  /\ trianglesOnOppositeSides (Array [pt 0 0; pt 1 1; pt 2 0; pt 1 2]) = false.
Proof.
  split; [|split; [|repeat split]].
  - intros a b c d. unfold trianglesOnOppositeSides.
    generalize (orientation a c b) (orientation a c d). intros oB oD.
    destruct (Z.eqb_spec oB 0), (Z.eqb_spec oD 0); simpl;
      try (split; [discriminate | lia]).
    rewrite Z.ltb_lt. split; intros H; [repeat split; auto | ]; nia.
  - intros a b c d. unfold trianglesOnOppositeSides.
    generalize (orientation a c b) (orientation a c d). intros oB oD.
    destruct (Z.eqb_spec oB 0), (Z.eqb_spec oD 0); simpl;
      try (split; [auto | reflexivity]).
    rewrite Z.ltb_ge. split; intros H; [right; right | ]; nia.
Qed.

(** ** Loops and sorting *)

Section Loops.

Lemma for_count_set_In (f : Z -> string) cnt :
  forall lo b k,
    In k (for_count cnt lo (fun j b => StrSet.add (f j) b) b)
    <-> In k b \/ exists j, lo <= j < lo + Z.of_nat cnt /\ k = f j.
Proof.
  induction cnt as [|cnt IH]; intros lo b k.
  - simpl. split; [auto | intros [H | (j & Hj & _)]; [exact H | lia]].
  - cbn [for_count]. rewrite IH, add_In. split.
    + intros [[-> | H] | (j & Hj & ->)].
      * right. exists lo. split; [lia | reflexivity].
      * now left.
      * right. exists j. split; [lia | reflexivity].
    + intros [H | (j & Hj & ->)]; [left; now right|].
      destruct (Z.eq_dec j lo) as [-> | Hne]; [left; now left|].
      right. exists j. split; [lia | reflexivity].
Qed.

Lemma for_count_set_NoDup (f : Z -> string) cnt :
  forall lo b, NoDup b ->
    NoDup (for_count cnt lo (fun j b => StrSet.add (f j) b) b).
Proof.
  induction cnt as [|cnt IH]; intros lo b Hb; [exact Hb|].
  cbn [for_count]. apply IH, add_NoDup, Hb.
Qed.

(** An invariant carried through a counted loop. *)
Lemma for_count_inv {St : Type} (P : Z -> St -> Prop) (body : Z -> St -> St) cnt :
  forall lo st,
    P lo st ->
    (forall i st, lo <= i < lo + Z.of_nat cnt -> P i st -> P (i + 1) (body i st)) ->
    P (lo + Z.of_nat cnt) (for_count cnt lo body st).
Proof.
  induction cnt as [|cnt IH]; intros lo st H0 Hstep.
  - simpl. now rewrite Z.add_0_r.
  - cbn [for_count].
    replace (lo + Z.of_nat (S cnt)) with ((lo + 1) + Z.of_nat cnt) by lia.
    apply IH.
    + apply Hstep; [lia | exact H0].
    + intros i st' Hi. apply Hstep. lia.
Qed.

End Loops.

Section Sorting.
Context {A : Type} (le : A -> A -> bool).

Lemma insert_perm a l : Permutation (insert le a l) (a :: l).
Proof.
  induction l as [|b l IH]; simpl; [reflexivity|].
  destruct (le a b); [reflexivity|].
  rewrite IH. apply perm_swap.
Qed.

Lemma sortBy_perm l : Permutation (sortBy le l) l.
Proof.
  induction l as [|a l IH]; simpl; [reflexivity|].
  rewrite insert_perm. now constructor.
Qed.

Hypothesis le_total : forall a b, le a b = true \/ le b a = true.
Hypothesis le_trans : forall a b c, le a b = true -> le b c = true -> le a c = true.

Lemma insert_sorted a l :
  StronglySorted (fun u v => le u v = true) l ->
  StronglySorted (fun u v => le u v = true) (insert le a l).
Proof.
  induction 1 as [|b l Hl IH Hb]; simpl.
  - repeat constructor.
  - destruct (le a b) eqn:E.
    + constructor; [now constructor|].
      constructor; [exact E|].
      eapply Forall_impl; [|exact Hb]. intros c. now apply le_trans.
    + constructor; [exact IH|].
      assert (Hba : le b a = true) by (destruct (le_total a b); congruence).
      apply Forall_forall. intros c Hc.
      apply (Permutation_in _ (insert_perm a l)) in Hc.
      destruct Hc as [<- | Hc]; [exact Hba|].
      rewrite Forall_forall in Hb. now apply Hb.
Qed.

Lemma sortBy_sorted l : StronglySorted (fun u v => le u v = true) (sortBy le l).
Proof.
  induction l as [|a l IH]; simpl; [constructor | now apply insert_sorted].
Qed.

End Sorting.

(** ** The greatest common divisor *)

Section Gcd.

Lemma gcd_loop_enough fuel :
  forall x y, 0 <= x -> 0 <= y -> (Z.to_nat y <= fuel)%nat ->
    gcd_loop fuel x y = Some (Z.gcd x y).
Proof.
  induction fuel as [|fuel IH]; intros x y Hx Hy Hfuel.
  - assert (y = 0) by lia. subst. simpl. now rewrite Z.gcd_0_r, Z.abs_eq.
  - cbn [gcd_loop]. destruct (Z.eqb_spec y 0) as [-> | Hne].
    + now rewrite Z.gcd_0_r, Z.abs_eq.
    + rewrite Z.rem_mod_nonneg by lia.
      pose proof (Z.mod_pos_bound x y ltac:(lia)) as Hb.
      rewrite IH by lia.
      f_equal. rewrite Z.gcd_comm, Z.gcd_mod by exact Hne. apply Z.gcd_comm.
Qed.

(** The [while] loop of [gcd] always exits through its own test. *)
Lemma gcd_loop_terminates a b : gcd a b = Some (Z.gcd a b).
Proof.
  unfold gcd. rewrite gcd_loop_enough by lia.
  now rewrite Z.gcd_abs_l, Z.gcd_abs_r.
Qed.

End Gcd.

(** ** The boundary lattice point collector *)

Section Boundary.

Lemma parsePair_keyOf p : parsePair (keyOf p) = p.
Proof. unfold keyOf. rewrite parsePair_key. now destruct p. Qed.

Lemma edgeSteps_gcd s e :
  edgeSteps s e = Z.gcd (Point.x e - Point.x s) (Point.y e - Point.y s).
Proof. unfold edgeSteps. now rewrite Z.gcd_abs_l, Z.gcd_abs_r. Qed.

Lemma edge_split s e :
  let g := edgeSteps s e in
  Point.x e = Point.x s + g * ((Point.x e - Point.x s) / g)
  /\ Point.y e = Point.y s + g * ((Point.y e - Point.y s) / g)
  /\ 0 <= g.
Proof.
  intros g. subst g. rewrite edgeSteps_gcd.
  set (dx := Point.x e - Point.x s). set (dy := Point.y e - Point.y s).
  destruct (Z.eq_dec (Z.gcd dx dy) 0) as [E|E].
  - rewrite E. apply Z.gcd_eq_0 in E as [E1 E2]. subst dx dy. lia.
  - pose proof (Z.gcd_nonneg dx dy).
    pose proof (Z.gcd_divide_l dx dy) as Hx.
    pose proof (Z.gcd_divide_r dx dy) as Hy.
    apply Znumtheory.Zdivide_Zdiv_eq in Hx; [|lia].
    apply Znumtheory.Zdivide_Zdiv_eq in Hy; [|lia].
    subst dx dy. lia.
Qed.

Lemma sampled_onEdge s e p :
  sampledOnEdge s e p <-> isPointOnEdge (pt (fst p) (snd p)) s e = true.
Proof.
  unfold sampledOnEdge, edgeSample, isPointOnEdge. cbv zeta. cbn [Point.x Point.y].
  destruct (edge_split s e) as (Hx & Hy & Hg). cbv zeta in Hx, Hy.
  pose proof (edgeSteps_gcd s e) as Hgcd.
  set (g := edgeSteps s e) in *.
  set (a := (Point.x e - Point.x s) / g) in *.
  set (b := (Point.y e - Point.y s) / g) in *.
  destruct p as [px py]. cbn [fst snd].
  split.
  - intros (j & Hj & [= -> ->]).
    rewrite Hx, Hy.
    replace ((Point.x s + a * j - Point.x s) * (Point.y s + g * b - Point.y s)
             - (Point.y s + b * j - Point.y s) * (Point.x s + g * a - Point.x s))
      with 0 by ring.
    cbn [Z.eqb negb].
    assert (0 <= a * j <= g * a \/ g * a <= a * j <= 0)
      by (destruct (Z.le_gt_cases 0 a); [left | right]; nia).
    assert (0 <= b * j <= g * b \/ g * b <= b * j <= 0)
      by (destruct (Z.le_gt_cases 0 b); [left | right]; nia).
    rewrite !andb_true_iff, !Z.geb_le, !Z.leb_le. lia.
  - destruct (Z.eqb_spec ((px - Point.x s) * (Point.y e - Point.y s)
                          - (py - Point.y s) * (Point.x e - Point.x s)) 0)
      as [Hc|Hc]; cbn [negb]; [|discriminate].
    rewrite !andb_true_iff, !Z.geb_le, !Z.leb_le. intros Hbox.
    destruct (Z.eq_dec g 0) as [Hg0|Hg0].
    + exists 0. split; [lia|]. f_equal; lia.
    + assert (Hrel : Z.gcd a b = 1).
      { subst a b. rewrite Hgcd. apply Z.gcd_div_gcd; [lia | reflexivity]. }
      assert (Hc' : (px - Point.x s) * b = (py - Point.y s) * a) by nia.
      destruct (Z.eq_dec a 0) as [Ha|Ha].
      * rewrite Ha in *. rewrite Z.gcd_0_l in Hrel.
        assert (Hb : b = 1 \/ b = -1) by lia.
        exists ((py - Point.y s) * b). split; [nia|]. f_equal; nia.
      * assert (Hdiv : (a | px - Point.x s)).
        { apply Z.gauss with b; [|exact Hrel].
          exists (py - Point.y s). lia. }
        destruct Hdiv as [t Ht]. exists t.
        assert (py - Point.y s = b * t) by nia.
        split; [nia|]. f_equal; nia.
Qed.

Lemma wrap_index (i n : nat) :
  Z.to_nat ((Z.of_nat i + 1) mod Z.of_nat n) = ((i + 1) mod n)%nat.
Proof.
  replace (Z.of_nat i + 1) with (Z.of_nat (i + 1)) by lia.
  rewrite <- Nat2Z.inj_mod. apply Nat2Z.id.
Qed.

Lemma addEdgePoints_spec vs (i : nat) b :
  NoDup b ->
  exists b',
    addEdgePoints vs (Z.of_nat i) (Some b) = Some b'
    /\ NoDup b'
    /\ forall k, In k b' <->
                 In k b \/ exists p, sampledOnEdge (edgeStart vs i) (edgeEnd vs i) p
                                     /\ k = keyOf p.
Proof.
  intros Hb. unfold addEdgePoints.
  rewrite Nat2Z.id, wrap_index, gcd_loop_terminates.
  fold (edgeStart vs i) (edgeEnd vs i).
  set (s := edgeStart vs i). set (e := edgeEnd vs i).
  fold (edgeSteps s e).
  pose proof (edge_split s e) as (_ & _ & Hg). cbv zeta in Hg.
  destruct (Z.eqb_spec (edgeSteps s e) 0) as [E|E].
  - eexists. split; [reflexivity|]. split; [now apply add_NoDup|].
    intros k. rewrite add_In. unfold sampledOnEdge, edgeSample, keyOf. rewrite E.
    split.
    + intros [-> | H]; [right | now left].
      exists (Point.x s, Point.y s). split.
      * exists 0. split; [lia|]. f_equal; lia.
      * cbn [fst snd]. now destruct s.
    + intros [H | (p & (j & Hj & ->) & ->)]; [now right | left].
      assert (j = 0) by lia. subst j. cbn [fst snd].
      rewrite !Z.mul_0_r, !Z.add_0_r. now destruct s.
  - eexists. split; [reflexivity|]. split.
    + unfold for_lt. now apply for_count_set_NoDup.
    + intros k. unfold for_lt.
      rewrite (for_count_set_In
                 (fun j => Point.key
                             (pt (Point.x s + (Point.x e - Point.x s) / edgeSteps s e * j)
                                 (Point.y s + (Point.y e - Point.y s) / edgeSteps s e * j)))).
      unfold sampledOnEdge. split.
      * intros [H | (j & Hj & ->)]; [now left | right].
        exists (edgeSample s e j). split; [|reflexivity].
        exists j. split; [lia | reflexivity].
      * intros [H | (p & (j & Hj & ->) & ->)]; [now left | right].
        exists j. split; [lia | reflexivity].
Qed.

Lemma comparePairs_total a b :
  (comparePairs a b <=? 0) = true \/ (comparePairs b a <=? 0) = true.
Proof.
  unfold comparePairs. rewrite !Z.leb_le.
  destruct (Z.eqb_spec (fst a) (fst b)), (Z.eqb_spec (fst b) (fst a)); lia.
Qed.

Lemma comparePairs_trans a b c :
  (comparePairs a b <=? 0) = true -> (comparePairs b c <=? 0) = true ->
  (comparePairs a c <=? 0) = true.
Proof.
  unfold comparePairs. rewrite !Z.leb_le.
  destruct (Z.eqb_spec (fst a) (fst b)), (Z.eqb_spec (fst b) (fst c)),
           (Z.eqb_spec (fst a) (fst c)); lia.
Qed.

Lemma comparePairs_strict a b :
  (comparePairs a b <=? 0) = true -> a <> b -> lexLt a b.
Proof.
  unfold comparePairs, lexLt. rewrite Z.leb_le.
  destruct a as [a1 a2], b as [b1 b2]. cbn [fst snd].
  destruct (Z.eqb_spec a1 b1); intros H Hne; [right | left; lia].
  split; [assumption|].
  assert (a2 <> b2) by congruence. lia.
Qed.

Lemma sorted_strict (l : list (Z * Z)) :
  NoDup l ->
  StronglySorted (fun u v => (comparePairs u v <=? 0) = true) l ->
  StronglySorted lexLt l.
Proof.
  intros Hnd Hs. induction Hs as [|a l Hl IH Ha]; constructor.
  - apply IH. now inversion Hnd.
  - inversion Hnd as [|? ? Hnotin _]; subst.
    rewrite Forall_forall in *. intros c Hc.
    apply comparePairs_strict; [now apply Ha|].
    intros ->. contradiction.
Qed.

Lemma collectBoundaryPoints_correct vs :
  exists r,
    collectBoundaryPoints vs = Some r
    /\ StronglySorted lexLt r
    /\ forall p, In p r <-> sampledOnBoundary vs p.
Proof.
  unfold collectBoundaryPoints, for_lt. rewrite Z.sub_0_r, Nat2Z.id.
  pose (P := fun (i : Z) (st : option StrSet.t) =>
               exists b, st = Some b /\ NoDup b
                         /\ forall k, In k b <->
                                      exists (i' : nat) p,
                                        Z.of_nat i' < i
                                        /\ sampledOnEdge (edgeStart vs i') (edgeEnd vs i') p
                                        /\ k = keyOf p).
  assert (H : P (0 + Z.of_nat (List.length vs))
                (for_count (List.length vs) 0 (addEdgePoints vs) (Some StrSet.empty))).
  { apply for_count_inv.
    - exists []. split; [reflexivity|]. split; [constructor|].
      intros k. split; [intros [] | intros (i' & p & Hi & _); lia].
    - intros i st Hi (b & -> & Hb & Hin).
      destruct (addEdgePoints_spec vs (Z.to_nat i) b Hb) as (b' & E & Hb' & Hin').
      rewrite Z2Nat.id in E by lia.
      exists b'. split; [exact E|]. split; [exact Hb'|].
      intros k. rewrite Hin', Hin. split.
      + intros [(i' & p & Hlt & Hp & ->) | (p & Hp & ->)].
        * exists i', p. repeat split; [lia | assumption].
        * exists (Z.to_nat i), p. repeat split; [lia | assumption].
      + intros (i' & p & Hlt & Hp & ->).
        destruct (Z.eq_dec (Z.of_nat i') i) as [Heq|Hne].
        * right. exists p. subst i. rewrite Nat2Z.id. now split.
        * left. exists i', p. repeat split; [lia | assumption]. }
  destruct H as (b & -> & Hb & Hin).
  eexists. split; [reflexivity|].
  assert (Hnd : NoDup (map parsePair (StrSet.to_array b))).
  { unfold StrSet.to_array. clear -Hb Hin.
    assert (Hk : forall k, In k b -> exists p, k = keyOf p).
    { intros k Hk. apply Hin in Hk as (_ & p & _ & _ & ->). now exists p. }
    clear Hin. induction Hb as [|k b Hnotin Hb IH]; simpl; constructor.
    - intros Hin. apply in_map_iff in Hin as (k' & Hk' & Hin).
      destruct (Hk k (or_introl eq_refl)) as (p & ->).
      destruct (Hk k' (or_intror Hin)) as (p' & ->).
      rewrite !parsePair_keyOf in Hk'. subst p'. contradiction.
    - apply IH. intros k' Hk'. apply Hk. now right. }
  split.
  - apply sorted_strict.
    + eapply Permutation_NoDup; [|exact Hnd]. symmetry. apply sortBy_perm.
    + apply sortBy_sorted; [apply comparePairs_total | apply comparePairs_trans].
  - intros p. unfold sampledOnBoundary, StrSet.to_array. split.
    + intros Hp. apply (Permutation_in _ (sortBy_perm _ _)) in Hp.
      apply in_map_iff in Hp as (k & <- & Hk).
      apply Hin in Hk as (i' & p' & Hlt & Hp & ->).
      rewrite parsePair_keyOf. exists i'. split; [lia | assumption].
    + intros (i & Hi & Hp).
      apply (Permutation_in _ (Permutation_sym (sortBy_perm _ _))).
      apply in_map_iff. exists (keyOf p). split; [apply parsePair_keyOf|].
      apply Hin. exists i, p. repeat split; [lia | assumption].
Qed.

Lemma edgeSamples_In s e p : In p (edgeSamples s e) <-> sampledOnEdge s e p.
Proof.
  unfold edgeSamples, sampledOnEdge. rewrite in_map_iff.
  pose proof (edge_split s e) as (_ & _ & Hg). cbv zeta in Hg. split.
  - intros (j & <- & Hj). apply in_seq in Hj. exists (Z.of_nat j). split; [lia | reflexivity].
  - intros (j & Hj & ->). exists (Z.to_nat j). rewrite Z2Nat.id by lia.
    split; [reflexivity | apply in_seq; lia].
Qed.

Lemma edgeSample_inj s e j j' :
  0 <= j <= edgeSteps s e -> 0 <= j' <= edgeSteps s e ->
  edgeSample s e j = edgeSample s e j' -> j = j'.
Proof.
  intros Hj Hj'. unfold edgeSample. intros [= Hx Hy].
  destruct (edge_split s e) as (Ex & Ey & Hg). cbv zeta in Ex, Ey.
  pose proof (edgeSteps_gcd s e) as Hgcd.
  set (g := edgeSteps s e) in *.
  set (a := (Point.x e - Point.x s) / g) in *.
  set (b := (Point.y e - Point.y s) / g) in *.
  destruct (Z.eq_dec g 0) as [Hg0|Hg0]; [lia|].
  assert (Hrel : Z.gcd a b = 1).
  { subst a b. rewrite Hgcd. apply Z.gcd_div_gcd; [lia | reflexivity]. }
  destruct (Z.eq_dec a 0) as [Ha|Ha].
  - rewrite Ha, Z.gcd_0_l in Hrel. nia.
  - nia.
Qed.

Lemma edgeSamples_NoDup s e : NoDup (edgeSamples s e).
Proof.
  unfold edgeSamples.
  assert (H : forall n, (n <= S (Z.to_nat (edgeSteps s e)))%nat ->
                        NoDup (map (fun j => edgeSample s e (Z.of_nat j)) (seq 0 n))).
  { induction n as [|n IH]; intros Hn; [constructor|].
    rewrite seq_S, map_app. simpl. apply NoDup_app; [apply IH; lia | | ].
    - constructor; [intros [] | constructor].
    - intros p Hp [<- | []].
      apply in_map_iff in Hp as (j & Hj & Hin). apply in_seq in Hin.
      apply edgeSample_inj in Hj; lia. }
  apply H. lia.
Qed.

End Boundary.

(** C9.  [collectBoundaryPoints] returns, sorted by x and then y and without
    repetition, exactly the points sampled on the edges of the vertex list
    (each vertex to the next, the last back to the first), which are exactly
    the integer points lying on those edges.  An edge with
    [steps = gcd(|dx|, |dy|)] is sampled at the [steps + 1] distinct points
    [start + j * (dx / steps, dy / steps)], [j = 0 .. steps]; an edge of
    length zero has the single sample [start].  For [(0,0),(3,0)] the result
    is [(0,0),(1,0),(2,0),(3,0)] and for [(0,0),(2,2)] it is
    [(0,0),(1,1),(2,2)]. *)
Theorem collectBoundaryPoints_spec :
  (forall vs : list Point,
      exists r,
        collectBoundaryPoints vs = Some r
        /\ StronglySorted lexLt r
        /\ (forall p, In p r <->
                      exists i : nat,
                        (i < List.length vs)%nat
                        /\ In p (edgeSamples (edgeStart vs i) (edgeEnd vs i)))
        /\ (forall p, In p r <->
                      exists i : nat,
                        (i < List.length vs)%nat
                        /\ isPointOnEdge (pt (fst p) (snd p))
                                         (edgeStart vs i) (edgeEnd vs i) = true))
  /\ (forall s e : Point,
        NoDup (edgeSamples s e)
        /\ Z.of_nat (List.length (edgeSamples s e))
           = Z.gcd (Z.abs (Point.x e - Point.x s)) (Z.abs (Point.y e - Point.y s)) + 1)
  /\ (forall s : Point, edgeSamples s s = [(Point.x s, Point.y s)])
  /\ collectBoundaryPoints [pt 0 0; pt 3 0] = Some [(0, 0); (1, 0); (2, 0); (3, 0)]
  /\ collectBoundaryPoints [pt 0 0; pt 2 2] = Some [(0, 0); (1, 1); (2, 2)].
Proof.
  split; [|split; [|split; [|split]]].
  - intros vs. destruct (collectBoundaryPoints_correct vs) as (r & E & Hs & Hin).
    exists r. repeat split; try assumption.
    + intros Hp. apply Hin in Hp as (i & Hi & Hp). exists i.
      split; [assumption | now apply edgeSamples_In].
    + intros (i & Hi & Hp). apply Hin. exists i.
      split; [assumption | now apply edgeSamples_In].
    + intros Hp. apply Hin in Hp as (i & Hi & Hp). exists i.
      split; [assumption | now apply sampled_onEdge].
    + intros (i & Hi & Hp). apply Hin. exists i.
      split; [assumption | now apply sampled_onEdge].
  - intros s e. split; [apply edgeSamples_NoDup|].
    unfold edgeSamples. rewrite length_map, length_seq.
    pose proof (edge_split s e) as (_ & _ & Hg). cbv zeta in Hg.
    fold (edgeSteps s e). lia.
  - intros s. unfold edgeSamples, edgeSteps, edgeSample.
    rewrite !Z.sub_diag. simpl. now rewrite !Z.add_0_r.
  - vm_compute. reflexivity.
  - vm_compute. reflexivity.
Qed.

(** ** The unit triangle decomposer *)

Section Decomposer.

Lemma zrange_S lo cnt : zrange lo (S cnt) = zrange lo cnt ++ [lo + Z.of_nat cnt].
Proof. unfold zrange. now rewrite seq_S, map_app. Qed.

Lemma zrange_In lo cnt k : In k (zrange lo cnt) <-> lo <= k < lo + Z.of_nat cnt.
Proof.
  unfold zrange. rewrite in_map_iff. split.
  - intros (m & <- & Hm). apply in_seq in Hm. lia.
  - intros Hk. exists (Z.to_nat (k - lo)). split; [lia | apply in_seq; lia].
Qed.

Lemma zrange_NoDup lo cnt : NoDup (zrange lo cnt).
Proof.
  unfold zrange. apply Injective_map_NoDup; [|apply seq_NoDup].
  intros a b. lia.
Qed.

Lemma for_count_ext {St : Type} (f g : Z -> St -> St) cnt :
  (forall i st, f i st = g i st) ->
  forall lo st, for_count cnt lo f st = for_count cnt lo g st.
Proof.
  intros Hfg. induction cnt as [|cnt IH]; intros lo st; simpl; [reflexivity|].
  now rewrite Hfg, IH.
Qed.

Lemma for_count_push {A : Type} (f : Z -> list A) cnt :
  forall lo acc,
    for_count cnt lo (fun i all => all ++ f i) acc = acc ++ flat_map f (zrange lo cnt).
Proof.
  induction cnt as [|cnt IH]; intros lo acc.
  - simpl. now rewrite app_nil_r.
  - cbn [for_count]. rewrite IH. unfold zrange. cbn [seq map flat_map].
    rewrite <- seq_shift, map_map, <- app_assoc, Z.add_0_r.
    do 3 f_equal. apply map_ext. intros k. lia.
Qed.

Lemma decompose_cells outer :
  decompose outer
  = cells (Point.at_index outer 0)
          (Point.x (Point.at_index outer 1) - Point.x (Point.at_index outer 0)).
Proof.
  unfold decompose, cells, row, for_lt. cbv zeta.
  set (v0 := Point.at_index outer 0).
  set (n := Point.x (Point.at_index outer 1) - Point.x v0).
  rewrite !Z.sub_0_r.
  rewrite (for_count_ext _ (fun i all => all ++ row v0 n i)).
  - now rewrite for_count_push.
  - intros i st. unfold row. rewrite Z.sub_0_r.
    rewrite (for_count_ext _ (fun j all => all ++ cell v0 n i j)).
    + now rewrite for_count_push.
    + intros j all. unfold cell. destruct (i + j <? n - 1).
      * now rewrite <- app_assoc.
      * reflexivity.
Qed.

Lemma row_prefix_length v0 n i (m : nat) :
  Z.of_nat m < n - i ->
  Z.of_nat (List.length (flat_map (cell v0 n i) (zrange 0 m))) = 2 * Z.of_nat m.
Proof.
  induction m as [|m IH]; intros Hm; [reflexivity|].
  rewrite zrange_S, flat_map_app, length_app, Nat2Z.inj_add, IH by lia.
  cbn [flat_map]. rewrite app_nil_r. unfold cell.
  destruct (Z.ltb_spec (i + (0 + Z.of_nat m)) (n - 1)); cbn [List.length]; lia.
Qed.

Lemma row_length v0 n i :
  0 <= i < n -> Z.of_nat (List.length (row v0 n i)) = 2 * (n - i) - 1.
Proof.
  intros Hi. unfold row.
  destruct (Z.to_nat (n - i)) as [|m] eqn:E; [lia|].
  rewrite zrange_S, flat_map_app, length_app, Nat2Z.inj_add, row_prefix_length by lia.
  cbn [flat_map]. rewrite app_nil_r. unfold cell.
  destruct (Z.ltb_spec (i + (0 + Z.of_nat m)) (n - 1)); cbn [List.length]; lia.
Qed.

Lemma rows_prefix_length v0 n (k : nat) :
  Z.of_nat k <= n ->
  Z.of_nat (List.length (flat_map (row v0 n) (zrange 0 k)))
  = 2 * n * Z.of_nat k - Z.of_nat k * Z.of_nat k.
Proof.
  induction k as [|k IH]; intros Hk; [simpl; lia|].
  rewrite zrange_S, flat_map_app, length_app, Nat2Z.inj_add, IH by lia.
  cbn [flat_map]. rewrite app_nil_r, row_length by lia. lia.
Qed.

Lemma cells_length v0 n : 0 <= n -> Z.of_nat (List.length (cells v0 n)) = n * n.
Proof.
  intros Hn. unfold cells. rewrite rows_prefix_length by lia.
  rewrite Z2Nat.id by lia. lia.
Qed.

Lemma cells_In v0 n t :
  In t (cells v0 n) <->
  exists i j, 0 <= i < n /\ 0 <= j < n - i
              /\ (t = lowerTriangle v0 i j
                  \/ (i + j < n - 1 /\ t = upperTriangle v0 i j)).
Proof.
  unfold cells, row. rewrite in_flat_map. split.
  - intros (i & Hi & Ht). apply zrange_In in Hi.
    apply in_flat_map in Ht as (j & Hj & Ht). apply zrange_In in Hj.
    exists i, j. split; [lia|]. split; [lia|].
    unfold cell in Ht. destruct Ht as [<- | Ht]; [now left|].
    destruct (Z.ltb_spec (i + j) (n - 1)); [|contradiction].
    destruct Ht as [<- | []]. right. now split.
  - intros (i & j & Hi & Hj & Ht). exists i. split; [apply zrange_In; lia|].
    apply in_flat_map. exists j. split; [apply zrange_In; lia|].
    unfold cell. destruct Ht as [-> | [Hlt ->]]; [now left|].
    right. destruct (Z.ltb_spec (i + j) (n - 1)); [now left | lia].
Qed.

(** A concatenation of blocks has no repetition when the blocks have none
    and every element remembers, through [tag], which block it is from. *)
Lemma flat_map_NoDup {A B : Type} (f : A -> list B) (tag : B -> A) l :
  NoDup l ->
  (forall a, In a l -> NoDup (f a)) ->
  (forall a b, In b (f a) -> tag b = a) ->
  NoDup (flat_map f l).
Proof.
  intros Hl Hf Htag. induction Hl as [|a l Hnotin Hl IH]; simpl; [constructor|].
  apply NoDup_app.
  - apply Hf. now left.
  - apply IH. intros a' Ha'. apply Hf. now right.
  - intros b Hb Hb'. apply in_flat_map in Hb' as (a' & Ha' & Hb').
    apply Htag in Hb, Hb'. congruence.
Qed.

Lemma cells_NoDup v0 n : NoDup (cells v0 n).
Proof.
  unfold cells.
  apply flat_map_NoDup with (tag := fun t => GridPos.i (Triangle.gridPos t)).
  - apply zrange_NoDup.
  - intros i _. unfold row.
    apply flat_map_NoDup with (tag := fun t => GridPos.j (Triangle.gridPos t)).
    + apply zrange_NoDup.
    + intros j _. unfold cell. destruct (i + j <? n - 1).
      * constructor; [intros [H | []]; discriminate H|].
        constructor; [intros [] | constructor].
      * constructor; [intros [] | constructor].
    + intros j t Ht. unfold cell in Ht. destruct Ht as [<- | Ht]; [reflexivity|].
      destruct (i + j <? n - 1); [destruct Ht as [<- | []]; reflexivity | destruct Ht].
  - intros i t Ht. unfold row in Ht. apply in_flat_map in Ht as (j & _ & Ht).
    unfold cell in Ht. destruct Ht as [<- | Ht]; [reflexivity|].
    destruct (i + j <? n - 1); [destruct Ht as [<- | []]; reflexivity | destruct Ht].
Qed.

Lemma area2_triangle a b c :
  area2 [a; b; c]
  = (Point.x a * Point.y b - Point.x b * Point.y a)
    + (Point.x b * Point.y c - Point.x c * Point.y b)
    + (Point.x c * Point.y a - Point.x a * Point.y c).
Proof.
  reflexivity.
Qed.

Lemma lower_area v0 i j : (triangleArea (lowerTriangle v0 i j) == 1 # 2)%Q.
Proof.
  unfold triangleArea, polygonAreaValue, lowerTriangle. cbn [Triangle.vertices].
  cbn [List.length Nat.ltb Nat.leb].
  rewrite area2_triangle. cbn [Point.x Point.y].
  match goal with |- (inject_Z ?z / 2 == _)%Q => replace z with 1 by ring end.
  reflexivity.
Qed.

Lemma upper_area v0 i j : (triangleArea (upperTriangle v0 i j) == 1 # 2)%Q.
Proof.
  unfold triangleArea, polygonAreaValue, upperTriangle. cbn [Triangle.vertices].
  cbn [List.length Nat.ltb Nat.leb].
  rewrite area2_triangle. cbn [Point.x Point.y].
  match goal with |- (inject_Z ?z / 2 == _)%Q => replace z with 1 by ring end.
  reflexivity.
Qed.

Lemma totalArea_halves l :
  (forall t, In t l -> (triangleArea t == 1 # 2)%Q) ->
  (totalArea l == inject_Z (Z.of_nat (List.length l)) / 2)%Q.
Proof.
  unfold totalArea. induction l as [|t l IH]; intros H.
  - reflexivity.
  - cbn [map fold_right List.length].
    rewrite IH by (intros; apply H; now right).
    rewrite (H t (or_introl eq_refl)).
    rewrite Nat2Z.inj_succ, <- Z.add_1_r, inject_Z_plus. field.
Qed.

End Decomposer.

(** C2.  For every positive leg length [n] (read off the outer triangle as
    the decomposer does) the decomposer emits exactly [n * n] triangles,
    without repetition: the lower triangle of every grid cell [(i, j)] with
    [0 <= i < n] and [0 <= j < n - i], and the upper triangle of that cell
    exactly when [i + j < n - 1]; the areas of the emitted triangles sum to
    [n * n / 2] as rational numbers. *)
Theorem decompose_spec :
  forall outer : list Point,
    let v0 := Point.at_index outer 0 in
    let n := Point.x (Point.at_index outer 1) - Point.x v0 in
    0 < n ->
    Z.of_nat (List.length (decompose outer)) = n * n
    /\ NoDup (decompose outer)
    /\ (forall t : Triangle,
          In t (decompose outer) <->
          exists i j,
            0 <= i < n /\ 0 <= j < n - i
            /\ (t = lowerTriangle v0 i j
                \/ (i + j < n - 1 /\ t = upperTriangle v0 i j)))
    /\ (totalArea (decompose outer) == inject_Z (n * n) / 2)%Q.
Proof.
  intros outer v0 n Hn. rewrite decompose_cells. fold v0. fold n.
  split; [apply cells_length; lia|].
  split; [apply cells_NoDup|].
  split; [apply cells_In|].
  rewrite totalArea_halves.
  - now rewrite cells_length by lia.
  - intros t Ht. apply cells_In in Ht as (i & j & _ & _ & [-> | [_ ->]]).
    + apply lower_area.
    + apply upper_area.
Qed.

Lemma decompose_spec_witness :
  0 < 4
  /\ Z.of_nat (List.length (decompose Constants.inductionOuterTriangle)) = 4 * 4
  /\ (totalArea (decompose Constants.inductionOuterTriangle) == inject_Z (4 * 4) / 2)%Q.
Proof.
  split; [lia|].
  destruct (decompose_spec Constants.inductionOuterTriangle
                           ltac:(vm_compute; reflexivity)) as (H1 & _ & _ & H2).
  split; [exact H1 | exact H2].
Defined.

(** ** The adjacency sequencer *)

Section Sequencer.

Lemma placementLoop_fuel all fuel :
  forall s r fuel',
    placementLoop fuel all s = Some r -> (fuel <= fuel')%nat ->
    placementLoop fuel' all s = Some r.
Proof.
  induction fuel as [|fuel IH]; intros s r fuel' H Hle.
  - simpl in H. destruct fuel'; simpl;
      destruct (List.length (ordered s) <? List.length all)%nat; congruence.
  - destruct fuel' as [|fuel']; [lia|]. simpl in *.
    destruct (List.length (ordered s) <? List.length all)%nat; [|exact H].
    apply IH; [exact H | lia].
Qed.

Lemma sequence_fuel all fuel fuel' r :
  sequence fuel all = Some r -> (fuel <= fuel')%nat -> sequence fuel' all = Some r.
Proof.
  unfold sequence. intros H Hle.
  destruct (placementLoop fuel all (seed all)) as [s|] eqn:E; [|discriminate].
  now rewrite (placementLoop_fuel _ _ _ _ _ E Hle).
Qed.

Lemma listEqb_eq {A : Type} (eqb : A -> A -> bool) :
  (forall a b, eqb a b = true -> a = b) ->
  forall l1 l2, listEqb eqb l1 l2 = true -> l1 = l2.
Proof.
  intros Heq. induction l1 as [|a l1 IH]; intros [|b l2]; simpl; try congruence.
  intros H. apply andb_prop in H as [H1 H2]. f_equal; auto.
Qed.

Lemma strike_perm {A : Type} (eqb : A -> A -> bool) :
  (forall a b, eqb a b = true -> a = b) ->
  forall a l l', strike eqb a l = Some l' -> Permutation l (a :: l').
Proof.
  intros Heq a. induction l as [|b l IH]; intros l' H; simpl in H; [discriminate|].
  destruct (eqb a b) eqn:E.
  - apply Heq in E. injection H as <-. now subst.
  - destruct (strike eqb a l) as [l0|]; [|discriminate]. injection H as <-.
    rewrite (IH l0 eq_refl). apply perm_swap.
Qed.

Lemma permb_perm {A : Type} (eqb : A -> A -> bool) :
  (forall a b, eqb a b = true -> a = b) ->
  forall l1 l2, permb eqb l1 l2 = true -> Permutation l1 l2.
Proof.
  intros Heq. induction l1 as [|a l1 IH]; intros l2 H; simpl in H.
  - destruct l2; [constructor | discriminate].
  - destruct (strike eqb a l2) as [l2'|] eqn:E; [|discriminate].
    rewrite (strike_perm eqb Heq _ _ _ E). constructor. now apply IH.
Qed.

Lemma pointsEqb_eq (l1 l2 : list Point) : listEqb Point.eqb l1 l2 = true -> l1 = l2.
Proof. apply listEqb_eq. intros a b. apply Point_eqb_eq. Qed.

Lemma sequence_cached : sequence 15 allTriangles = Some cachedTriangles.
Proof. vm_compute. reflexivity. Qed.

Lemma build_enough fuel :
  (15 <= fuel)%nat ->
  buildInductionTriangles fuel initialState = Some (mkState cachedTriangles).
Proof.
  intros H. unfold buildInductionTriangles. fold allTriangles.
  now rewrite (sequence_fuel _ _ _ _ sequence_cached H).
Qed.

Lemma build_cached fuel st :
  buildInductionTriangles fuel initialState = Some st ->
  st = mkState cachedTriangles.
Proof.
  intros H. destruct (Nat.le_ge_cases 15 fuel) as [Hle|Hge].
  - rewrite (build_enough fuel Hle) in H. congruence.
  - unfold buildInductionTriangles in H. fold allTriangles in H.
    destruct (sequence fuel allTriangles) as [l|] eqn:E; [|discriminate].
    injection H as <-.
    pose proof (sequence_fuel _ _ _ _ E Hge) as E'.
    rewrite sequence_cached in E'. congruence.
Qed.

Lemma iterates_cover s :
  loopHead allTriangles s ->
  exists m, (m <= 15)%nat
            /\ s = Nat.iter m (iteration allTriangles) (seed allTriangles).
Proof.
  induction 1 as [|s _ (m & Hm & ->) Hguard].
  - exists 0%nat. split; [lia | reflexivity].
  - exists (S m). split; [|reflexivity].
    destruct (Nat.eq_dec m 15) as [-> | Hne]; [|lia].
    exfalso. apply Nat.ltb_lt in Hguard. vm_compute in Hguard. discriminate.
Qed.

Lemma iterates_adjacent m :
  (m <= 15)%nat ->
  adjacentFound allTriangles
                (Nat.iter m (iteration allTriangles) (seed allTriangles)) = true.
Proof.
  intros Hm.
  do 16 (destruct m as [|m]; [vm_compute; reflexivity|]). lia.
Qed.

Lemma placementLoop_heads all fuel :
  forall s r, loopHead all s -> placementLoop fuel all s = Some r -> loopHead all r.
Proof.
  induction fuel as [|fuel IH]; intros s r Hs H; simpl in H;
    destruct (Nat.ltb_spec (List.length (ordered s)) (List.length all)) as [Hlt|Hge];
    try congruence.
  apply (IH (iteration all s)); [now constructor | exact H].
Qed.

End Sequencer.

(** C1.  For the fixed outer triangle (leg length 4) the sequencer returns,
    whenever it is given at least 15 iterations, one and the same sequence:
    a permutation of the 16 triangles of the decomposer in which every
    triangle but the first has at least two vertices among the vertices of
    the triangles before it. *)
Theorem sequencer_adjacent_permutation :
  exists ordered : list (list Point),
    (forall fuel, (15 <= fuel)%nat ->
                  buildInductionTriangles fuel initialState = Some (mkState ordered))
    /\ List.length (decompose Constants.inductionOuterTriangle) = 16%nat
    /\ Permutation (map Triangle.vertices (decompose Constants.inductionOuterTriangle))
                   ordered
    /\ forall k, (0 < k < 16)%nat -> (2 <= sharedWithPrefix ordered k)%nat.
Proof.
  exists cachedTriangles. split; [exact build_enough|].
  split; [vm_compute; reflexivity|]. split.
  - apply (permb_perm (listEqb Point.eqb) pointsEqb_eq). vm_compute. reflexivity.
  - intros k Hk.
    assert (H : forallb (fun k => (2 <=? sharedWithPrefix cachedTriangles k)%nat)
                        (seq 1 15) = true) by (vm_compute; reflexivity).
    rewrite forallb_forall in H. apply Nat.leb_le, H, in_seq. lia.
Qed.

Lemma sequencer_adjacent_permutation_witness :
  exists ordered : list (list Point),
    buildInductionTriangles 15 initialState = Some (mkState ordered)
    /\ (2 <= sharedWithPrefix ordered 1)%nat.
Proof.
  destruct sequencer_adjacent_permutation as (o & H1 & _ & _ & H4).
  exists o. split; [apply H1; lia | apply H4; lia].
Defined.

(** C3.  For the fixed outer triangle (leg length 4), in every state in which
    the placement loop runs its body, the adjacency scan succeeds: it finds an
    unplaced triangle that shares exactly two vertices with a triangle placed
    before, and the iteration places that triangle; the fallback scan is not
    reached. *)
Theorem fallback_never_taken :
  forall s : Seq,
    loopHead (decompose Constants.inductionOuterTriangle) s ->
    (List.length (ordered s)
     < List.length (decompose Constants.inductionOuterTriangle))%nat ->
    exists (tri : Triangle) (placed : list Point),
      adjacentCandidate (decompose Constants.inductionOuterTriangle) s = Some tri
      /\ iteration (decompose Constants.inductionOuterTriangle) s = place tri s
      /\ StrSet.has (getKey (Triangle.vertices tri)) (used s) = false
      /\ In placed (ordered s)
      /\ sharesEdge placed (Triangle.vertices tri) = true
      /\ sharedVertices placed (Triangle.vertices tri) = 2%nat.
Proof.
  fold allTriangles. intros s Hs Hguard.
  destruct (iterates_cover s Hs) as (m & Hm & ->).
  pose proof (iterates_adjacent m Hm) as H. unfold adjacentFound in H.
  apply Nat.ltb_lt in Hguard. rewrite Hguard in H.
  set (st := Nat.iter m (iteration allTriangles) (seed allTriangles)) in *.
  unfold iteration.
  destruct (adjacentCandidate allTriangles st) as [tri|]; [|discriminate].
  apply andb_prop in H as [Hnew Hex]. apply negb_true_iff in Hnew.
  apply existsb_exists in Hex as (placed & Hin & Hp).
  apply andb_prop in Hp as [Hshare Hcount]. apply Nat.eqb_eq in Hcount.
  exists tri, placed. repeat split; assumption.
Qed.

Lemma fallback_never_taken_witness :
  exists (tri : Triangle) (placed : list Point),
    adjacentCandidate (decompose Constants.inductionOuterTriangle)
                      (seed (decompose Constants.inductionOuterTriangle)) = Some tri
    /\ In placed (ordered (seed (decompose Constants.inductionOuterTriangle)))
    /\ sharedVertices placed (Triangle.vertices tri) = 2%nat.
Proof.
  destruct (fallback_never_taken
              (seed (decompose Constants.inductionOuterTriangle))
              (loopHead_seed _)
              ltac:(vm_compute; lia))
    as (tri & placed & H1 & _ & _ & H4 & _ & H6).
  exists tri, placed. repeat split; assumption.
Defined.

(** ** The accumulated region hull builder *)

Section Hull.

Lemma fold_add_keys (l : list Point) :
  forall s, fold_left (fun s v => StrSet.add (Point.key v) s) l s
            = addAll (map Point.key l) s.
Proof. induction l as [|a l IH]; intros s; simpl; [reflexivity | apply IH]. Qed.

(** The points the hull walk ranges over are pairwise distinct, so comparing
    two of them by identity is comparing their coordinates. *)
Lemma prefixPoints_NoDup st stepIndex : NoDup (prefixPoints st stepIndex).
Proof.
  unfold prefixPoints, for_lt, StrSet.to_array.
  set (body := fun (i : Z) (pointSet : StrSet.t) =>
                 fold_left (fun s v => StrSet.add (Point.key v) s)
                           (nth (Z.to_nat i) (inductionTriangles st) []) pointSet).
  pose (P := fun (_ : Z) (s : StrSet.t) =>
               NoDup s /\ forall k, In k s -> exists p, k = Point.key p).
  assert (H : P (0 + Z.of_nat (Z.to_nat (stepIndex - 0)))
                (for_count (Z.to_nat (stepIndex - 0)) 0 body StrSet.empty)).
  { apply for_count_inv.
    - split; [constructor | intros k []].
    - intros i s _ [Hnd Hk]. unfold body. rewrite fold_add_keys. split.
      + now apply addAll_NoDup.
      + intros k Hin. apply addAll_In in Hin as [Hin | Hin]; [now apply Hk|].
        apply in_map_iff in Hin as (p & <- & _). now exists p. }
  destruct H as [Hnd Hk]. revert Hnd Hk.
  generalize (for_count (Z.to_nat (stepIndex - 0)) 0 body StrSet.empty).
  intros s Hnd. induction Hnd as [|k s Hnotin Hnd IH]; intros Hk; simpl; constructor.
  - intros Hin. apply in_map_iff in Hin as (k' & Hk' & Hin).
    destruct (Hk k (or_introl eq_refl)) as (p & ->).
    destruct (Hk k' (or_intror Hin)) as (p' & ->).
    rewrite !parse_key in Hk'. subst p'. contradiction.
  - apply IH. intros k' Hk'. apply Hk. now right.
Qed.

(** The walk stops by its own test before its budget is used up. *)
Lemma hullWalk_budget points start budget :
  forall hull current budget',
    (List.length points <= budget + List.length hull)%nat ->
    (budget <= budget')%nat ->
    hullWalk budget points start hull current
    = hullWalk budget' points start hull current.
Proof.
  induction budget as [|budget IH]; intros hull current budget' Hlen Hle.
  - destruct budget' as [|budget']; [reflexivity|]. cbn [hullWalk].
    destruct (Nat.ltb_spec (List.length (hull ++ [current])) (List.length points + 1))
      as [Hlt|Hge].
    + rewrite length_app in Hlt. simpl in Hlt. lia.
    + now rewrite andb_false_r.
  - destruct budget' as [|budget']; [lia|]. cbn [hullWalk].
    destruct (negb (Point.eqb (nextHullPoint points current) start)
              && (List.length (hull ++ [current]) <? List.length points + 1)%nat);
      [|reflexivity].
    apply IH; [rewrite length_app; simpl; lia | lia].
Qed.

Lemma distinctb_NoDup l : distinctb l = true -> NoDup l.
Proof.
  induction l as [|a l IH]; simpl; intros H; constructor.
  - apply andb_prop in H as [H _]. apply negb_true_iff in H.
    intros Hin. assert (E : existsb (Point.eqb a) l = true).
    { apply existsb_exists. exists a. split; [exact Hin | now apply Point_eqb_eq]. }
    congruence.
  - apply IH. now apply andb_prop in H as [_ H].
Qed.

Lemma convexCCWb_convex poly : convexCCWb poly = true -> convexCCW poly.
Proof.
  unfold convexCCWb, convexCCW. rewrite forallb_forall. intros H i Hi.
  apply Z.leb_le, H, in_seq. lia.
Qed.

Lemma fromPrefixb_fromPrefix tris k v : fromPrefixb tris k v = true -> fromPrefix tris k v.
Proof.
  unfold fromPrefixb, fromPrefix. rewrite existsb_exists.
  intros (tri & Hin & Hv). exists tri. split; [exact Hin|].
  apply existsb_exists in Hv as (v' & Hv' & E). apply Point_eqb_eq in E. now subst.
Qed.

Lemma hullCheck_cached :
  forallb (hullCheck cachedTriangles) (seq 1 16) = true.
Proof. vm_compute. reflexivity. Qed.

End Hull.

(** C4.  [getAccumulatedPolygon] returns the empty list for every step index
    that is not positive, and the vertex list of the fixed outer triangle
    itself for every positive step index that is at least the number of
    cached triangles; on the sequence cached by [buildInductionTriangles],
    which has 16 triangles, that is: the empty list at 0 and the outer
    triangle at every index from the triangle count on. *)
Theorem getAccumulatedPolygon_ends :
  (forall (st : State) (k : Z), k <= 0 -> getAccumulatedPolygon st k = [])
  /\ (forall (st : State) (k : Z),
        0 < k -> Z.of_nat (List.length (inductionTriangles st)) <= k ->
        getAccumulatedPolygon st k = Constants.inductionOuterTriangle)
  /\ (forall (fuel : nat) (st : State),
        buildInductionTriangles fuel initialState = Some st ->
        getAccumulatedPolygon st 0 = []
        /\ forall k : Z,
            Z.of_nat (List.length (inductionTriangles st)) <= k ->
            getAccumulatedPolygon st k = Constants.inductionOuterTriangle)
  /\ List.length Constants.inductionOuterTriangle = 3%nat.
Proof.
  assert (H0 : forall st k, k <= 0 -> getAccumulatedPolygon st k = []).
  { intros st k Hk. unfold getAccumulatedPolygon.
    destruct (Z.leb_spec k 0); [reflexivity | lia]. }
  assert (H1 : forall st k,
             0 < k -> Z.of_nat (List.length (inductionTriangles st)) <= k ->
             getAccumulatedPolygon st k = Constants.inductionOuterTriangle).
  { intros st k Hk HT. unfold getAccumulatedPolygon.
    destruct (Z.leb_spec k 0); [lia|].
    destruct (Z.geb_spec k (Z.of_nat (List.length (inductionTriangles st))));
      [reflexivity | lia]. }
  split; [exact H0|]. split; [exact H1|]. split; [|reflexivity].
  intros fuel st H. split; [apply H0; lia|].
  intros k Hk. apply build_cached in H. subst st. apply H1; [|exact Hk].
  change (List.length (inductionTriangles (mkState cachedTriangles))) with 16%nat in Hk.
  lia.
Qed.

Lemma getAccumulatedPolygon_ends_witness :
  buildInductionTriangles 15 initialState = Some (mkState cachedTriangles)
  /\ getAccumulatedPolygon (mkState cachedTriangles) 0 = []
  /\ getAccumulatedPolygon (mkState cachedTriangles) 16 = Constants.inductionOuterTriangle.
Proof.
  assert (E : buildInductionTriangles 15 initialState = Some (mkState cachedTriangles))
    by (vm_compute; reflexivity).
  destruct (proj1 (proj2 (proj2 getAccumulatedPolygon_ends)) 15%nat _ E) as [H0 HT].
  split; [exact E|]. split; [exact H0|]. apply HT. vm_compute. discriminate.
Defined.

(** C5.  On the sequence cached by [buildInductionTriangles], for every
    prefix length [k] from 1 to the number of triangles, every vertex of
    [getAccumulatedPolygon k] is a vertex of one of the first [k] triangles,
    the orientation of every three consecutive vertices (wrapping around) is
    non-negative, and no vertex is repeated. *)
Theorem getAccumulatedPolygon_convex :
  forall (fuel : nat) (st : State),
    buildInductionTriangles fuel initialState = Some st ->
    forall k : Z,
      0 < k <= Z.of_nat (List.length (inductionTriangles st)) ->
      (forall v, In v (getAccumulatedPolygon st k) ->
                 fromPrefix (inductionTriangles st) (Z.to_nat k) v)
      /\ convexCCW (getAccumulatedPolygon st k)
      /\ NoDup (getAccumulatedPolygon st k).
Proof.
  intros fuel st H k Hk. apply build_cached in H. subst st.
  change (List.length (inductionTriangles (mkState cachedTriangles))) with 16%nat in Hk.
  pose proof hullCheck_cached as Hc. rewrite forallb_forall in Hc.
  specialize (Hc (Z.to_nat k) ltac:(apply in_seq; lia)).
  unfold hullCheck in Hc. rewrite Z2Nat.id in Hc by lia.
  apply andb_prop in Hc as [Hc Hd]. apply andb_prop in Hc as [Hv Hc].
  cbn [inductionTriangles]. split; [|split].
  - rewrite forallb_forall in Hv. intros v Hin.
    now apply fromPrefixb_fromPrefix, Hv.
  - now apply convexCCWb_convex.
  - now apply distinctb_NoDup.
Qed.

Lemma getAccumulatedPolygon_convex_witness :
  buildInductionTriangles 15 initialState = Some (mkState cachedTriangles)
  /\ 0 < 5 <= Z.of_nat (List.length (inductionTriangles (mkState cachedTriangles)))
  /\ convexCCW (getAccumulatedPolygon (mkState cachedTriangles) 5)
  /\ NoDup (getAccumulatedPolygon (mkState cachedTriangles) 5).
Proof.
  assert (E : buildInductionTriangles 15 initialState = Some (mkState cachedTriangles))
    by (vm_compute; reflexivity).
  assert (Hk : 0 < 5 <= Z.of_nat (List.length (inductionTriangles (mkState cachedTriangles))))
    by (vm_compute; split; [reflexivity | discriminate]).
  destruct (getAccumulatedPolygon_convex 15%nat _ E 5 Hk) as (_ & Hc & Hd).
  repeat split; try assumption; apply Hk.
Defined.

(** C6.  On the sequence cached by [buildInductionTriangles] the first
    triangle is the lower triangle of grid cell (0,0) and the second, the one
    introduced at step 1, is the upper triangle of that cell;
    [getSharedEdgeForStep 1] is not [null]: it returns two distinct points that
    are vertices of both triangles, and the accumulated polygon of step 1 has
    the edge between them, in one direction or the other. *)
Theorem getSharedEdgeForStep_first :
  forall (fuel : nat) (st : State),
    buildInductionTriangles fuel initialState = Some st ->
    let v0 := Point.at_index Constants.inductionOuterTriangle 0 in
    let t0 := Triangle.vertices (lowerTriangle v0 0 0) in
    let t1 := Triangle.vertices (upperTriangle v0 0 0) in
    nth_error (inductionTriangles st) 0 = Some t0
    /\ nth_error (inductionTriangles st) 1 = Some t1
    /\ exists start end_ : Point,
        getSharedEdgeForStep st 1 = Some (start, end_)
        /\ start <> end_
        /\ In start t0 /\ In end_ t0 /\ In start t1 /\ In end_ t1
        /\ hullHasEdge (getAccumulatedPolygon st 1) start end_ = true.
Proof.
  intros fuel st H v0 t0 t1. apply build_cached in H. subst st.
  split; [reflexivity|]. split; [reflexivity|].
  exists (pt (-2) (-1)), (pt (-1) (-2)).
  split; [vm_compute; reflexivity|].
  split; [discriminate|].
  subst t0 t1 v0. cbn. intuition.
Qed.

Lemma getSharedEdgeForStep_first_witness :
  buildInductionTriangles 15 initialState = Some (mkState cachedTriangles)
  /\ exists start end_ : Point,
      getSharedEdgeForStep (mkState cachedTriangles) 1 = Some (start, end_).
Proof.
  assert (E : buildInductionTriangles 15 initialState = Some (mkState cachedTriangles))
    by (vm_compute; reflexivity).
  split; [exact E|].
  destruct (getSharedEdgeForStep_first 15%nat _ E) as (_ & _ & s & e & Hs & _).
  exists s, e. exact Hs.
Defined.

(** ** More on the geometric primitives *)

Section Primitives.

Lemma onSegment_swap a b c : onSegment a b c = onSegment c b a.
Proof. unfold onSegment. now rewrite (Z.min_comm (Point.x a)), (Z.max_comm (Point.x a)),
         (Z.min_comm (Point.y a)), (Z.max_comm (Point.y a)). Qed.

Lemma orientation_flip a b c : orientation b a c = - orientation a b c.
Proof. unfold orientation. ring. Qed.

Lemma onSegment_start a b : onSegment a a b = true.
Proof.
  unfold onSegment. rewrite !andb_true_iff, !Z.geb_le, !Z.leb_le. lia.
Qed.

Lemma onSegment_end a b : onSegment a b b = true.
Proof.
  unfold onSegment. rewrite !andb_true_iff, !Z.geb_le, !Z.leb_le. lia.
Qed.

Lemma segmentsIntersect_flip p1 p2 p3 p4 :
  segmentsIntersect p2 p1 p3 p4 = segmentsIntersect p1 p2 p3 p4.
Proof.
  unfold segmentsIntersect. cbv zeta.
  rewrite (orientation_flip p1 p2 p3), (orientation_flip p1 p2 p4).
  rewrite (onSegment_swap p2 p3 p1), (onSegment_swap p2 p4 p1).
  replace (- orientation p1 p2 p3 =? 0) with (orientation p1 p2 p3 =? 0)
    by (destruct (Z.eqb_spec (orientation p1 p2 p3) 0),
                 (Z.eqb_spec (- orientation p1 p2 p3) 0); lia).
  replace (- orientation p1 p2 p4 =? 0) with (orientation p1 p2 p4 =? 0)
    by (destruct (Z.eqb_spec (orientation p1 p2 p4) 0),
                 (Z.eqb_spec (- orientation p1 p2 p4) 0); lia).
  replace (- orientation p1 p2 p3 * - orientation p1 p2 p4)
    with (orientation p1 p2 p3 * orientation p1 p2 p4) by ring.
  rewrite (Z.mul_comm (orientation p3 p4 p2)).
  destruct ((orientation p1 p2 p3 =? 0) && onSegment p1 p3 p2),
           ((orientation p1 p2 p4 =? 0) && onSegment p1 p4 p2),
           ((orientation p3 p4 p1 =? 0) && onSegment p3 p1 p4),
           ((orientation p3 p4 p2 =? 0) && onSegment p3 p2 p4); reflexivity.
Qed.

End Primitives.

(** X1.  [gcd] always leaves its loop, and what it returns is the greatest
    common divisor of its arguments: a non-negative number that divides both
    and is divided by every common divisor.  It does not depend on the order
    or the signs of the arguments, and [gcd(a, 0)] is [|a|]. *)
Theorem gcd_greatest_common_divisor :
  forall a b : Z,
    exists g : Z,
      gcd a b = Some g
      /\ 0 <= g /\ (g | a) /\ (g | b)
      /\ (forall d : Z, (d | a) -> (d | b) -> (d | g))
      /\ gcd b a = Some g
      /\ gcd (- a) b = Some g
      /\ gcd a 0 = Some (Z.abs a).
Proof.
  intros a b. exists (Z.gcd a b). rewrite !gcd_loop_terminates.
  split; [reflexivity|]. split; [apply Z.gcd_nonneg|].
  split; [apply Z.gcd_divide_l|]. split; [apply Z.gcd_divide_r|].
  split; [intros d; apply Z.gcd_greatest|].
  split; [now rewrite Z.gcd_comm|].
  split; [now rewrite Z.gcd_opp_l|].
  now rewrite Z.gcd_0_r.
Qed.

(** X2.  [orientation] changes sign when two of its points are exchanged, is
    unchanged by a cyclic shift of its points and by a translation, and is
    twice the signed area [polygonAreaValue] gives for the triangle. *)
Theorem orientation_algebra :
  forall a b c : Point,
    orientation a c b = - orientation a b c
    /\ orientation b a c = - orientation a b c
    /\ orientation b c a = orientation a b c
    /\ (forall dx dy : Z,
          orientation (pt (Point.x a + dx) (Point.y a + dy))
                      (pt (Point.x b + dx) (Point.y b + dy))
                      (pt (Point.x c + dx) (Point.y c + dy))
          = orientation a b c)
    /\ (polygonAreaValue (Array [a; b; c]) == inject_Z (orientation a b c) / 2)%Q.
Proof.
  intros a b c. unfold orientation. repeat split; try ring.
  - intros dx dy. cbn [Point.x Point.y]. ring.
  - unfold polygonAreaValue. cbn [List.length Nat.ltb Nat.leb].
    rewrite area2_triangle.
    match goal with
    | |- (inject_Z ?u / 2 == inject_Z ?v / 2)%Q => replace u with v by ring
    end.
    reflexivity.
Qed.

(** X3.  [isPointOnEdge] is the conjunction of the two tests the intersection
    routine uses ([orientation] zero and [onSegment]); it does not depend on
    the direction of the edge, accepts both endpoints, and accepts a lattice
    point exactly when it is one of the [gcd + 1] points
    [start + j * (dx / gcd, dy / gcd)] of the edge. *)
Theorem isPointOnEdge_characterised :
  forall p s e : Point,
    isPointOnEdge p s e = (orientation s e p =? 0) && onSegment s p e
    /\ isPointOnEdge p e s = isPointOnEdge p s e
    /\ isPointOnEdge s s e = true
    /\ isPointOnEdge e s e = true
    /\ (isPointOnEdge p s e = true <-> In (Point.x p, Point.y p) (edgeSamples s e)).
Proof.
  assert (H1 : forall p s e,
             isPointOnEdge p s e = (orientation s e p =? 0) && onSegment s p e).
  { intros p s e. unfold isPointOnEdge, orientation, onSegment. cbv zeta.
    destruct (Z.eqb_spec ((Point.x p - Point.x s) * (Point.y e - Point.y s)
                          - (Point.y p - Point.y s) * (Point.x e - Point.x s)) 0),
             (Z.eqb_spec ((Point.x e - Point.x s) * (Point.y p - Point.y s)
                          - (Point.y e - Point.y s) * (Point.x p - Point.x s)) 0);
      cbn [negb andb]; try reflexivity; lia. }
  intros p s e. split; [apply H1|].
  split.
  { rewrite !H1, (onSegment_swap e p s). f_equal.
    unfold orientation.
    destruct (Z.eqb_spec ((Point.x s - Point.x e) * (Point.y p - Point.y e)
                          - (Point.y s - Point.y e) * (Point.x p - Point.x e)) 0),
             (Z.eqb_spec ((Point.x e - Point.x s) * (Point.y p - Point.y s)
                          - (Point.y e - Point.y s) * (Point.x p - Point.x s)) 0);
      try reflexivity; lia. }
  split.
  { rewrite H1, onSegment_start. unfold orientation.
    replace ((Point.x e - Point.x s) * (Point.y s - Point.y s)
             - (Point.y e - Point.y s) * (Point.x s - Point.x s)) with 0 by ring.
    reflexivity. }
  split.
  { rewrite H1, onSegment_end. unfold orientation.
    replace ((Point.x e - Point.x s) * (Point.y e - Point.y s)
             - (Point.y e - Point.y s) * (Point.x e - Point.x s)) with 0 by ring.
    reflexivity. }
  rewrite edgeSamples_In, (sampled_onEdge s e (Point.x p, Point.y p)).
  cbn [fst snd]. now destruct p.
Qed.

(** X4.  [segmentsIntersect] does not depend on the order of the two segments
    nor on the direction of either, and it answers true whenever the two
    segments have an endpoint in common. *)
Theorem segmentsIntersect_symmetries :
  forall p1 p2 p3 p4 : Point,
    segmentsIntersect p3 p4 p1 p2 = segmentsIntersect p1 p2 p3 p4
    /\ segmentsIntersect p2 p1 p3 p4 = segmentsIntersect p1 p2 p3 p4
    /\ segmentsIntersect p1 p2 p4 p3 = segmentsIntersect p1 p2 p3 p4
    /\ segmentsIntersect p1 p2 p1 p4 = true
    /\ segmentsIntersect p1 p2 p3 p1 = true
    /\ segmentsIntersect p1 p2 p2 p4 = true
    /\ segmentsIntersect p1 p2 p3 p2 = true.
Proof.
  intros p1 p2 p3 p4.
  assert (Hz : forall a b, orientation a b a = 0) by (intros; unfold orientation; ring).
  assert (Hs : forall a b c, segmentsIntersect a b a c = true).
  { intros a b c. unfold segmentsIntersect. cbv zeta.
    now rewrite Hz, onSegment_start. }
  assert (Hr : forall a b c d, segmentsIntersect a b d c = segmentsIntersect a b c d).
  { intros a b c d.
    rewrite (segmentsIntersect_sym a b d c), segmentsIntersect_flip.
    symmetry. apply segmentsIntersect_sym. }
  split; [symmetry; apply segmentsIntersect_sym|].
  split; [apply segmentsIntersect_flip|].
  split; [apply Hr|].
  split; [apply Hs|].
  split; [rewrite Hr; apply Hs|].
  split; [rewrite <- segmentsIntersect_flip; apply Hs|].
  rewrite Hr, <- segmentsIntersect_flip. apply Hs.
Qed.

Section Rounding.

Lemma round_nearest q :
  (inject_Z (round q) - (1 # 2) <= q)%Q /\ (q < inject_Z (round q) + (1 # 2))%Q.
Proof.
  unfold round.
  pose proof (Qfloor_le (q + (1 # 2))) as Hl.
  pose proof (Qlt_floor (q + (1 # 2))) as Hu.
  rewrite inject_Z_plus in Hu. change (inject_Z 1) with 1%Q in Hu. split; lra.
Qed.

Lemma round_integer n : round (inject_Z n) = n.
Proof.
  destruct (round_nearest (inject_Z n)) as [Hl Hu].
  assert (H1 : (inject_Z (round (inject_Z n)) < inject_Z (n + 1))%Q)
    by (rewrite inject_Z_plus; change (inject_Z 1) with 1%Q; lra).
  assert (H2 : (inject_Z (n - 1) < inject_Z (round (inject_Z n)))%Q)
    by (unfold Z.sub; rewrite inject_Z_plus, inject_Z_opp;
        change (inject_Z 1) with 1%Q; lra).
  rewrite <- Zlt_Qlt in H1, H2. lia.
Qed.

Lemma round_half n : round (inject_Z n + (1 # 2)) = n + 1.
Proof.
  unfold round.
  rewrite (Qfloor_comp _ (inject_Z (n + 1))); [apply Qfloor_Z|].
  rewrite inject_Z_plus. change (inject_Z 1) with 1%Q. ring.
Qed.

End Rounding.

(** X5.  Whatever the pointer position, [clampVertex] returns a point of the
    lattice square of half-width [latticeRange]: each coordinate is rounded
    to the nearest integer (a tie going up) and then clamped.  It leaves the
    lattice points of that square as they are, so clamping twice is clamping
    once. *)
Theorem clampVertex_range_and_fixpoints :
  (forall v : Q * Q, inLattice (clampVertex v))
  /\ (forall p : Point,
        inLattice p ->
        clampVertex (inject_Z (Point.x p), inject_Z (Point.y p)) = p)
  /\ (forall v : Q * Q,
        clampVertex (inject_Z (Point.x (clampVertex v)),
                     inject_Z (Point.y (clampVertex v))) = clampVertex v)
  /\ (forall q : Q,
        (inject_Z (round q) - (1 # 2) <= q)%Q /\ (q < inject_Z (round q) + (1 # 2))%Q)
  /\ (forall n : Z, round (inject_Z n + (1 # 2)) = n + 1).
Proof.
  assert (Hr : forall v, inLattice (clampVertex v)).
  { intros v. unfold inLattice, clampVertex, Constants.latticeRange.
    cbn [Point.x Point.y]. lia. }
  assert (Hf : forall p, inLattice p ->
                         clampVertex (inject_Z (Point.x p), inject_Z (Point.y p)) = p).
  { intros [a b]. unfold inLattice, clampVertex, Constants.latticeRange.
    cbn [Point.x Point.y fst snd]. intros H. rewrite !round_integer. f_equal; lia. }
  split; [exact Hr|]. split; [exact Hf|].
  split; [intros v; apply Hf, Hr|].
  split; [exact round_nearest | exact round_half].
Qed.

Lemma clampVertex_range_and_fixpoints_witness :
  inLattice (pt 3 (-10))
  /\ clampVertex (inject_Z 3, inject_Z (-10)) = pt 3 (-10).
Proof.
  assert (H : inLattice (pt 3 (-10))) by (vm_compute; intuition discriminate).
  split; [exact H|].
  exact (proj1 (proj2 clampVertex_range_and_fixpoints) (pt 3 (-10)) H).
Defined.

Section SharedVertices.

Lemma includes_keys (t : list Point) (p : Point) :
  includes (map Point.key t) (Point.key p) = existsb (Point.eqb p) t.
Proof.
  unfold includes. induction t as [|a t IH]; simpl; [reflexivity|].
  rewrite IH. f_equal.
  destruct (Point.eqb p a) eqn:E.
  - apply Point_eqb_eq in E. subst. apply String.eqb_refl.
  - apply String.eqb_neq. intros H. apply key_inj in H.
    apply Point_eqb_eq in H. congruence.
Qed.

Lemma shared_fold (t2 t1 : list Point) :
  forall n,
    fold_left (fun shared p => if includes (map Point.key t2) p then S shared else shared)
              (map Point.key t1) n
    = (n + List.length (filter (fun v => existsb (Point.eqb v) t2) t1))%nat.
Proof.
  induction t1 as [|a t1 IH]; intros n; simpl; [lia|].
  rewrite IH, includes_keys. destruct (existsb (Point.eqb a) t2); simpl; lia.
Qed.

Lemma sharesEdge_sharedVertices t1 t2 :
  sharesEdge t1 t2 = (sharedVertices t1 t2 =? 2)%nat.
Proof.
  unfold sharesEdge, sharedVertices. cbv zeta. now rewrite shared_fold.
Qed.

Lemma existsb_In (t : list Point) v : existsb (Point.eqb v) t = true <-> In v t.
Proof.
  rewrite existsb_exists. split.
  - intros (w & Hw & E). apply Point_eqb_eq in E. now subst.
  - intros H. exists v. split; [exact H | now apply Point_eqb_eq].
Qed.

Lemma sharedVertices_sym t1 t2 :
  NoDup t1 -> NoDup t2 -> sharedVertices t1 t2 = sharedVertices t2 t1.
Proof.
  intros H1 H2. unfold sharedVertices. apply Permutation_length.
  apply NoDup_Permutation; try now apply NoDup_filter.
  intros v. rewrite !filter_In, !existsb_In. tauto.
Qed.

End SharedVertices.

(** X6.  The string comparison in [sharesEdge] counts common vertices:
    [sharesEdge] holds exactly when two vertices of the first list occur in
    the second.  On vertex lists without repetition it is symmetric, and a
    triangle does not share an edge with itself. *)
Theorem sharesEdge_counts_common_vertices :
  (forall t1 t2 : list Point,
      sharesEdge t1 t2 = (sharedVertices t1 t2 =? 2)%nat)
  /\ (forall t1 t2 : list Point,
        NoDup t1 -> NoDup t2 -> sharesEdge t1 t2 = sharesEdge t2 t1)
  /\ (forall a b c : Point, sharesEdge [a; b; c] [a; b; c] = false).
Proof.
  split; [exact sharesEdge_sharedVertices|]. split.
  - intros t1 t2 H1 H2. rewrite !sharesEdge_sharedVertices.
    now rewrite (sharedVertices_sym t1 t2 H1 H2).
  - intros a b c. rewrite sharesEdge_sharedVertices. unfold sharedVertices.
    assert (H : filter (fun v => existsb (Point.eqb v) [a; b; c]) [a; b; c] = [a; b; c]).
    { apply forallb_filter_id. apply forallb_forall. intros v Hv. now apply existsb_In. }
    now rewrite H.
Qed.

Lemma sharesEdge_counts_common_vertices_witness :
  NoDup [pt 0 0; pt 1 0; pt 0 1] /\ NoDup [pt 1 0; pt 1 1; pt 0 1]
  /\ sharesEdge [pt 0 0; pt 1 0; pt 0 1] [pt 1 0; pt 1 1; pt 0 1]
     = sharesEdge [pt 1 0; pt 1 1; pt 0 1] [pt 0 0; pt 1 0; pt 0 1].
Proof.
  assert (H1 : NoDup [pt 0 0; pt 1 0; pt 0 1])
    by (apply distinctb_NoDup; vm_compute; reflexivity).
  assert (H2 : NoDup [pt 1 0; pt 1 1; pt 0 1])
    by (apply distinctb_NoDup; vm_compute; reflexivity).
  split; [exact H1|]. split; [exact H2|].
  exact (proj1 (proj2 sharesEdge_counts_common_vertices) _ _ H1 H2).
Defined.

(** ** The adjacency sequencer on an arbitrary list of triangles *)

Section SequencerGeneral.
Variable all : list Triangle.

Lemma place_inv s tri :
  seqInv all s -> In tri all -> StrSet.has (keyOfTri tri) (used s) = false ->
  seqInv all (place tri s)
  /\ List.length (ordered (place tri s)) = S (List.length (ordered s)).
Proof.
  intros (placed & Ho & Hu & Hnd & Hincl) Hin Hnew. split.
  - exists (placed ++ [tri]). unfold place. cbn [ordered used].
    fold (keyOfTri tri). unfold StrSet.add. rewrite Hnew.
    rewrite !map_app, Ho, Hu. cbn [map].
    split; [reflexivity|]. split; [reflexivity|]. split.
    + rewrite <- Hu. apply has_false in Hnew.
      apply NoDup_app; [exact Hnd | repeat constructor; intros [] | ].
      intros a Ha [<- | []]. contradiction.
    + intros t Ht. apply in_app_iff in Ht as [Ht | [<- | []]]; auto.
  - unfold place. cbn [ordered]. rewrite length_app. simpl. lia.
Qed.

Lemma seed_inv : seqInv all (seed all).
Proof.
  assert (H0 : seqInv all (mkSeq [] StrSet.empty)).
  { exists []. repeat split; [constructor | intros t []]. }
  unfold seed.
  destruct (find _ all) as [startTri|] eqn:E; [|exact H0].
  apply find_some in E as [Hin _].
  now apply place_inv.
Qed.

Lemma iteration_cases s :
  (exists tri, In tri all /\ StrSet.has (keyOfTri tri) (used s) = false
               /\ iteration all s = place tri s)
  \/ (iteration all s = s /\ fallbackCandidate all s = None).
Proof.
  unfold iteration.
  destruct (adjacentCandidate all s) as [tri|] eqn:Ea.
  - left. exists tri. unfold adjacentCandidate in Ea.
    apply find_some in Ea as [Hin Hp]. apply andb_prop in Hp as [Hp _].
    apply negb_true_iff in Hp. auto.
  - destruct (fallbackCandidate all s) as [tri|] eqn:Ef.
    + left. exists tri. unfold fallbackCandidate in Ef.
      apply find_some in Ef as [Hin Hp]. apply negb_true_iff in Hp. auto.
    + right. auto.
Qed.

Lemma iteration_inv s : seqInv all s -> seqInv all (iteration all s).
Proof.
  intros Hs. destruct (iteration_cases s) as [(tri & Hin & Hnew & ->) | [-> _]].
  - now apply place_inv.
  - exact Hs.
Qed.

Lemma seqInv_length s :
  seqInv all s -> List.length (ordered s) = List.length (used s).
Proof. intros (placed & -> & -> & _). now rewrite !length_map. Qed.

Lemma seqInv_used_incl s : seqInv all s -> incl (used s) (map keyOfTri all).
Proof.
  intros (placed & _ & -> & _ & Hincl) k Hk.
  apply in_map_iff in Hk as (t & <- & Ht). apply in_map, Hincl, Ht.
Qed.

(** With pairwise distinct keys, an unplaced triangle is left as long as the
    loop runs, so every iteration places one. *)
Lemma iteration_progress s :
  NoDup (map keyOfTri all) -> seqInv all s ->
  (List.length (ordered s) < List.length all)%nat ->
  List.length (ordered (iteration all s)) = S (List.length (ordered s)).
Proof.
  intros Hk Hs Hlt.
  destruct (iteration_cases s) as [(tri & Hin & Hnew & ->) | [_ Hnone]].
  - now apply place_inv.
  - exfalso. unfold fallbackCandidate in Hnone.
    assert (Hincl : incl (map keyOfTri all) (used s)).
    { intros k Hin. apply in_map_iff in Hin as (t & <- & Ht).
      apply (find_none _ _ Hnone) in Ht. apply negb_false_iff in Ht.
      now apply has_In. }
    pose proof (NoDup_incl_length Hk Hincl) as Hle.
    rewrite length_map, <- (seqInv_length s Hs) in Hle. lia.
Qed.

Lemma placementLoop_total :
  NoDup (map keyOfTri all) ->
  forall fuel s,
    seqInv all s ->
    (List.length all <= fuel + List.length (ordered s))%nat ->
    exists r, placementLoop fuel all s = Some r
              /\ seqInv all r
              /\ (List.length all <= List.length (ordered r))%nat.
Proof.
  intros Hk. induction fuel as [|fuel IH]; intros s Hs Hfuel; cbn [placementLoop];
    destruct (Nat.ltb_spec (List.length (ordered s)) (List.length all)) as [Hlt|Hge].
  - lia.
  - exists s. auto.
  - apply IH; [now apply iteration_inv|].
    rewrite (iteration_progress s Hk Hs Hlt). lia.
  - exists s. auto.
Qed.

(** With a repeated key the number of placed triangles stays below the number
    of input triangles, and the loop test never fails. *)
Lemma placementLoop_diverges :
  ~ NoDup (map keyOfTri all) ->
  forall fuel s, seqInv all s -> placementLoop fuel all s = None.
Proof.
  intros Hk. induction fuel as [|fuel IH]; intros s Hs; cbn [placementLoop];
    destruct (Nat.ltb_spec (List.length (ordered s)) (List.length all)) as [Hlt|Hge];
    try reflexivity; try (apply IH; now apply iteration_inv).
  all: exfalso; apply Hk.
  all: destruct Hs as (placed & Ho & Hu & Hnd & Hincl).
  all: apply (NoDup_incl_NoDup (l := used s)); [exact Hnd | |].
  all: try (rewrite length_map, Hu, length_map; rewrite Ho, length_map in Hge; exact Hge).
  all: intros k Hin; rewrite Hu in Hin; apply in_map_iff in Hin as (t & <- & Ht);
    apply in_map, Hincl, Ht.
Qed.

Lemma seqInv_permutation s :
  NoDup (map keyOfTri all) -> seqInv all s ->
  (List.length all <= List.length (ordered s))%nat ->
  Permutation (map Triangle.vertices all) (ordered s).
Proof.
  intros Hk (placed & -> & Hu & Hnd & Hincl) Hlen.
  apply Permutation_map. symmetry.
  rewrite length_map in Hlen. rewrite Hu in Hnd.
  apply NoDup_Permutation_bis; [now apply NoDup_map_inv in Hnd | exact Hlen | exact Hincl].
Qed.

End SequencerGeneral.

(** X7.  On any list of triangles the sequencer's loop comes to an end exactly
    when no two of them have the same key (the same set of vertices): then
    [sequence] returns, for every budget of at least as many iterations as
    there are triangles, one and the same permutation of the input vertex
    lists; otherwise it returns for no budget, the fallback scan finding
    nothing to place while the loop test still holds. *)
Theorem sequence_terminates_iff_distinct_keys :
  forall all : list Triangle,
    (NoDup (map keyOfTri all) ->
     exists ordered : list (list Point),
       (forall fuel, (List.length all <= fuel)%nat -> sequence fuel all = Some ordered)
       /\ Permutation (map Triangle.vertices all) ordered)
    /\ (~ NoDup (map keyOfTri all) -> forall fuel, sequence fuel all = None).
Proof.
  intros all. split.
  - intros Hk.
    destruct (placementLoop_total all Hk (List.length all) (seed all) (seed_inv all)
                                  ltac:(lia)) as (r & Hr & Hinv & Hlen).
    exists (ordered r). split.
    + intros fuel Hfuel. unfold sequence.
      now rewrite (placementLoop_fuel _ _ _ _ _ Hr Hfuel).
    + now apply seqInv_permutation.
  - intros Hk fuel. unfold sequence.
    now rewrite (placementLoop_diverges all Hk fuel (seed all) (seed_inv all)).
Qed.

Lemma sequence_terminates_iff_distinct_keys_witness :
  (exists ordered : list (list Point),
      sequence 2 [lowerTriangle (pt 0 0) 0 0; upperTriangle (pt 0 0) 0 0] = Some ordered)
  /\ sequence 5 [lowerTriangle (pt 0 0) 0 0; lowerTriangle (pt 0 0) 0 0] = None.
Proof.
  split.
  - destruct (proj1 (sequence_terminates_iff_distinct_keys
                       [lowerTriangle (pt 0 0) 0 0; upperTriangle (pt 0 0) 0 0]))
      as (o & Ho & _).
    + vm_compute. repeat constructor; simpl; intuition discriminate.
    + exists o. apply Ho. simpl. lia.
  - apply (proj2 (sequence_terminates_iff_distinct_keys
                    [lowerTriangle (pt 0 0) 0 0; lowerTriangle (pt 0 0) 0 0])).
    vm_compute. intros H. inversion H as [|? ? Hn _]. apply Hn. now left.
Defined.

(** ** Keys of triangles *)

Section TriangleKeys.

Lemma avoids_append c s t : avoids c (s ++ t) = avoids c s && avoids c t.
Proof.
  induction s as [|a s IH]; simpl; [reflexivity|]. now rewrite IH, andb_assoc.
Qed.

Lemma uint_avoids_bar d : avoids "|"%char (NilEmpty.string_of_uint d) = true.
Proof. induction d; simpl; auto. Qed.

Lemma key_avoids_bar p : avoids "|"%char (Point.key p) = true.
Proof.
  unfold Point.key, numToString. rewrite !avoids_append.
  destruct (Z.to_int (Point.x p)), (Z.to_int (Point.y p)); simpl;
    now rewrite !uint_avoids_bar.
Qed.

Lemma split_join sep a l :
  Forall (fun s => avoids sep s = true) (a :: l) ->
  split sep (join (String sep EmptyString) (a :: l)) = a :: l.
Proof.
  revert a. induction l as [|b l IH]; intros a H.
  - simpl. apply split_avoids. now inversion H.
  - inversion H as [|? ? Ha Hl]; subst.
    change (join (String sep "") (a :: b :: l))
      with (a ++ String sep (join (String sep "") (b :: l)))%string.
    rewrite split_append by exact Ha. now rewrite IH.
Qed.

Lemma sumX_perm l l' : Permutation l l' -> sumX l = sumX l'.
Proof. induction 1; simpl; lia. Qed.

Lemma sumY_perm l l' : Permutation l l' -> sumY l = sumY l'.
Proof. induction 1; simpl; lia. Qed.

(** Equal keys mean the same vertices, in some order. *)
Lemma getKey_perm (vs1 vs2 : list Point) :
  vs1 <> [] -> getKey vs1 = getKey vs2 -> Permutation vs1 vs2.
Proof.
  intros Hne H. unfold getKey, sort in H.
  assert (Hs : forall vs, Forall (fun s => avoids "|"%char s = true)
                                 (sortBy String.leb (map Point.key vs))).
  { intros vs. apply Forall_forall. intros k Hk.
    apply (Permutation_in _ (sortBy_perm _ _)) in Hk.
    apply in_map_iff in Hk as (p & <- & _). apply key_avoids_bar. }
  assert (Hp : forall vs, Permutation (sortBy String.leb (map Point.key vs))
                                      (map Point.key vs))
    by (intros; apply sortBy_perm).
  assert (E : sortBy String.leb (map Point.key vs1) = sortBy String.leb (map Point.key vs2)).
  { destruct (sortBy String.leb (map Point.key vs1)) as [|a1 l1] eqn:E1.
    - exfalso. specialize (Hp vs1). rewrite E1 in Hp.
      apply Permutation_nil in Hp. destruct vs1; [congruence | discriminate].
    - destruct (sortBy String.leb (map Point.key vs2)) as [|a2 l2] eqn:E2.
      + pose proof (Hs vs1) as H1. rewrite E1 in H1.
        apply (f_equal (split "|"%char)) in H.
        rewrite (split_join _ _ _ H1) in H. simpl in H. injection H as -> ->.
        exfalso. specialize (Hp vs1). rewrite E1 in Hp.
        assert (Hin : In EmptyString (map Point.key vs1))
          by (apply (Permutation_in _ Hp); now left).
        apply in_map_iff in Hin as (p & Hk & _).
        unfold Point.key in Hk. destruct (numToString (Point.x p)); discriminate.
      + pose proof (Hs vs1) as H1. rewrite E1 in H1.
        pose proof (Hs vs2) as H2. rewrite E2 in H2.
        apply (f_equal (split "|"%char)) in H.
        now rewrite (split_join _ _ _ H1), (split_join _ _ _ H2) in H. }
  assert (Hk : Permutation (map Point.key vs1) (map Point.key vs2)).
  { rewrite <- (Hp vs1), <- (Hp vs2), E. reflexivity. }
  apply Permutation_map_inv in Hk as (l3 & E3 & Hperm).
  assert (vs1 = l3).
  { clear -E3. revert l3 E3. induction vs1 as [|a vs1 IH]; intros [|b l3] E3;
      try discriminate; [reflexivity|].
    injection E3 as Ha Hl. apply key_inj in Ha. subst. f_equal. now apply IH. }
  subst. now symmetry.
Qed.

Lemma cells_key_inj v0 n t1 t2 :
  In t1 (cells v0 n) -> In t2 (cells v0 n) -> keyOfTri t1 = keyOfTri t2 -> t1 = t2.
Proof.
  intros H1 H2 Hk. unfold keyOfTri in Hk.
  apply cells_In in H1 as (i1 & j1 & _ & _ & H1).
  apply cells_In in H2 as (i2 & j2 & _ & _ & H2).
  apply getKey_perm in Hk;
    [| destruct H1 as [-> | [_ ->]]; discriminate].
  pose proof (sumX_perm _ _ Hk) as Hx. pose proof (sumY_perm _ _ Hk) as Hy.
  destruct H1 as [-> | [_ ->]], H2 as [-> | [_ ->]];
    cbn in Hx, Hy; try lia;
    assert (i1 = i2) by lia; assert (j1 = j2) by lia; now subst.
Qed.

Lemma decompose_keys_NoDup outer : NoDup (map keyOfTri (decompose outer)).
Proof.
  rewrite decompose_cells.
  apply Injective_map_NoDup_in.
  - intros t1 t2. apply cells_key_inj.
  - apply cells_NoDup.
Qed.

End TriangleKeys.

(** ** The adjacency sequencer on the decomposition, for every leg length *)

Section SequencerOnDecomposition.
Variable v0 : Point.
Variable n : Z.
Hypothesis n_pos : 0 < n.

Ltac decide_eqbs :=
  repeat match goal with
         | |- context [Z.eqb ?a ?b] => destruct (Z.eqb_spec a b); try lia
         end.

Lemma parent_neighbour t :
  In t (cells v0 n) -> t <> lowerTriangle v0 0 0 ->
  In (parent v0 t) (cells v0 n)
  /\ 0 <= rank (parent v0 t) < rank t
  /\ sharesEdge (Triangle.vertices (parent v0 t)) (Triangle.vertices t) = true.
Proof.
  intros Hin Hne. apply cells_In in Hin as (i & j & Hi & Hj & Ht).
  rewrite sharesEdge_sharedVertices.
  assert (Hcases :
            (t = lowerTriangle v0 i j /\ 0 < j /\ parent v0 t = upperTriangle v0 i (j - 1))
            \/ (t = lowerTriangle v0 i 0 /\ j = 0 /\ 0 < i
                /\ parent v0 t = upperTriangle v0 (i - 1) 0)
            \/ (t = upperTriangle v0 i j /\ i + j < n - 1
                /\ parent v0 t = lowerTriangle v0 i j)).
  { destruct Ht as [-> | [Hu ->]].
    - unfold parent. cbn [lowerTriangle Triangle.gridPos GridPos.i GridPos.j
                            GridPos.type GridPos.is_lower].
      destruct (Z.gtb_spec j 0) as [Hj0|Hj0]; [left; auto|].
      right. left. assert (j = 0) by lia. subst j.
      assert (i <> 0) by (intros ->; now apply Hne).
      repeat split; try reflexivity; lia.
    - right. right. auto. }
  destruct Hcases as [(-> & Hj0 & ->) | [(-> & -> & Hi0 & ->) | (-> & Hu & ->)]].
  - split; [apply cells_In; exists i, (j - 1); repeat split; try lia; right; split;
             [lia | reflexivity]|].
    split; [unfold rank; cbn [upperTriangle lowerTriangle Triangle.gridPos GridPos.i
                               GridPos.j GridPos.type GridPos.is_lower]; lia|].
    unfold sharedVertices, Point.eqb.
    cbn [upperTriangle lowerTriangle Triangle.vertices filter existsb Point.x Point.y].
    decide_eqbs. reflexivity.
  - split; [apply cells_In; exists (i - 1), 0; repeat split; try lia; right; split;
             [lia | reflexivity]|].
    split; [unfold rank; cbn [upperTriangle lowerTriangle Triangle.gridPos GridPos.i
                               GridPos.j GridPos.type GridPos.is_lower]; lia|].
    unfold sharedVertices, Point.eqb.
    cbn [upperTriangle lowerTriangle Triangle.vertices filter existsb Point.x Point.y].
    decide_eqbs. reflexivity.
  - split; [apply cells_In; exists i, j; repeat split; try lia; now left|].
    split; [unfold rank; cbn [upperTriangle lowerTriangle Triangle.gridPos GridPos.i
                               GridPos.j GridPos.type GridPos.is_lower]; lia|].
    unfold sharedVertices, Point.eqb.
    cbn [upperTriangle lowerTriangle Triangle.vertices filter existsb Point.x Point.y].
    decide_eqbs. reflexivity.
Qed.

Lemma cells_keys_NoDup : NoDup (map keyOfTri (cells v0 n)).
Proof.
  apply Injective_map_NoDup_in; [|apply cells_NoDup].
  intros t1 t2. apply cells_key_inj.
Qed.

Lemma placed_vertices s t :
  seqInv (cells v0 n) s -> In t (cells v0 n) ->
  StrSet.has (keyOfTri t) (used s) = true ->
  In (Triangle.vertices t) (ordered s).
Proof.
  intros (placed & -> & Hu & _ & Hincl) Ht Hhas. apply has_In in Hhas.
  rewrite Hu in Hhas. apply in_map_iff in Hhas as (t' & Hk & Ht').
  apply (cells_key_inj v0 n) in Hk; [| now apply Hincl | exact Ht]. subst t'.
  now apply in_map.
Qed.

(** As long as a triangle is unplaced, some unplaced triangle has a placed
    neighbour: follow the parents down from any unplaced triangle. *)
Lemma frontier s :
  seqInv (cells v0 n) s ->
  StrSet.has (keyOfTri (lowerTriangle v0 0 0)) (used s) = true ->
  forall t, In t (cells v0 n) -> StrSet.has (keyOfTri t) (used s) = false ->
            exists q placed,
              In q (cells v0 n)
              /\ StrSet.has (keyOfTri q) (used s) = false
              /\ In placed (ordered s)
              /\ sharesEdge placed (Triangle.vertices q) = true.
Proof.
  intros Hs H0.
  assert (H : forall k : nat, forall t, (Z.to_nat (rank t) <= k)%nat -> 0 <= rank t ->
                In t (cells v0 n) -> StrSet.has (keyOfTri t) (used s) = false ->
                exists q placed,
                  In q (cells v0 n)
                  /\ StrSet.has (keyOfTri q) (used s) = false
                  /\ In placed (ordered s)
                  /\ sharesEdge placed (Triangle.vertices q) = true).
  { induction k as [|k IH]; intros t Hk Hr Ht Hnew;
      (assert (Hne : t <> lowerTriangle v0 0 0) by (intros ->; congruence));
      destruct (parent_neighbour t Ht Hne) as (Hp & Hrank & Hshare).
    - lia.
    - destruct (StrSet.has (keyOfTri (parent v0 t)) (used s)) eqn:E.
      + exists t, (Triangle.vertices (parent v0 t)).
        repeat split; try assumption. now apply placed_vertices.
      + apply (IH (parent v0 t)); try assumption; lia. }
  intros t Ht Hnew. apply (H (Z.to_nat (rank t)) t); try assumption; [lia|].
  apply cells_In in Ht as (i & j & Hi & Hj & [-> | [_ ->]]); unfold rank;
    cbn [upperTriangle lowerTriangle Triangle.gridPos GridPos.i GridPos.j
         GridPos.type GridPos.is_lower]; lia.
Qed.

Lemma corner_in_cells : In (lowerTriangle v0 0 0) (cells v0 n).
Proof. apply cells_In. exists 0, 0. repeat split; try lia. now left. Qed.

Lemma seed_cells :
  seed (cells v0 n) = place (lowerTriangle v0 0 0) (mkSeq [] StrSet.empty).
Proof.
  unfold seed.
  destruct (find _ (cells v0 n)) as [t|] eqn:E.
  - apply find_some in E as [Hin Hp].
    apply cells_In in Hin as (i & j & _ & _ & Ht).
    destruct Ht as [-> | [_ ->]]; cbn in Hp.
    + apply andb_prop in Hp as [Hp _]. apply andb_prop in Hp as [Hi Hj].
      apply Z.eqb_eq in Hi, Hj. now subst.
    + now rewrite andb_false_r in Hp.
  - exfalso. pose proof (find_none _ _ E _ corner_in_cells) as H. discriminate H.
Qed.

Lemma seed_decompInv : decompInv v0 n (seed (cells v0 n)).
Proof.
  split; [apply seed_inv|]. rewrite seed_cells. split; [reflexivity|].
  intros k Hk. cbn in Hk. lia.
Qed.

Lemma corner_used s :
  decompInv v0 n s -> StrSet.has (keyOfTri (lowerTriangle v0 0 0)) (used s) = true.
Proof.
  intros ((placed & Ho & Hu & _) & Hhd & _). apply has_In. rewrite Hu.
  destruct placed as [|t placed]; [rewrite Ho in Hhd; discriminate|].
  rewrite Ho in Hhd. cbn in Hhd. injection Hhd as Hv.
  left. unfold keyOfTri. now rewrite Hv.
Qed.

(** While the loop runs, the adjacency scan succeeds. *)
Lemma adjacent_found s :
  decompInv v0 n s ->
  (List.length (ordered s) < List.length (cells v0 n))%nat ->
  exists tri placed,
    adjacentCandidate (cells v0 n) s = Some tri
    /\ iteration (cells v0 n) s = place tri s
    /\ In tri (cells v0 n)
    /\ StrSet.has (keyOfTri tri) (used s) = false
    /\ In placed (ordered s)
    /\ sharesEdge placed (Triangle.vertices tri) = true.
Proof.
  intros Hd Hlt. pose proof Hd as (Hs & _ & _).
  assert (Hsome : adjacentCandidate (cells v0 n) s <> None).
  { intros Hnone.
    assert (Hun : exists t, In t (cells v0 n)
                            /\ StrSet.has (keyOfTri t) (used s) = false).
    { destruct (fallbackCandidate (cells v0 n) s) as [t|] eqn:Ef.
      - unfold fallbackCandidate in Ef. apply find_some in Ef as [Hin Hp].
        apply negb_true_iff in Hp. now exists t.
      - exfalso.
        pose proof (iteration_progress (cells v0 n) s cells_keys_NoDup Hs Hlt) as Hprog.
        unfold iteration in Hprog. rewrite Hnone, Ef in Hprog. lia. }
    destruct Hun as (t & Ht & Hnew).
    destruct (frontier s Hs (corner_used s Hd) t Ht Hnew)
      as (q & placed & Hq & Hqnew & Hpl & Hsh).
    unfold adjacentCandidate in Hnone. apply (find_none _ _ Hnone) in Hq.
    fold (keyOfTri q) in Hq. rewrite Hqnew in Hq. cbn in Hq.
    apply not_true_iff_false in Hq. apply Hq, existsb_exists. now exists placed. }
  destruct (adjacentCandidate (cells v0 n) s) as [tri|] eqn:Ea; [|congruence].
  pose proof Ea as Ea'. unfold adjacentCandidate in Ea'.
  apply find_some in Ea' as [Hin Hp]. apply andb_prop in Hp as [Hnew Hex].
  apply negb_true_iff in Hnew. apply existsb_exists in Hex as (placed & Hpl & Hsh).
  exists tri, placed. unfold iteration. rewrite Ea. repeat split; assumption.
Qed.

Lemma iteration_decompInv s :
  decompInv v0 n s ->
  (List.length (ordered s) < List.length (cells v0 n))%nat ->
  decompInv v0 n (iteration (cells v0 n) s)
  /\ List.length (ordered (iteration (cells v0 n) s)) = S (List.length (ordered s)).
Proof.
  intros Hd Hlt.
  destruct (adjacent_found s Hd Hlt) as (tri & placed & _ & -> & Hin & Hnew & Hpl & Hsh).
  destruct Hd as (Hs & Hhd & Hch).
  destruct (place_inv (cells v0 n) s tri Hs Hin Hnew) as [Hs' Hlen].
  split; [|exact Hlen]. split; [exact Hs'|].
  unfold place in *. cbn [ordered] in *. split.
  - destruct (ordered s); [discriminate | exact Hhd].
  - intros k Hk. rewrite length_app in Hk. cbn [List.length] in Hk.
    destruct (Nat.eq_dec k (List.length (ordered s))) as [-> | Hne].
    + destruct (In_nth _ _ [] Hpl) as (m & Hm & Enth). exists m. split; [exact Hm|].
      rewrite app_nth1 by exact Hm. rewrite Enth.
      rewrite app_nth2, Nat.sub_diag by lia. exact Hsh.
    + destruct (Hch k ltac:(lia)) as (m & Hm & Hshare). exists m. split; [exact Hm|].
      now rewrite !app_nth1 by lia.
Qed.

Lemma placementLoop_decomp :
  forall fuel s,
    decompInv v0 n s ->
    (List.length (cells v0 n) <= fuel + List.length (ordered s))%nat ->
    exists r, placementLoop fuel (cells v0 n) s = Some r
              /\ decompInv v0 n r
              /\ (List.length (cells v0 n) <= List.length (ordered r))%nat.
Proof.
  induction fuel as [|fuel IH]; intros s Hs Hfuel; cbn [placementLoop];
    destruct (Nat.ltb_spec (List.length (ordered s)) (List.length (cells v0 n)))
    as [Hlt|Hge].
  - lia.
  - exists s. auto.
  - destruct (iteration_decompInv s Hs Hlt) as [Hs' Hlen].
    apply IH; [exact Hs' | lia].
  - exists s. auto.
Qed.

Lemma loopHead_decompInv s : loopHead (cells v0 n) s -> decompInv v0 n s.
Proof.
  induction 1 as [|s _ IH Hlt]; [apply seed_decompInv|].
  now apply iteration_decompInv.
Qed.

End SequencerOnDecomposition.

(** X8.  For every positive leg length, not only 4: on the decomposition of
    the outer triangle the sequencer returns, for every budget of at least
    [n * n] iterations, one and the same sequence; it is a permutation of the
    decomposed triangles, begins with the lower triangle of cell (0,0), and
    each later triangle shares an edge (exactly two vertices, as [sharesEdge]
    tests it) with a triangle earlier in the sequence. *)
Theorem sequencer_chains_every_decomposition :
  forall outer : list Point,
    let v0 := Point.at_index outer 0 in
    let n := Point.x (Point.at_index outer 1) - Point.x v0 in
    0 < n ->
    exists ordered : list (list Point),
      (forall fuel, (Z.to_nat (n * n) <= fuel)%nat ->
                    sequence fuel (decompose outer) = Some ordered)
      /\ Permutation (map Triangle.vertices (decompose outer)) ordered
      /\ nth_error ordered 0 = Some (Triangle.vertices (lowerTriangle v0 0 0))
      /\ chained ordered.
Proof.
  intros outer v0 n Hn. rewrite decompose_cells. fold v0. fold n.
  assert (Hlen : List.length (cells v0 n) = Z.to_nat (n * n))
    by (rewrite <- (cells_length v0 n) by lia; now rewrite Nat2Z.id).
  destruct (placementLoop_decomp v0 n (List.length (cells v0 n)) (seed (cells v0 n))
                                 (seed_decompInv v0 n Hn) ltac:(lia))
    as (r & Hr & (Hs & Hhd & Hch) & Hge).
  exists (ordered r). split; [|split; [|split]]; try assumption.
  - intros fuel Hfuel. unfold sequence.
    rewrite (placementLoop_fuel _ _ _ _ _ Hr); [reflexivity | lia].
  - apply seqInv_permutation; try assumption. apply cells_keys_NoDup.
Qed.

Lemma sequencer_chains_every_decomposition_witness :
  0 < 2
  /\ exists ordered : list (list Point),
      sequence 4 (decompose [pt 0 0; pt 2 0; pt 0 2]) = Some ordered
      /\ chained ordered.
Proof.
  split; [lia|].
  destruct (sequencer_chains_every_decomposition [pt 0 0; pt 2 0; pt 0 2]
                                                 ltac:(vm_compute; reflexivity))
    as (o & Ho & _ & _ & Hc).
  exists o. split; [apply Ho; vm_compute; lia | exact Hc].
Defined.

(** X9.  For every positive leg length the fallback scan of the sequencer is
    dead code on the decomposition: in every state in which the loop body
    runs, the adjacency scan finds an unplaced triangle sharing an edge with
    a placed one, and the iteration places it. *)
Theorem fallback_never_taken_any_leg_length :
  forall outer : list Point,
    0 < Point.x (Point.at_index outer 1) - Point.x (Point.at_index outer 0) ->
    forall s : Seq,
      loopHead (decompose outer) s ->
      (List.length (ordered s) < List.length (decompose outer))%nat ->
      exists (tri : Triangle) (placed : list Point),
        adjacentCandidate (decompose outer) s = Some tri
        /\ iteration (decompose outer) s = place tri s
        /\ In tri (decompose outer)
        /\ StrSet.has (getKey (Triangle.vertices tri)) (used s) = false
        /\ In placed (ordered s)
        /\ sharesEdge placed (Triangle.vertices tri) = true.
Proof.
  intros outer Hn s. rewrite decompose_cells. intros Hs Hlt.
  apply (adjacent_found _ _ s); [now apply loopHead_decompInv | exact Hlt].
Qed.

Lemma fallback_never_taken_any_leg_length_witness :
  exists (tri : Triangle) (placed : list Point),
    adjacentCandidate (decompose [pt 0 0; pt 2 0; pt 0 2])
                      (seed (decompose [pt 0 0; pt 2 0; pt 0 2])) = Some tri
    /\ In placed (ordered (seed (decompose [pt 0 0; pt 2 0; pt 0 2])))
    /\ sharesEdge placed (Triangle.vertices tri) = true.
Proof.
  destruct (fallback_never_taken_any_leg_length
              [pt 0 0; pt 2 0; pt 0 2] ltac:(vm_compute; reflexivity)
              (seed (decompose [pt 0 0; pt 2 0; pt 0 2]))
              (loopHead_seed _) ltac:(vm_compute; lia))
    as (tri & placed & H1 & _ & _ & _ & H5 & H6).
  exists tri, placed. repeat split; assumption.
Defined.

(** ** The shape of the decomposed triangles *)

Section UnitTriangles.

Lemma triangle_noCrossing (a b c : Point) : noCrossing [a; b; c].
Proof.
  intros i j Hi Hj Hn. exfalso. apply Hn. unfold neighbours.
  cbn [List.length] in *. lia.
Qed.

Lemma unit_edge_samples (s e : Point) (p : Z * Z) :
  Z.abs (Point.x e - Point.x s) <= 1 -> Z.abs (Point.y e - Point.y s) <= 1 ->
  s <> e ->
  sampledOnEdge s e p <-> p = (Point.x s, Point.y s) \/ p = (Point.x e, Point.y e).
Proof.
  intros Hx Hy Hne. unfold sampledOnEdge, edgeSample.
  assert (Hg : edgeSteps s e = 1).
  { unfold edgeSteps.
    assert (Hc : (Z.abs (Point.x e - Point.x s) = 0 \/ Z.abs (Point.x e - Point.x s) = 1)
                 /\ (Z.abs (Point.y e - Point.y s) = 0 \/ Z.abs (Point.y e - Point.y s) = 1))
      by lia.
    destruct Hc as [[Ex | Ex] [Ey | Ey]]; rewrite Ex, Ey; try reflexivity.
    exfalso. apply Hne. destruct s, e. cbn in *. f_equal; lia. }
  rewrite Hg, !Z.div_1_r. split.
  - intros (j & Hj & ->). assert (Hc : j = 0 \/ j = 1) by lia.
    destruct Hc as [-> | ->]; [left | right]; f_equal; lia.
  - intros [-> | ->]; [exists 0 | exists 1]; (split; [lia | f_equal; lia]).
Qed.

Lemma triangle_area (a b c : Point) :
  (polygonAreaValue (Array [a; b; c]) == inject_Z (orientation a b c) / 2)%Q.
Proof.
  unfold polygonAreaValue. cbn [List.length Nat.ltb Nat.leb].
  rewrite area2_triangle. unfold orientation.
  match goal with
  | |- (inject_Z ?u / 2 == inject_Z ?v / 2)%Q => replace u with v by ring
  end.
  reflexivity.
Qed.

Lemma decomposed_shape (outer : list Point) (t : Triangle) :
  In t (decompose outer) ->
  exists a b c : Point,
    Triangle.vertices t = [a; b; c]
    /\ insideOuter (Point.at_index outer 0)
                   (Point.x (Point.at_index outer 1) - Point.x (Point.at_index outer 0)) a
    /\ insideOuter (Point.at_index outer 0)
                   (Point.x (Point.at_index outer 1) - Point.x (Point.at_index outer 0)) b
    /\ insideOuter (Point.at_index outer 0)
                   (Point.x (Point.at_index outer 1) - Point.x (Point.at_index outer 0)) c
    /\ NoDup [a; b; c]
    /\ orientation a b c = 1.
Proof.
  intros Ht. rewrite decompose_cells in Ht.
  apply cells_In in Ht as (i & j & Hi & Hj & Ht).
  destruct Ht as [-> | [Hu ->]]; eexists _, _, _;
    (split; [reflexivity|]);
    (split; [unfold insideOuter; cbn [Point.x Point.y]; lia|]);
    (split; [unfold insideOuter; cbn [Point.x Point.y]; lia|]);
    (split; [unfold insideOuter; cbn [Point.x Point.y]; lia|]);
    (split; [repeat constructor; cbn [In]; intros H;
             repeat (destruct H as [H | H]; [injection H; lia|]); exact H
            | unfold orientation; cbn [Point.x Point.y]; ring]).
Qed.

End UnitTriangles.

(** X10.  Whatever the outer triangle, every triangle the decomposer emits has
    three pairwise distinct vertices inside the outer triangle, listed
    counter-clockwise ([orientation] is 1, so its area is 1/2), and passes
    [isSimplePolygon]; for a leg length that is not positive the decomposer
    emits nothing. *)
Theorem decompose_unit_triangles :
  forall outer : list Point,
    let v0 := Point.at_index outer 0 in
    let n := Point.x (Point.at_index outer 1) - Point.x v0 in
    (forall t : Triangle,
        In t (decompose outer) ->
        exists a b c : Point,
          Triangle.vertices t = [a; b; c]
          /\ insideOuter v0 n a /\ insideOuter v0 n b /\ insideOuter v0 n c
          /\ NoDup [a; b; c]
          /\ orientation a b c = 1
          /\ isSimplePolygon (Array (Triangle.vertices t)) = true)
    /\ (n <= 0 -> decompose outer = []).
Proof.
  intros outer v0 n. split.
  - intros t Ht.
    destruct (decomposed_shape outer t Ht) as (a & b & c & Ev & Ha & Hb & Hc & Hnd & Ho).
    exists a, b, c. repeat split; try assumption; try apply Ha; try apply Hb; try apply Hc.
    rewrite Ev. apply isSimplePolygon_iff; [simpl; lia|].
    split; [exact Hnd|]. split; [|apply triangle_noCrossing].
    rewrite triangle_area, Ho. vm_compute. discriminate.
  - intros Hn. unfold decompose. fold v0. fold n. unfold for_lt.
    replace (Z.to_nat (n - 0)) with 0%nat by lia. reflexivity.
Qed.

Lemma decompose_unit_triangles_witness :
  In (lowerTriangle (pt (-2) (-2)) 1 2) (decompose Constants.inductionOuterTriangle)
  /\ isSimplePolygon (Array (Triangle.vertices (lowerTriangle (pt (-2) (-2)) 1 2))) = true
  /\ (-3 <= 0 /\ decompose [pt 0 0; pt (-3) 0] = []).
Proof.
  assert (Hin : In (lowerTriangle (pt (-2) (-2)) 1 2)
                   (decompose Constants.inductionOuterTriangle))
    by (vm_compute; intuition).
  split; [exact Hin|]. split.
  - destruct (proj1 (decompose_unit_triangles Constants.inductionOuterTriangle) _ Hin)
      as (a & b & c & _ & _ & _ & _ & _ & _ & H). exact H.
  - split; [lia|].
    apply (proj2 (decompose_unit_triangles [pt 0 0; pt (-3) 0])). vm_compute. discriminate.
Defined.

(** X11.  The boundary lattice points of a triangle of the decomposition are its
    three vertices and nothing else: [collectBoundaryPoints] returns exactly
    three points on it. *)
Theorem unit_triangle_boundary :
  forall (outer : list Point) (t : Triangle),
    In t (decompose outer) ->
    exists r : list (Z * Z),
      collectBoundaryPoints (Triangle.vertices t) = Some r
      /\ List.length r = 3%nat
      /\ forall p : Z * Z,
          In p r <-> In (pt (fst p) (snd p)) (Triangle.vertices t).
Proof.
  intros outer t Ht.
  destruct (decomposed_shape outer t Ht) as (a & b & c & Ev & _ & _ & _ & Hnd & _).
  assert (Hunit : forall u v, In (u, v) [(a, b); (b, c); (c, a)] ->
                              Z.abs (Point.x v - Point.x u) <= 1
                              /\ Z.abs (Point.y v - Point.y u) <= 1).
  { rewrite decompose_cells in Ht. apply cells_In in Ht as (i & j & _ & _ & Hc).
    destruct Hc as [-> | [_ ->]]; injection Ev as <- <- <-;
      intros u v [H | [H | [H | []]]]; injection H as <- <-; cbn [Point.x Point.y]; lia. }
  rewrite Ev.
  destruct (collectBoundaryPoints_correct [a; b; c]) as (r & Er & Hs & Hin).
  exists r. split; [exact Er|].
  assert (Hne : a <> b /\ b <> c /\ c <> a).
  { inversion Hnd as [|? ? Ha Hnd']. inversion Hnd' as [|? ? Hb _]. subst.
    cbn [In] in *. repeat split; intros ->; intuition. }
  assert (Hmem : forall p, In p r <->
                           In p [(Point.x a, Point.y a); (Point.x b, Point.y b);
                                 (Point.x c, Point.y c)]).
  { intros p. rewrite Hin. unfold sampledOnBoundary. cbn [List.length In]. split.
    - intros (i & Hi & Hp).
      assert (Hc : (i = 0 \/ i = 1 \/ i = 2)%nat) by lia.
      destruct Hc as [-> | [-> | ->]]; cbn in Hp;
        apply unit_edge_samples in Hp; try apply Hunit; cbn [In]; intuition.
    - intros [<- | [<- | [<- | []]]]; [exists 0%nat | exists 1%nat | exists 2%nat];
        (split; [lia|]); cbn; apply unit_edge_samples;
        try apply Hunit; cbn [In]; intuition. }
  split.
  - assert (Hnd3 : NoDup [(Point.x a, Point.y a); (Point.x b, Point.y b);
                          (Point.x c, Point.y c)]).
    { destruct Hne as (Hab & Hbc & Hca).
      assert (Hp : forall u v : Point, (Point.x u, Point.y u) = (Point.x v, Point.y v) -> u = v)
        by (intros [] [] H; cbn in H; congruence).
      repeat constructor; cbn [In]; intros H;
        repeat (destruct H as [H | H]; [apply Hp in H; congruence|]); exact H. }
    assert (Hndr : NoDup r).
    { clear -Hs. induction Hs as [|p l Hl IH Hp]; constructor; [|exact IH].
      intros Hin. rewrite Forall_forall in Hp. specialize (Hp p Hin).
      unfold lexLt in Hp. lia. }
    apply (Permutation_length (NoDup_Permutation Hndr Hnd3 Hmem)).
  - intros p. rewrite Hmem. cbn [In]. destruct p as [u v]. cbn [fst snd].
    destruct a, b, c. cbn [Point.x Point.y]. split;
      (intros [H | [H | [H | []]]]; injection H as <- <-; auto).
Qed.

Lemma unit_triangle_boundary_witness :
  exists r : list (Z * Z),
    collectBoundaryPoints (Triangle.vertices (upperTriangle (pt (-2) (-2)) 0 0)) = Some r
    /\ List.length r = 3%nat.
Proof.
  destruct (unit_triangle_boundary Constants.inductionOuterTriangle
              (upperTriangle (pt (-2) (-2)) 0 0) ltac:(vm_compute; intuition))
    as (r & H1 & H2 & _).
  exists r. split; assumption.
Defined.

(** ** The hull builder on an arbitrary sequence *)

Section HullGeneral.

Lemma firstn_In_nth {A : Type} (l : list A) (d : A) (k : nat) (a : A) :
  In a (firstn k l) <-> exists m, (m < k)%nat /\ (m < List.length l)%nat /\ nth m l d = a.
Proof.
  revert k. induction l as [|b l IH]; intros k.
  - rewrite firstn_nil. split; [intros [] | intros (m & _ & Hm & _); simpl in Hm; lia].
  - destruct k as [|k]; [split; [intros [] | intros (m & Hm & _); lia]|].
    cbn [firstn In]. rewrite IH. split.
    + intros [<- | (m & Hm & Hl & <-)].
      * exists 0%nat. repeat split; simpl; lia.
      * exists (S m). repeat split; simpl; lia.
    + intros ([|m] & Hm & Hl & <-); [now left|].
      right. exists m. simpl in Hl. repeat split; lia.
Qed.

(** The points of a prefix are the vertices of its triangles. *)
Lemma prefixPoints_In st (k : Z) (p : Point) :
  0 <= k <= Z.of_nat (List.length (inductionTriangles st)) ->
  In p (prefixPoints st k) <-> fromPrefix (inductionTriangles st) (Z.to_nat k) p.
Proof.
  intros Hk. unfold prefixPoints, for_lt, StrSet.to_array, fromPrefix.
  set (body := fun (i : Z) (pointSet : StrSet.t) =>
                 fold_left (fun s v => StrSet.add (Point.key v) s)
                           (nth (Z.to_nat i) (inductionTriangles st) []) pointSet).
  pose (P := fun (i : Z) (s : StrSet.t) =>
               forall key, In key s <->
                           exists m v, (Z.of_nat m < i)
                                       /\ In v (nth m (inductionTriangles st) [])
                                       /\ key = Point.key v).
  assert (H : P (0 + Z.of_nat (Z.to_nat (k - 0)))
                (for_count (Z.to_nat (k - 0)) 0 body StrSet.empty)).
  { apply for_count_inv.
    - intros key. split; [intros [] | intros (m & v & Hm & _); lia].
    - intros i s Hi Hs key. unfold body. rewrite fold_add_keys, addAll_In, (Hs key).
      rewrite in_map_iff. split.
      + intros [(m & v & Hm & Hv & ->) | (v & <- & Hv)].
        * exists m, v. repeat split; [lia | assumption].
        * exists (Z.to_nat i), v. repeat split; [lia | assumption].
      + intros (m & v & Hm & Hv & ->).
        destruct (Z.eq_dec (Z.of_nat m) i) as [E|E].
        * right. exists v. split; [reflexivity|]. subst i. now rewrite Nat2Z.id.
        * left. exists m, v. repeat split; [lia | assumption]. }
  revert H. generalize (for_count (Z.to_nat (k - 0)) 0 body StrSet.empty).
  intros s Hs. unfold P in Hs. rewrite in_map_iff. split.
  - intros (key & <- & Hkey). apply Hs in Hkey as (m & v & Hm & Hv & ->).
    rewrite parse_key. exists (nth m (inductionTriangles st) []). split; [|exact Hv].
    apply (firstn_In_nth _ []). exists m. repeat split; lia.
  - intros (tri & Htri & Hv). apply (firstn_In_nth _ []) in Htri as (m & Hm & Hl & <-).
    exists (Point.key p). split; [apply parse_key|].
    apply Hs. exists m, p. repeat split; [lia | assumption].
Qed.

Lemma nextHullPoint_In points current :
  points <> [] -> In (nextHullPoint points current) points.
Proof.
  intros Hne. unfold nextHullPoint.
  assert (H : forall l next, incl l points -> In next points ->
                In (fold_left (fun next p =>
                                 if Point.eqb next current
                                    || (orientation current next p <? 0)
                                 then p else next) l next) points).
  { induction l as [|a l IH]; intros next Hl Hn; simpl; [exact Hn|].
    apply IH; [intros q Hq; apply Hl; now right|].
    destruct (Point.eqb next current || (orientation current next a <? 0));
      [apply Hl; now left | exact Hn]. }
  apply H; [apply incl_refl|].
  destruct points; [congruence | now left].
Qed.

Lemma hullWalk_In points start budget :
  points <> [] ->
  forall hull current v,
    In v (hullWalk budget points start hull current) ->
    In v hull \/ v = current \/ In v points.
Proof.
  intros Hne. induction budget as [|budget IH]; intros hull current v Hv;
    cbn [hullWalk] in Hv;
    destruct (negb (Point.eqb (nextHullPoint points current) start)
              && (List.length (hull ++ [current]) <? List.length points + 1)%nat).
  all: try (apply in_app_iff in Hv as [Hv | [<- | []]]; auto).
  apply IH in Hv as [Hv | [-> | Hv]]; auto.
  - apply in_app_iff in Hv as [Hv | [<- | []]]; auto.
  - right. right. now apply nextHullPoint_In.
Qed.

Lemma hullWalk_length points start budget :
  forall hull current,
    (List.length (hullWalk budget points start hull current)
     <= Nat.max (List.length hull + 1) (List.length points + 1))%nat.
Proof.
  induction budget as [|budget IH]; intros hull current; cbn [hullWalk];
    destruct (Nat.ltb_spec (List.length (hull ++ [current])) (List.length points + 1))
    as [Hlt|Hge];
    rewrite ?andb_false_r;
    destruct (negb (Point.eqb (nextHullPoint points current) start)); cbn [andb];
    rewrite ?length_app; cbn [List.length]; try lia.
  specialize (IH (hull ++ [current]) (nextHullPoint points current)).
  rewrite length_app in IH, Hlt. cbn [List.length] in IH, Hlt. lia.
Qed.

Lemma hullWalk_head points start budget current :
  exists rest, hullWalk budget points start [] current = current :: rest.
Proof.
  assert (H : forall budget hull cur,
             exists rest, hullWalk budget points start hull cur = hull ++ cur :: rest).
  { clear. induction budget as [|budget IH]; intros hull cur; cbn [hullWalk];
      destruct (negb (Point.eqb (nextHullPoint points cur) start)
                && (List.length (hull ++ [cur]) <? List.length points + 1)%nat).
    all: try (exists []; reflexivity).
    destruct (IH (hull ++ [cur]) (nextHullPoint points cur)) as (rest & ->).
    exists (nextHullPoint points cur :: rest). now rewrite <- app_assoc. }
  destruct (H budget [] current) as (rest & ->). now exists rest.
Qed.

Lemma reduce_lex_least (points : list Point) (d : Point) :
  points <> [] ->
  let start := reduce (fun a b =>
                         if (Point.x a <? Point.x b)
                            || ((Point.x a =? Point.x b) && (Point.y a <? Point.y b))
                         then a else b) points d in
  In start points /\ forall p, In p points -> lexLe start p.
Proof.
  intros Hne. destruct points as [|a l]; [congruence|]. cbn [reduce].
  clear Hne. revert a. induction l as [|b l IH]; intros a; cbn [fold_left].
  - split; [now left|]. intros p [<- | []]. unfold lexLe. lia.
  - set (c := if (Point.x a <? Point.x b)
                 || ((Point.x a =? Point.x b) && (Point.y a <? Point.y b))
              then a else b).
    destruct (IH c) as [Hin Hle].
    assert (Hc : (c = a \/ c = b) /\ lexLe c a /\ lexLe c b).
    { unfold c, lexLe.
      destruct (Z.ltb_spec (Point.x a) (Point.x b)), (Z.eqb_spec (Point.x a) (Point.x b)),
               (Z.ltb_spec (Point.y a) (Point.y b)); cbn [orb andb];
        repeat split; auto; lia. }
    destruct Hc as (Hc & Hca & Hcb). split.
    + destruct Hin as [<- | Hin]; [destruct Hc as [-> | ->]; cbn; auto | now right; right].
    + assert (Htrans : forall u v w, lexLe u v -> lexLe v w -> lexLe u w)
        by (unfold lexLe; intros; lia).
      intros p [<- | [<- | Hp]].
      * apply (Htrans _ c); [apply Hle; now left | exact Hca].
      * apply (Htrans _ c); [apply Hle; now left | exact Hcb].
      * apply Hle. now right.
Qed.

End HullGeneral.

(** X12.  On any cached sequence and for any prefix length strictly between 0
    and the number of triangles, [getAccumulatedPolygon] only returns vertices
    of the first [k] triangles, and at most one more of them than there are
    distinct such vertices (the walk's length guard); when it walks (three or
    more distinct vertices), the polygon begins with the vertex that is first
    in the order by x and then y. *)
Theorem getAccumulatedPolygon_from_prefix :
  forall (st : State) (k : Z),
    0 < k < Z.of_nat (List.length (inductionTriangles st)) ->
    (forall v, In v (getAccumulatedPolygon st k) ->
               fromPrefix (inductionTriangles st) (Z.to_nat k) v)
    /\ (List.length (getAccumulatedPolygon st k)
        <= List.length (prefixPoints st k) + 1)%nat
    /\ ((3 <= List.length (prefixPoints st k))%nat ->
        exists start rest,
          getAccumulatedPolygon st k = start :: rest
          /\ forall v, fromPrefix (inductionTriangles st) (Z.to_nat k) v -> lexLe start v).
Proof.
  intros st k Hk. unfold getAccumulatedPolygon.
  destruct (Z.leb_spec k 0); [lia|].
  destruct (Z.geb_spec k (Z.of_nat (List.length (inductionTriangles st)))); [lia|].
  assert (Hpts : forall p, In p (prefixPoints st k)
                           <-> fromPrefix (inductionTriangles st) (Z.to_nat k) p)
    by (intros p; apply prefixPoints_In; lia).
  destruct (Nat.ltb_spec (List.length (prefixPoints st k)) 3) as [Hlt|Hge].
  - split; [intros v Hv; now apply Hpts|]. split; [lia|]. intros; lia.
  - assert (Hne : prefixPoints st k <> [])
      by (intros E; rewrite E in Hge; simpl in Hge; lia).
    destruct (reduce_lex_least (prefixPoints st k) (pt 0 0) Hne) as [Hstart Hleast].
    set (start := reduce _ (prefixPoints st k) (pt 0 0)) in *.
    split; [|split].
    + intros v Hv. apply Hpts.
      apply hullWalk_In in Hv as [[] | [-> | Hv]]; assumption.
    + pose proof (hullWalk_length (prefixPoints st k) start
                                  (List.length (prefixPoints st k) + 1) [] start) as Hw.
      cbn [List.length] in Hw. lia.
    + intros _.
      destruct (hullWalk_head (prefixPoints st k) start
                              (List.length (prefixPoints st k) + 1) start) as (rest & ->).
      exists start, rest. split; [reflexivity|].
      intros v Hv. apply Hleast. now apply Hpts.
Qed.

Lemma getAccumulatedPolygon_from_prefix_witness :
  0 < 3 < Z.of_nat (List.length (inductionTriangles (Induction.mkState cachedTriangles)))
  /\ (List.length (getAccumulatedPolygon (Induction.mkState cachedTriangles) 3)
      <= List.length (prefixPoints (Induction.mkState cachedTriangles) 3) + 1)%nat.
Proof.
  assert (Hk : 0 < 3 < Z.of_nat (List.length
                                   (inductionTriangles (Induction.mkState cachedTriangles))))
    by (vm_compute; split; reflexivity).
  split; [exact Hk|].
  exact (proj1 (proj2 (getAccumulatedPolygon_from_prefix _ 3 Hk))).
Defined.

(** ** The shared edge locator on an arbitrary sequence *)

Section SharedEdgeGeneral.

Lemma polygonVertex_small poly j :
  (j < List.length poly)%nat -> polygonVertex poly j = Point.at_index poly j.
Proof. intros H. unfold polygonVertex. now rewrite Nat.mod_small. Qed.

Lemma hullHasEdge_iff poly a b : hullHasEdge poly a b = true <-> isHullEdge poly a b.
Proof.
  unfold hullHasEdge, isHullEdge. cbv zeta. rewrite existsb_exists. split.
  - intros (j & Hj & H). apply in_seq in Hj. exists j. split; [lia|].
    rewrite polygonVertex_small by lia. unfold polygonVertex.
    apply orb_prop in H as [H | H]; apply andb_prop in H as [H1 H2];
      apply Point_eqb_eq in H1, H2; auto.
  - intros (j & Hj & H). exists j. split; [apply in_seq; lia|].
    rewrite polygonVertex_small in H by lia. unfold polygonVertex in H.
    destruct H as [[-> ->] | [-> ->]]; apply orb_true_iff; [left | right];
      apply andb_true_iff; split; now apply Point_eqb_eq.
Qed.

Lemma occursIn_iff poly e : occursIn poly e = true <-> In e poly.
Proof.
  unfold occursIn. rewrite existsb_exists. split.
  - intros (v & Hv & E). apply Point_eqb_eq in E. now subst.
  - intros H. exists e. split; [exact H | now apply Point_eqb_eq].
Qed.

Lemma isHullEdge_occurs poly a b : isHullEdge poly a b -> In a poly /\ In b poly.
Proof.
  intros (j & Hj & H). unfold polygonVertex, Point.at_index in H.
  assert (H1 : In (nth (j mod List.length poly) poly (pt 0 0)) poly)
    by (apply nth_In, Nat.mod_upper_bound; lia).
  assert (H2 : In (nth ((j + 1) mod List.length poly) poly (pt 0 0)) poly)
    by (apply nth_In, Nat.mod_upper_bound; lia).
  destruct H as [[<- <-] | [<- <-]]; auto.
Qed.

End SharedEdgeGeneral.

(** X13.  On any cached sequence [getSharedEdgeForStep] is sound and complete:
    it returns [null] for a step that is not strictly between 0 and the number
    of triangles; a pair it returns consists of two cyclically consecutive
    vertices of the triangle introduced at that step, between which the
    accumulated polygon of that step has an edge (in one direction or the
    other); and when that polygon has at least two vertices and some edge of
    the new triangle is an edge of it, a pair is returned. *)
Theorem getSharedEdgeForStep_sound :
  forall (st : State) (k : Z),
    let newTri := nth (Z.to_nat k) (inductionTriangles st) [] in
    let accumulated := getAccumulatedPolygon st k in
    (k <= 0 \/ Z.of_nat (List.length (inductionTriangles st)) <= k ->
     getSharedEdgeForStep st k = None)
    /\ (forall a b : Point,
          getSharedEdgeForStep st k = Some (a, b) ->
          0 < k < Z.of_nat (List.length (inductionTriangles st))
          /\ (exists i : nat, (i < 3)%nat
                              /\ a = Point.at_index newTri i
                              /\ b = Point.at_index newTri ((i + 1) mod 3))
          /\ In a accumulated /\ In b accumulated
          /\ isHullEdge accumulated a b)
    /\ (0 < k < Z.of_nat (List.length (inductionTriangles st)) ->
        (2 <= List.length accumulated)%nat ->
        (exists i : nat, (i < 3)%nat
                         /\ isHullEdge accumulated (Point.at_index newTri i)
                                       (Point.at_index newTri ((i + 1) mod 3))) ->
        getSharedEdgeForStep st k <> None).
Proof.
  intros st k newTri accumulated. unfold getSharedEdgeForStep.
  fold newTri. fold accumulated. split; [|split].
  - intros Hk.
    destruct (Z.leb_spec k 0), (Z.geb_spec k (Z.of_nat (List.length (inductionTriangles st))));
      cbn [orb]; try reflexivity; lia.
  - intros a b H.
    destruct (Z.leb_spec k 0), (Z.geb_spec k (Z.of_nat (List.length (inductionTriangles st))));
      cbn [orb] in H; try discriminate.
    destruct (List.length accumulated <? 2)%nat; [discriminate|].
    destruct (find _ (seq 0 3)) as [i|] eqn:E; [|discriminate].
    injection H as <- <-. apply find_some in E as [Hi Hp]. apply in_seq in Hi.
    apply andb_prop in Hp as [Hp He]. apply andb_prop in Hp as [Ho1 Ho2].
    split; [lia|]. split; [exists i; repeat split; lia|].
    split; [now apply occursIn_iff|]. split; [now apply occursIn_iff|].
    now apply hullHasEdge_iff.
  - intros Hk Hlen (i & Hi & He).
    destruct (Z.leb_spec k 0), (Z.geb_spec k (Z.of_nat (List.length (inductionTriangles st))));
      cbn [orb]; try lia.
    destruct (Nat.ltb_spec (List.length accumulated) 2); [lia|].
    destruct (find _ (seq 0 3)) as [i'|] eqn:E; [discriminate|].
    exfalso. pose proof (find_none _ _ E i ltac:(apply in_seq; lia)) as Hf.
    cbv beta zeta in Hf.
    destruct (isHullEdge_occurs _ _ _ He) as [Ha Hb].
    apply occursIn_iff in Ha, Hb. apply hullHasEdge_iff in He.
    rewrite Ha, Hb, He in Hf. discriminate.
Qed.

Lemma getSharedEdgeForStep_sound_witness :
  isHullEdge (getAccumulatedPolygon (Induction.mkState cachedTriangles) 1)
             (pt (-2) (-1)) (pt (-1) (-2))
  /\ getSharedEdgeForStep (Induction.mkState cachedTriangles) 20 = None.
Proof.
  split.
  - apply (proj1 (proj2 (getSharedEdgeForStep_sound (Induction.mkState cachedTriangles) 1))
                 (pt (-2) (-1)) (pt (-1) (-2))).
    vm_compute. reflexivity.
  - apply (proj1 (getSharedEdgeForStep_sound (Induction.mkState cachedTriangles) 20)).
    right. vm_compute. discriminate.
Defined.

(** ** The accumulated snapshots *)

Section SnapshotAlignment.
Context {Snapshot : Type} (oracle : list Point -> Snapshot).

Lemma for_count_ext_range {St : Type} (f g : Z -> St -> St) cnt :
  forall lo st,
    (forall i st, lo <= i < lo + Z.of_nat cnt -> f i st = g i st) ->
    for_count cnt lo f st = for_count cnt lo g st.
Proof.
  induction cnt as [|cnt IH]; intros lo st Hfg; cbn [for_count]; [reflexivity|].
  rewrite Hfg by lia. apply IH. intros i st' Hi. apply Hfg. lia.
Qed.

Lemma accumulatedSnapshots_aligned (st : State) :
  (forall k : nat,
      (1 <= k <= List.length (inductionTriangles st))%nat ->
      (3 <= List.length (getAccumulatedPolygon st (Z.of_nat k)))%nat) ->
  App.accumulatedSnapshots oracle st
  = map (fun k => oracle (getAccumulatedPolygon st (Z.of_nat k)))
        (seq 1 (List.length (inductionTriangles st))).
Proof.
  intros H. unfold App.accumulatedSnapshots, for_lt.
  rewrite Z.sub_0_r, Nat2Z.id.
  rewrite (for_count_ext_range
             _ (fun i all => all ++ [oracle (getAccumulatedPolygon st (i + 1))])).
  - rewrite for_count_push. cbn [app]. unfold zrange.
    rewrite flat_map_concat_map, map_map, <- seq_shift, map_map.
    rewrite <- flat_map_concat_map.
    induction (seq 0 (List.length (inductionTriangles st))) as [|m l IH];
      [reflexivity|].
    cbn [flat_map map app]. rewrite IH. do 3 f_equal. lia.
  - intros i snapshots Hi.
    specialize (H (Z.to_nat (i + 1)) ltac:(lia)). rewrite Z2Nat.id in H by lia.
    destruct (Nat.leb_spec 3 (List.length (getAccumulatedPolygon st (i + 1))));
      [reflexivity | lia].
Qed.

End SnapshotAlignment.

(** X14.  [computeInductionSnapshots] skips the prefixes whose accumulated
    polygon has fewer than three vertices, while the sidebar and the renderer
    read the snapshot of step [k] at index [k - 1].  On the sequence cached by
    [buildInductionTriangles] nothing is skipped: whatever the oracle, there
    is one accumulated snapshot per triangle, and the one at index [k - 1] is
    the oracle's answer on [getAccumulatedPolygon k]. *)
Theorem accumulated_snapshots_aligned :
  forall (Snapshot : Type) (oracle : list Point -> Snapshot) (fuel : nat) (st : State),
    buildInductionTriangles fuel initialState = Some st ->
    List.length (App.accumulatedSnapshots oracle st)
    = List.length (inductionTriangles st)
    /\ forall k : nat,
        (1 <= k <= List.length (inductionTriangles st))%nat ->
        nth_error (App.accumulatedSnapshots oracle st) (k - 1)
        = Some (oracle (getAccumulatedPolygon st (Z.of_nat k))).
Proof.
  intros Snapshot oracle fuel st H. apply build_cached in H. subst st.
  assert (Hall : forall k : nat,
             (1 <= k <= List.length (inductionTriangles (Induction.mkState cachedTriangles)))%nat ->
             (3 <= List.length (getAccumulatedPolygon (Induction.mkState cachedTriangles)
                                                      (Z.of_nat k)))%nat).
  { intros k Hk.
    assert (Hc : forallb (fun k => (3 <=? List.length
                                           (getAccumulatedPolygon
                                              (Induction.mkState cachedTriangles)
                                              (Z.of_nat k)))%nat)
                         (seq 1 16) = true) by (vm_compute; reflexivity).
    rewrite forallb_forall in Hc. apply Nat.leb_le, Hc, in_seq.
    change (List.length (inductionTriangles (Induction.mkState cachedTriangles)))
      with 16%nat in Hk. lia. }
  rewrite (accumulatedSnapshots_aligned oracle _ Hall). split.
  - now rewrite length_map, length_seq.
  - intros k Hk.
    rewrite (nth_error_map _ (k - 1)), nth_error_seq.
    destruct (Nat.ltb_spec (k - 1) (List.length (inductionTriangles
                                                   (Induction.mkState cachedTriangles))));
      [|lia].
    cbn [option_map]. do 3 f_equal. lia.
Qed.

Lemma accumulated_snapshots_aligned_witness :
  buildInductionTriangles 15 initialState = Some (Induction.mkState cachedTriangles)
  /\ List.length (App.accumulatedSnapshots (fun poly => List.length poly)
                                           (Induction.mkState cachedTriangles))
     = 16%nat.
Proof.
  assert (E : buildInductionTriangles 15 initialState
              = Some (Induction.mkState cachedTriangles)) by (vm_compute; reflexivity).
  split; [exact E|].
  exact (proj1 (accumulated_snapshots_aligned nat (fun poly => List.length poly) 15%nat _ E)).
Defined.

(** ** The state and its listeners *)

Section AppInvariants.

Lemma setAt_some l i v :
  (i < List.length l)%nat ->
  exists l', App.setAt l i v = Some l'.
Proof.
  revert i. induction l as [|a l IH]; intros i Hi; [simpl in Hi; lia|].
  destruct i as [|i]; cbn [App.setAt]; [eauto|].
  destruct (IH i) as (l' & ->); [simpl in Hi; lia|]. cbn. eauto.
Qed.

Lemma setAt_props (P : Point -> Prop) l i v l' :
  App.setAt l i v = Some l' ->
  List.length l' = List.length l
  /\ nth_error l' i = Some v
  /\ (forall j, j <> i -> nth_error l' j = nth_error l j)
  /\ (Forall P l -> P v -> Forall P l').
Proof.
  revert i l'. induction l as [|a l IH]; intros i l' H; [discriminate|].
  destruct i as [|i]; cbn [App.setAt] in H.
  - injection H as <-. repeat split; try reflexivity.
    + intros [|j] Hj; [congruence | reflexivity].
    + intros Hl Hv. inversion Hl; subst. now constructor.
  - destruct (App.setAt l i v) as [l0|] eqn:E; [|discriminate]. injection H as <-.
    destruct (IH i l0 E) as (Hlen & Hnth & Hother & Hall).
    repeat split; cbn; auto.
    + intros [|j] Hj; [reflexivity|]. cbn. apply Hother. congruence.
    + intros Hl Hv. inversion Hl; subst. constructor; auto.
Qed.

Lemma clampVertex_inLattice v : inLattice (clampVertex v).
Proof.
  unfold inLattice, clampVertex, Constants.latticeRange. cbn [Point.x Point.y]. lia.
Qed.

Lemma start_wellFormed fuel s : App.build fuel App.initial = Some s -> wellFormed s.
Proof.
  unfold App.build. intros H.
  destruct (buildInductionTriangles fuel _) as [st|] eqn:E; [|discriminate].
  change (Induction.mkState (App.inductionTriangles App.initial)) with initialState in E.
  apply build_cached in E. subst st. injection H as <-.
  assert (Hl : forall l, forallb (fun v => (-10 <=? Point.x v) && (Point.x v <=? 10)
                                            && (-10 <=? Point.y v) && (Point.y v <=? 10)) l
                         = true -> Forall inLattice l).
  { intros l Hl. rewrite forallb_forall in Hl. apply Forall_forall. intros v Hv.
    specialize (Hl v Hv). rewrite !andb_true_iff, !Z.leb_le in Hl.
    unfold inLattice, Constants.latticeRange. lia. }
  unfold wellFormed.
  cbn [App.triangleVertices App.additiveVertices App.activeHandle App.inductionStep
       App.inductionTriangles App.initial Induction.inductionTriangles].
  split; [reflexivity|]. split; [reflexivity|].
  split; [apply Hl; reflexivity|]. split; [apply Hl; reflexivity|].
  split; [vm_compute; reflexivity|]. split; [vm_compute; reflexivity|].
  split; [intros; discriminate|]. split; [|reflexivity].
  vm_compute. split; discriminate.
Qed.

Lemma pointerdown_wellFormed within s :
  wellFormed s -> wellFormed (App.pointerdown within s).
Proof.
  intros Hs. unfold App.pointerdown.
  destruct (App.tab_eqb (App.currentTab s) App.INDUCTION); [exact Hs|].
  destruct (App.findHandle within s) as [hit|] eqn:E; [|exact Hs].
  unfold App.findHandle in E. apply find_some in E as [Hin _]. apply in_seq in Hin.
  destruct Hs as (H1 & H2 & H3 & H4 & H5 & H6 & H7 & H8 & H9).
  unfold wellFormed, App.setActiveHandle, App.getActiveVertices in *. cbn in *.
  repeat split; try assumption; try lia.
  intros h [= <-]. lia.
Qed.

Lemma pointermove_wellFormed raw s :
  wellFormed s ->
  exists s', App.pointermove raw s = Some s' /\ wellFormed s'.
Proof.
  intros Hs. pose proof Hs as (H1 & H2 & H3 & H4 & H5 & H6 & H7 & H8 & H9).
  unfold App.pointermove.
  destruct (App.activeHandle s) as [h|] eqn:Eh; [|eauto].
  specialize (H7 h eq_refl). unfold App.getActiveVertices in H7.
  destruct (App.currentTab s) eqn:Et; [| |eauto|eauto].
  - destruct (nth_error (App.triangleVertices s) h) as [previous|] eqn:En;
      [|apply nth_error_None in En; lia].
    destruct (Point.eqb previous (clampVertex raw)); [eauto|].
    destruct (setAt_some (App.triangleVertices s) h (clampVertex raw) H7) as (vs & Evs).
    rewrite Evs. cbn [option_map]. eexists. split; [reflexivity|].
    destruct (setAt_props inLattice _ _ _ _ Evs) as (Hlen & _ & _ & Hall).
    unfold wellFormed, App.getActiveVertices.
    cbn [App.triangleVertices App.additiveVertices App.activeHandle App.currentTab
         App.inductionStep App.inductionTriangles].
    split; [lia|]. split; [exact H2|].
    split; [apply Hall; [assumption | apply clampVertex_inLattice]|].
    split; [exact H4|]. split; [exact H5|]. split; [exact H6|].
    split; [intros h' [= <-]; lia|]. split; assumption.
  - destruct (nth_error (App.additiveVertices s) h) as [previous|] eqn:En;
      [|apply nth_error_None in En; lia].
    destruct (Point.eqb previous (clampVertex raw)); [eauto|].
    destruct (setAt_some (App.additiveVertices s) h (clampVertex raw) H7) as (vs & Evs).
    rewrite Evs.
    destruct (isSimplePolygon (Array vs)) eqn:Es; cbn [negb orb]; [|eauto].
    destruct (trianglesOnOppositeSides (Array vs)) eqn:Eo; cbn [negb]; [|eauto].
    eexists. split; [reflexivity|].
    destruct (setAt_props inLattice _ _ _ _ Evs) as (Hlen & _ & _ & Hall).
    unfold wellFormed, App.getActiveVertices.
    cbn [App.triangleVertices App.additiveVertices App.activeHandle App.currentTab
         App.inductionStep App.inductionTriangles].
    split; [exact H1|]. split; [lia|]. split; [exact H3|].
    split; [apply Hall; [assumption | apply clampVertex_inLattice]|].
    split; [exact Es|]. split; [exact Eo|].
    split; [intros h' [= <-]; lia|]. split; assumption.
Qed.

Lemma tabClick_wellFormed target s :
  wellFormed s -> wellFormed (App.tabClick target s).
Proof.
  intros Hs. unfold App.tabClick. destruct target as [target|]; [|exact Hs].
  destruct (App.emptyName target || App.tab_eqb target (App.currentTab s)); [exact Hs|].
  destruct Hs as (H1 & H2 & H3 & H4 & H5 & H6 & H7 & H8 & H9).
  unfold wellFormed. cbn. repeat split; try assumption; try lia. intros; discriminate.
Qed.

Lemma handle_wellFormed e s :
  wellFormed s -> exists s', App.handle e s = Some s' /\ wellFormed s'.
Proof.
  intros Hs. destruct e; cbn [App.handle].
  - eexists. split; [reflexivity | now apply pointerdown_wellFormed].
  - now apply pointermove_wellFormed.
  - eexists. split; [reflexivity|].
    destruct Hs as (H1 & H2 & H3 & H4 & H5 & H6 & H7 & H8 & H9).
    unfold wellFormed. cbn. repeat split; try assumption; try lia. intros; discriminate.
  - eexists. split; [reflexivity | now apply tabClick_wellFormed].
  - eexists. split; [reflexivity|].
    destruct Hs as (H1 & H2 & H3 & H4 & H5 & H6 & H7 & H8 & H9).
    unfold App.prevClick. destruct (Z.gtb_spec (App.inductionStep s) 0);
      unfold wellFormed; cbn; repeat split; try assumption; lia.
  - eexists. split; [reflexivity|].
    destruct Hs as (H1 & H2 & H3 & H4 & H5 & H6 & H7 & H8 & H9).
    unfold App.nextClick.
    destruct (Z.ltb_spec (App.inductionStep s)
                         (Z.of_nat (List.length (App.inductionTriangles s))));
      unfold wellFormed; cbn; repeat split; try assumption; lia.
  - eexists. split; [reflexivity|].
    destruct Hs as (H1 & H2 & H3 & H4 & H5 & H6 & H7 & H8 & H9).
    unfold wellFormed. cbn. repeat split; try assumption; lia.
Qed.

End AppInvariants.

(** X15.  In every state the application can reach through its listeners
    (pointer down, move and up, tab clicks, the three induction buttons), in
    any order and with any pointer positions: the triangle has three and the
    additive quadrilateral four vertices, all inside the lattice square; the
    quadrilateral passes both [isSimplePolygon] and
    [trianglesOnOppositeSides] (a move that would break either is undone);
    an active handle is an index of the vertex list being edited; the
    induction step stays between 0 and the number of cached triangles, which
    are the ones built at start-up.  No listener writes outside a vertex
    list. *)
Theorem reachable_states_wellFormed :
  forall s : App.State,
    reachable s ->
    wellFormed s
    /\ forall e : App.Event, exists s', App.handle e s = Some s' /\ wellFormed s'.
Proof.
  intros s Hr.
  assert (Hw : wellFormed s).
  { induction Hr as [fuel s Hb | e s s' _ IH He].
    - now apply (start_wellFormed fuel).
    - destruct (handle_wellFormed e s IH) as (s'' & E & Hw). congruence. }
  split; [exact Hw|]. intros e. now apply handle_wellFormed.
Qed.

Lemma reachable_states_wellFormed_witness :
  exists s : App.State,
    App.build 15 App.initial = Some s
    /\ reachable s
    /\ wellFormed s.
Proof.
  destruct (App.build 15 App.initial) as [s|] eqn:E; [|vm_compute in E; discriminate].
  assert (Hr : reachable s) by (now apply (reachable_start 15)).
  exists s. split; [reflexivity|]. split; [exact Hr|].
  exact (proj1 (reachable_states_wellFormed s Hr)).
Defined.

(** ** Escaping markup *)

Section Escaping.

Lemma string_app_assoc (a b c : string) : (a ++ (b ++ c) = (a ++ b) ++ c)%string.
Proof. induction a as [|x a IH]; cbn [append]; [reflexivity | now rewrite IH]. Qed.

Lemma replaceAll_append c by_ s t :
  Katex.replaceAll c by_ (s ++ t)
  = (Katex.replaceAll c by_ s ++ Katex.replaceAll c by_ t)%string.
Proof.
  induction s as [|a s IH]; cbn [Katex.replaceAll append]; [reflexivity|].
  rewrite IH. destruct (Ascii.eqb a c); [apply string_app_assoc | reflexivity].
Qed.

Lemma escapeHtml_cons a s :
  Katex.escapeHtml (String a s) = (escapeChar a ++ Katex.escapeHtml s)%string.
Proof.
  unfold Katex.escapeHtml, escapeChar. cbn [Katex.replaceAll].
  destruct (Ascii.eqb_spec a "&") as [-> | Hamp].
  { now rewrite !replaceAll_append. }
  cbn [Katex.replaceAll].
  destruct (Ascii.eqb_spec a "<") as [-> | Hlt].
  { now rewrite !replaceAll_append. }
  cbn [Katex.replaceAll].
  destruct (Ascii.eqb_spec a ">") as [-> | Hgt].
  { now rewrite !replaceAll_append. }
  cbn [Katex.replaceAll].
  destruct (Ascii.eqb_spec a "034") as [-> | Hq]; reflexivity.
Qed.

Lemma escapeHtml_each s : Katex.escapeHtml s = escapeEach s.
Proof.
  induction s as [|a s IH]; [reflexivity|].
  now rewrite escapeHtml_cons, IH.
Qed.

Lemma escapeEach_append s t :
  escapeEach (s ++ t) = (escapeEach s ++ escapeEach t)%string.
Proof.
  induction s as [|a s IH]; cbn [escapeEach append]; [reflexivity|].
  rewrite IH. apply string_app_assoc.
Qed.

Lemma escapeChar_avoids (c a : ascii) :
  In c ["<"; ">"; "034"]%char -> avoids c (escapeChar a) = true.
Proof.
  intros Hc. unfold escapeChar.
  destruct (Ascii.eqb_spec a "&"); [destruct Hc as [<- | [<- | [<- | []]]]; reflexivity|].
  destruct (Ascii.eqb_spec a "<"); [destruct Hc as [<- | [<- | [<- | []]]]; reflexivity|].
  destruct (Ascii.eqb_spec a ">"); [destruct Hc as [<- | [<- | [<- | []]]]; reflexivity|].
  destruct (Ascii.eqb_spec a "034");
    [destruct Hc as [<- | [<- | [<- | []]]]; reflexivity|].
  cbn [avoids]. rewrite andb_true_r. apply negb_true_iff, Ascii.eqb_neq.
  destruct Hc as [<- | [<- | [<- | []]]]; assumption.
Qed.

Lemma escapeEach_avoids c s :
  In c ["<"; ">"; "034"]%char -> avoids c (escapeEach s) = true.
Proof.
  intros Hc. induction s as [|a s IH]; [reflexivity|].
  cbn [escapeEach]. now rewrite avoids_append, escapeChar_avoids, IH.
Qed.

Lemma unescape_escapeEach s : unescapeHtml (escapeEach s) = s.
Proof.
  induction s as [|a s IH]; [reflexivity|].
  cbn [escapeEach]. unfold escapeChar.
  destruct (Ascii.eqb_spec a "&") as [-> | Hamp]; [cbn; now rewrite IH|].
  destruct (Ascii.eqb_spec a "<") as [-> | Hlt]; [cbn; now rewrite IH|].
  destruct (Ascii.eqb_spec a ">") as [-> | Hgt]; [cbn; now rewrite IH|].
  destruct (Ascii.eqb_spec a "034") as [-> | Hq]; [cbn; now rewrite IH|].
  cbn [append unescapeHtml].
  rewrite (proj2 (Ascii.eqb_neq a "&") Hamp). now rewrite IH.
Qed.

End Escaping.

(** X16.  The four chained replacements of [escapeHtml] amount to escaping each
    character once (the ampersands the later replacements introduce are not
    escaped again, the ampersand being replaced first); the result contains
    no [<], no [>] and no double quote; it is the concatenation of the
    results on the parts of the input; and the input can be read back from it,
    so that different inputs give different outputs. *)
Theorem escapeHtml_escapes_once :
  (forall s : string, Katex.escapeHtml s = escapeEach s)
  /\ (forall s : string,
        avoids "<" (Katex.escapeHtml s) = true
        /\ avoids ">" (Katex.escapeHtml s) = true
        /\ avoids "034" (Katex.escapeHtml s) = true)
  /\ (forall s t : string,
        Katex.escapeHtml (s ++ t) = (Katex.escapeHtml s ++ Katex.escapeHtml t)%string)
  /\ (forall s : string, unescapeHtml (Katex.escapeHtml s) = s)
  /\ (forall s t : string, Katex.escapeHtml s = Katex.escapeHtml t -> s = t).
Proof.
  split; [exact escapeHtml_each|]. split.
  { intros s. rewrite escapeHtml_each.
    repeat split; apply escapeEach_avoids; cbn; auto. }
  split.
  { intros s t. rewrite !escapeHtml_each. apply escapeEach_append. }
  assert (Hu : forall s, unescapeHtml (Katex.escapeHtml s) = s)
    by (intros s; rewrite escapeHtml_each; apply unescape_escapeEach).
  split; [exact Hu|].
  intros s t H. rewrite <- (Hu s), <- (Hu t). now rewrite H.
Qed.

Lemma escapeHtml_escapes_once_witness :
  Katex.escapeHtml "a<b" = Katex.escapeHtml "a<b" /\ "a<b"%string = "a<b"%string.
Proof.
  split; [reflexivity|].
  exact (proj2 (proj2 (proj2 (proj2 escapeHtml_escapes_once))) "a<b"%string "a<b"%string
               eq_refl).
Defined.

(** ** Polygons do not depend on where their vertex list starts, nor on
    its direction *)

Section Reindexing.

Lemma edge_rev vs i :
  (i < List.length vs)%nat ->
  edgeStart (rev vs) i = edgeEnd vs (mirror (List.length vs) i)
  /\ edgeEnd (rev vs) i = edgeStart vs (mirror (List.length vs) i).
Proof.
  intros Hi. unfold edgeStart, edgeEnd, Point.at_index, mirror.
  rewrite length_rev, (wrap_succ _ i Hi).
  assert (Hn : forall k, (k < List.length vs)%nat ->
                         nth k (rev vs) (pt 0 0)
                         = nth (List.length vs - S k) vs (pt 0 0))
    by (intros k Hk; now apply rev_nth).
  destruct (Nat.eqb_spec i (List.length vs - 1)) as [E|E].
  - rewrite (wrap_succ _ (List.length vs - 1)) by lia.
    destruct (Nat.eqb_spec (i + 1) (List.length vs)); [|lia].
    destruct (Nat.eqb_spec (List.length vs - 1 + 1) (List.length vs)); [|lia].
    rewrite !Hn by lia. split; f_equal; lia.
  - rewrite (wrap_succ _ (List.length vs - 2 - i)) by lia.
    destruct (Nat.eqb_spec (i + 1) (List.length vs)); [lia|].
    destruct (Nat.eqb_spec (List.length vs - 2 - i + 1) (List.length vs)); [lia|].
    rewrite !Hn by lia. split; f_equal; lia.
Qed.

Lemma mirror_lt n i : (i < n)%nat -> (mirror n i < n)%nat.
Proof. unfold mirror. destruct (Nat.eqb_spec i (n - 1)); lia. Qed.

Lemma mirror_involutive n i : (i < n)%nat -> mirror n (mirror n i) = i.
Proof.
  unfold mirror. intros Hi.
  destruct (Nat.eqb_spec i (n - 1)) as [E|E].
  - destruct (Nat.eqb_spec (n - 1) (n - 1)); lia.
  - destruct (Nat.eqb_spec (n - 2 - i) (n - 1)); lia.
Qed.

Lemma edge_rotate1 vs i :
  (i < List.length vs)%nat ->
  edgeStart (rotate1 vs) i = edgeStart vs ((i + 1) mod List.length vs)
  /\ edgeEnd (rotate1 vs) i = edgeEnd vs ((i + 1) mod List.length vs).
Proof.
  intros Hi. destruct vs as [|a l]; [simpl in Hi; lia|].
  unfold edgeStart, edgeEnd, Point.at_index, rotate1.
  assert (Hlen : List.length (l ++ [a]) = List.length (a :: l))
    by (rewrite length_app; simpl; lia).
  rewrite Hlen.
  assert (Hn : forall k, (k < List.length (a :: l))%nat ->
                         nth k (l ++ [a]) (pt 0 0)
                         = nth ((k + 1) mod List.length (a :: l)) (a :: l) (pt 0 0)).
  { intros k Hk. rewrite (wrap_succ _ k Hk).
    destruct (Nat.eqb_spec (k + 1) (List.length (a :: l))) as [E|E].
    - cbn [List.length] in E. rewrite app_nth2 by lia.
      replace (k - List.length l)%nat with 0%nat by lia. reflexivity.
    - cbn [List.length] in *. rewrite app_nth1 by lia.
      replace (k + 1)%nat with (S k) by lia. reflexivity. }
  split; [now apply Hn|].
  apply Hn, Nat.mod_upper_bound. discriminate.
Qed.

Lemma sampledOnEdge_swap s e p : sampledOnEdge s e p <-> sampledOnEdge e s p.
Proof.
  rewrite !sampled_onEdge.
  assert (H : forall a b c, isPointOnEdge a b c = isPointOnEdge a c b).
  { intros a b c. unfold isPointOnEdge. cbv zeta.
    rewrite (Z.min_comm (Point.x b)), (Z.max_comm (Point.x b)),
      (Z.min_comm (Point.y b)), (Z.max_comm (Point.y b)).
    destruct (Z.eqb_spec ((Point.x a - Point.x b) * (Point.y c - Point.y b)
                          - (Point.y a - Point.y b) * (Point.x c - Point.x b)) 0),
             (Z.eqb_spec ((Point.x a - Point.x c) * (Point.y b - Point.y c)
                          - (Point.y a - Point.y c) * (Point.x b - Point.x c)) 0);
      cbn [negb]; try reflexivity; lia. }
  now rewrite H.
Qed.

Lemma sampledOnBoundary_rev vs p :
  sampledOnBoundary (rev vs) p <-> sampledOnBoundary vs p.
Proof.
  unfold sampledOnBoundary. rewrite length_rev. split.
  - intros (i & Hi & H). destruct (edge_rev vs i Hi) as [Es Ee].
    rewrite Es, Ee in H. exists (mirror (List.length vs) i).
    split; [now apply mirror_lt | now apply sampledOnEdge_swap].
  - intros (i & Hi & H). exists (mirror (List.length vs) i).
    split; [now apply mirror_lt|].
    destruct (edge_rev vs (mirror (List.length vs) i)) as [Es Ee];
      [now apply mirror_lt|].
    rewrite Es, Ee, mirror_involutive by exact Hi. now apply sampledOnEdge_swap.
Qed.

Lemma rotate1_length vs : List.length (rotate1 vs) = List.length vs.
Proof. destruct vs; [reflexivity|]. cbn. rewrite length_app. simpl. lia. Qed.

Lemma sampledOnBoundary_rotate1 vs p :
  sampledOnBoundary (rotate1 vs) p <-> sampledOnBoundary vs p.
Proof.
  unfold sampledOnBoundary. rewrite rotate1_length. split.
  - intros (i & Hi & H). destruct (edge_rotate1 vs i Hi) as [Es Ee].
    rewrite Es, Ee in H. exists ((i + 1) mod List.length vs)%nat.
    split; [apply Nat.mod_upper_bound; lia | exact H].
  - intros (i & Hi & H).
    exists (if (i =? 0)%nat then (List.length vs - 1)%nat else (i - 1)%nat).
    assert (Hj : ((if (i =? 0)%nat then List.length vs - 1 else i - 1) < List.length vs)%nat)
      by (destruct (Nat.eqb_spec i 0); lia).
    split; [exact Hj|].
    destruct (edge_rotate1 vs _ Hj) as [Es Ee]. rewrite Es, Ee.
    replace (((if (i =? 0)%nat then List.length vs - 1 else i - 1) + 1)
               mod List.length vs)%nat with i; [exact H|].
    destruct (Nat.eqb_spec i 0) as [-> | Hne].
    + replace (List.length vs - 1 + 1)%nat with (List.length vs) by lia.
      now rewrite Nat.Div0.mod_same.
    + replace (i - 1 + 1)%nat with i by lia. now rewrite Nat.mod_small.
Qed.

Lemma sorted_unique (l1 l2 : list (Z * Z)) :
  StronglySorted lexLt l1 -> StronglySorted lexLt l2 ->
  (forall p, In p l1 <-> In p l2) -> l1 = l2.
Proof.
  intros H1. revert l2. induction H1 as [|a l1 Hs1 IH Ha]; intros l2 H2 Hin.
  - destruct l2 as [|b l2]; [reflexivity|]. exfalso. apply (Hin b). now left.
  - destruct H2 as [|b l2 Hs2 Hb]; [exfalso; apply (Hin a); now left|].
    rewrite Forall_forall in Ha, Hb.
    assert (Hirr : forall u, ~ lexLt u u) by (unfold lexLt; intros u; lia).
    assert (Hasym : forall u v, lexLt u v -> lexLt v u -> False)
      by (unfold lexLt; intros u v; lia).
    assert (a = b).
    { destruct (proj1 (Hin a) (or_introl eq_refl)) as [E | Hab]; [now symmetry|].
      destruct (proj2 (Hin b) (or_introl eq_refl)) as [E | Hba]; [exact E|].
      exfalso. apply (Hasym a b); [now apply Ha | now apply Hb]. }
    subst b. f_equal. apply IH; [exact Hs2|].
    intros p. split; intros Hp.
    + destruct (proj1 (Hin p) (or_intror Hp)) as [<- | H]; [|exact H].
      exfalso. apply (Hirr a). now apply Ha.
    + destruct (proj2 (Hin p) (or_intror Hp)) as [<- | H]; [|exact H].
      exfalso. apply (Hirr a). now apply Hb.
Qed.

End Reindexing.

(** X17.  [collectBoundaryPoints] depends on the closed polygon only: it
    returns the same list for the reversed vertex list and for the vertex
    list started one vertex later (hence at any vertex); and every vertex of
    the input is among the points it returns. *)
Theorem collectBoundaryPoints_closed_polygon :
  forall vs : list Point,
    collectBoundaryPoints (rev vs) = collectBoundaryPoints vs
    /\ collectBoundaryPoints (rotate1 vs) = collectBoundaryPoints vs
    /\ exists r : list (Z * Z),
        collectBoundaryPoints vs = Some r
        /\ forall v : Point, In v vs -> In (Point.x v, Point.y v) r.
Proof.
  intros vs.
  destruct (collectBoundaryPoints_correct vs) as (r & Er & Hs & Hin).
  destruct (collectBoundaryPoints_correct (rev vs)) as (r1 & Er1 & Hs1 & Hin1).
  destruct (collectBoundaryPoints_correct (rotate1 vs)) as (r2 & Er2 & Hs2 & Hin2).
  rewrite Er, Er1, Er2. split; [|split].
  - f_equal. apply sorted_unique; try assumption.
    intros p. now rewrite Hin1, Hin, sampledOnBoundary_rev.
  - f_equal. apply sorted_unique; try assumption.
    intros p. now rewrite Hin2, Hin, sampledOnBoundary_rotate1.
  - exists r. split; [reflexivity|]. intros v Hv. apply Hin.
    destruct (In_nth _ _ (pt 0 0) Hv) as (i & Hi & E).
    exists i. split; [exact Hi|]. exists 0. split.
    + split; [lia|]. unfold edgeSteps. apply Z.gcd_nonneg.
    + unfold edgeSample, edgeStart, Point.at_index. rewrite E. f_equal; lia.
Qed.

Lemma collectBoundaryPoints_closed_polygon_witness :
  In (pt 2 2) [pt 0 0; pt 2 2]
  /\ exists r, collectBoundaryPoints [pt 0 0; pt 2 2] = Some r /\ In (2, 2) r.
Proof.
  assert (H : In (pt 2 2) [pt 0 0; pt 2 2]) by (right; left; reflexivity).
  split; [exact H|].
  destruct (proj2 (proj2 (collectBoundaryPoints_closed_polygon [pt 0 0; pt 2 2])))
    as (r & Er & Hr).
  exists r. split; [exact Er | exact (Hr _ H)].
Defined.

Section AreaReindexing.

Lemma for_count_sum (f : Z -> Z) cnt :
  forall lo acc,
    for_count cnt lo (fun i acc => acc + f i) acc
    = acc + zsum (map (fun k => f (lo + Z.of_nat k)) (seq 0 cnt)).
Proof.
  induction cnt as [|cnt IH]; intros lo acc; [simpl; lia|].
  cbn [for_count]. rewrite IH. cbn [seq map zsum fold_right].
  rewrite <- seq_shift, map_map. fold (zsum (map (fun k => f (lo + Z.of_nat (S k)))
                                                 (seq 0 cnt))).
  rewrite Z.add_0_r.
  replace (map (fun k => f (lo + 1 + Z.of_nat k)) (seq 0 cnt))
    with (map (fun k => f (lo + Z.of_nat (S k))) (seq 0 cnt)); [lia|].
  apply map_ext. intros k. f_equal. lia.
Qed.

Lemma area2_sum vs :
  area2 vs = zsum (map (fun i => cross (edgeStart vs i) (edgeEnd vs i))
                       (seq 0 (List.length vs))).
Proof.
  unfold area2, for_lt. cbv zeta. rewrite Z.sub_0_r, Nat2Z.id.
  rewrite (for_count_sum
             (fun i => cross (Point.at_index vs (Z.to_nat i))
                             (Point.at_index vs (Z.to_nat ((i + 1)
                                                            mod Z.of_nat (List.length vs)))))).
  rewrite Z.add_0_l. f_equal. apply map_ext. intros k.
  unfold edgeStart, edgeEnd. cbn [Z.add]. now rewrite Nat2Z.id, wrap_index.
Qed.

Lemma zsum_perm l l' : Permutation l l' -> zsum l = zsum l'.
Proof. unfold zsum. induction 1; simpl; lia. Qed.

Lemma reindex_perm (sigma : nat -> nat) n :
  (forall i, (i < n)%nat -> (sigma i < n)%nat) ->
  (forall i j, (i < n)%nat -> (j < n)%nat -> sigma i = sigma j -> i = j) ->
  Permutation (map sigma (seq 0 n)) (seq 0 n).
Proof.
  intros Hlt Hinj. apply NoDup_Permutation_bis.
  - apply Injective_map_NoDup_in; [|apply seq_NoDup].
    intros i j Hi Hj. apply in_seq in Hi, Hj. apply Hinj; lia.
  - now rewrite length_map.
  - intros k Hk. apply in_map_iff in Hk as (i & <- & Hi). apply in_seq in Hi.
    apply in_seq. specialize (Hlt i). lia.
Qed.

Lemma zsum_reindex (g : nat -> Z) (sigma : nat -> nat) n :
  (forall i, (i < n)%nat -> (sigma i < n)%nat) ->
  (forall i j, (i < n)%nat -> (j < n)%nat -> sigma i = sigma j -> i = j) ->
  zsum (map (fun i => g (sigma i)) (seq 0 n)) = zsum (map g (seq 0 n)).
Proof.
  intros Hlt Hinj. rewrite <- (map_map sigma g).
  apply zsum_perm, Permutation_map, reindex_perm; assumption.
Qed.

Lemma zsum_opp (g : nat -> Z) l : zsum (map (fun i => - g i) l) = - zsum (map g l).
Proof. unfold zsum. induction l as [|a l IH]; simpl; lia. Qed.

Lemma shift_lt n i : (i < n)%nat -> (shift n i < n)%nat.
Proof. intros. unfold shift. apply Nat.mod_upper_bound. lia. Qed.

Lemma unshift_lt n i : (i < n)%nat -> (unshift n i < n)%nat.
Proof. unfold unshift. destruct (Nat.eqb_spec i 0); lia. Qed.

Lemma shift_unshift n i : (i < n)%nat -> shift n (unshift n i) = i.
Proof.
  intros Hi. unfold shift, unshift.
  destruct (Nat.eqb_spec i 0) as [-> | Hne]; rewrite wrap_succ by lia.
  - destruct (Nat.eqb_spec (n - 1 + 1) n); lia.
  - destruct (Nat.eqb_spec (i - 1 + 1) n); lia.
Qed.

Lemma unshift_shift n i : (i < n)%nat -> unshift n (shift n i) = i.
Proof.
  intros Hi. unfold shift, unshift. rewrite wrap_succ by lia.
  destruct (Nat.eqb_spec (i + 1) n) as [E|E].
  - cbn [Nat.eqb]. lia.
  - destruct (Nat.eqb_spec (i + 1) 0); lia.
Qed.

Lemma area2_rev vs : area2 (rev vs) = - area2 vs.
Proof.
  rewrite !area2_sum, length_rev.
  rewrite <- zsum_opp.
  rewrite <- (zsum_reindex (fun i => - cross (edgeStart vs i) (edgeEnd vs i))
                           (mirror (List.length vs))).
  - f_equal. apply map_ext_in. intros i Hi. apply in_seq in Hi.
    destruct (edge_rev vs i) as [-> ->]; [lia|]. unfold cross. ring.
  - intros i Hi. now apply mirror_lt.
  - intros i j Hi Hj E. rewrite <- (mirror_involutive _ i Hi), E.
    now apply mirror_involutive.
Qed.

Lemma area2_rotate1 vs : area2 (rotate1 vs) = area2 vs.
Proof.
  rewrite !area2_sum, rotate1_length.
  rewrite <- (zsum_reindex (fun i => cross (edgeStart vs i) (edgeEnd vs i))
                           (shift (List.length vs))).
  - f_equal. apply map_ext_in. intros i Hi. apply in_seq in Hi.
    destruct (edge_rotate1 vs i) as [-> ->]; [lia|]. reflexivity.
  - intros i Hi. now apply shift_lt.
  - intros i j Hi Hj E. rewrite <- (unshift_shift _ i Hi), E.
    now apply unshift_shift.
Qed.

Lemma segmentsIntersect_flip_r p1 p2 p3 p4 :
  segmentsIntersect p1 p2 p4 p3 = segmentsIntersect p1 p2 p3 p4.
Proof.
  rewrite (segmentsIntersect_sym p1 p2 p4 p3), segmentsIntersect_flip.
  symmetry. apply segmentsIntersect_sym.
Qed.

Lemma neighbours_mirror n i j :
  (i < n)%nat -> (j < n)%nat ->
  neighbours n (mirror n i) (mirror n j) -> neighbours n i j.
Proof.
  unfold neighbours, mirror. intros Hi Hj.
  destruct (Nat.eqb_spec i (n - 1)), (Nat.eqb_spec j (n - 1)); lia.
Qed.

Lemma neighbours_shift n i j :
  (i < n)%nat -> (j < n)%nat ->
  neighbours n (shift n i) (shift n j) -> neighbours n i j.
Proof.
  unfold neighbours, shift. intros Hi Hj. rewrite !wrap_succ by lia.
  destruct (Nat.eqb_spec (i + 1) n), (Nat.eqb_spec (j + 1) n); lia.
Qed.

Lemma neighbours_unshift n i j :
  (i < n)%nat -> (j < n)%nat ->
  neighbours n (unshift n i) (unshift n j) -> neighbours n i j.
Proof.
  unfold neighbours, unshift. intros Hi Hj.
  destruct (Nat.eqb_spec i 0), (Nat.eqb_spec j 0); lia.
Qed.

Lemma noCrossing_rev_1 vs : noCrossing vs -> noCrossing (rev vs).
Proof.
  intros H i j Hi Hj Hn. rewrite length_rev in *.
  destruct (edge_rev vs i Hi) as [-> ->]. destruct (edge_rev vs j Hj) as [-> ->].
  rewrite segmentsIntersect_flip, segmentsIntersect_flip_r.
  apply H; try now apply mirror_lt.
  intros Hm. apply Hn. now apply neighbours_mirror.
Qed.

Lemma noCrossing_rev vs : noCrossing (rev vs) <-> noCrossing vs.
Proof.
  split; [|apply noCrossing_rev_1].
  intros H. rewrite <- (rev_involutive vs). now apply noCrossing_rev_1.
Qed.

Lemma noCrossing_rotate1 vs : noCrossing (rotate1 vs) <-> noCrossing vs.
Proof.
  split.
  - intros H i j Hi Hj Hn.
    specialize (H (unshift (List.length vs) i) (unshift (List.length vs) j)).
    rewrite rotate1_length in H.
    destruct (edge_rotate1 vs (unshift (List.length vs) i)) as [Es Ee];
      [now apply unshift_lt|].
    destruct (edge_rotate1 vs (unshift (List.length vs) j)) as [Es' Ee'];
      [now apply unshift_lt|].
    rewrite Es, Ee, Es', Ee' in H.
    fold (shift (List.length vs) (unshift (List.length vs) i)) in H.
    fold (shift (List.length vs) (unshift (List.length vs) j)) in H.
    rewrite !shift_unshift in H by assumption.
    apply H; try now apply unshift_lt.
    intros Hm. apply Hn. now apply neighbours_unshift.
  - intros H i j Hi Hj Hn. rewrite rotate1_length in *.
    destruct (edge_rotate1 vs i Hi) as [-> ->].
    destruct (edge_rotate1 vs j Hj) as [-> ->].
    apply H; try now apply shift_lt.
    intros Hm. apply Hn. now apply neighbours_shift.
Qed.

Lemma rotate1_NoDup vs : NoDup (rotate1 vs) <-> NoDup vs.
Proof.
  destruct vs as [|a l]; [reflexivity|]. cbn [rotate1].
  split; intros H.
  - apply (Permutation_NoDup (l := l ++ [a])); [|exact H].
    symmetry. apply Permutation_cons_append.
  - apply (Permutation_NoDup (l := a :: l)); [|exact H].
    apply Permutation_cons_append.
Qed.

Lemma bool_ext (a b : bool) : (a = true <-> b = true) -> a = b.
Proof. destruct a, b; intuition congruence. Qed.

End AreaReindexing.

(** X18.  Reversing a vertex list negates [polygonAreaValue] and starting the
    list one vertex later leaves it unchanged; [isSimplePolygon] gives the
    same answer for a vertex list, for the reversed list and for the list
    started one vertex later (hence at any vertex): whether an edit is
    accepted does not depend on how the polygon is listed. *)
Theorem isSimplePolygon_closed_polygon :
  forall vs : list Point,
    (polygonAreaValue (Array (rev vs)) == - polygonAreaValue (Array vs))%Q
    /\ polygonAreaValue (Array (rotate1 vs)) = polygonAreaValue (Array vs)
    /\ isSimplePolygon (Array (rev vs)) = isSimplePolygon (Array vs)
    /\ isSimplePolygon (Array (rotate1 vs)) = isSimplePolygon (Array vs).
Proof.
  intros vs.
  assert (Ha : (polygonAreaValue (Array (rev vs)) == - polygonAreaValue (Array vs))%Q).
  { unfold polygonAreaValue. rewrite length_rev.
    destruct (List.length vs <? 3)%nat; [reflexivity|].
    rewrite area2_rev, inject_Z_opp. field. }
  assert (Hb : polygonAreaValue (Array (rotate1 vs)) = polygonAreaValue (Array vs)).
  { unfold polygonAreaValue. rewrite rotate1_length.
    destruct (List.length vs <? 3)%nat; [reflexivity|]. now rewrite area2_rotate1. }
  split; [exact Ha|]. split; [exact Hb|].
  destruct (Nat.lt_ge_cases (List.length vs) 3) as [Hlt|Hge].
  - assert (Hf : forall l : list Point, (List.length l < 3)%nat ->
                                        isSimplePolygon (Array l) = false).
    { intros l Hl. unfold isSimplePolygon.
      destruct (Nat.ltb_spec (List.length l) 3); [reflexivity | lia]. }
    rewrite !Hf; auto; now rewrite ?length_rev, ?rotate1_length.
  - split; apply bool_ext.
    + rewrite !isSimplePolygon_iff by now rewrite ?length_rev.
      rewrite noCrossing_rev, Ha, Qabs_opp.
      split; intros (Hn & Hq & Hc); repeat split; try assumption.
      * rewrite <- (rev_involutive vs). now apply NoDup_rev.
      * now apply NoDup_rev.
    + rewrite !isSimplePolygon_iff by now rewrite ?rotate1_length.
      now rewrite noCrossing_rotate1, Hb, rotate1_NoDup.
Qed.

(** ** Keys do not depend on the order of the vertices *)

Section KeyOrder.

Lemma string_leb_trans (s1 s2 s3 : string) :
  String.leb s1 s2 = true -> String.leb s2 s3 = true -> String.leb s1 s3 = true.
Proof.
  unfold String.leb. revert s2 s3.
  induction s1 as [|c1 s1 IH]; intros [|c2 s2] [|c3 s3]; cbn [String.compare];
    try reflexivity; try discriminate.
  unfold Ascii.compare.
  destruct (N.compare_spec (N_of_ascii c1) (N_of_ascii c2)),
           (N.compare_spec (N_of_ascii c2) (N_of_ascii c3)),
           (N.compare_spec (N_of_ascii c1) (N_of_ascii c3));
    try reflexivity; try discriminate; try lia.
  apply IH.
Qed.

Lemma sorted_perm_eq {A : Type} (le : A -> A -> bool) :
  (forall a b, le a b = true -> le b a = true -> a = b) ->
  forall l1 l2,
    StronglySorted (fun u v => le u v = true) l1 ->
    StronglySorted (fun u v => le u v = true) l2 ->
    Permutation l1 l2 -> l1 = l2.
Proof.
  intros Hanti l1. induction l1 as [|a l1 IH]; intros l2 H1 H2 Hp.
  - apply Permutation_nil in Hp. now subst.
  - destruct l2 as [|b l2]; [symmetry in Hp; now apply Permutation_nil in Hp|].
    inversion H1 as [|? ? Hs1 Ha]; subst. inversion H2 as [|? ? Hs2 Hb]; subst.
    rewrite Forall_forall in Ha, Hb.
    assert (a = b).
    { assert (Hina : In a (b :: l2)) by (apply (Permutation_in _ Hp); now left).
      assert (Hinb : In b (a :: l1))
        by (apply (Permutation_in _ (Permutation_sym Hp)); now left).
      destruct Hina as [E | Hina]; [now symmetry|].
      destruct Hinb as [E | Hinb]; [exact E|].
      apply Hanti; [now apply Ha | now apply Hb]. }
    subst b. f_equal. apply IH; try assumption.
    now apply Permutation_cons_inv in Hp.
Qed.

Lemma sort_perm (l1 l2 : list string) : Permutation l1 l2 -> sort l1 = sort l2.
Proof.
  intros Hp. unfold sort. apply (sorted_perm_eq String.leb).
  - intros a b. apply String.leb_antisym.
  - apply sortBy_sorted; [apply String.leb_total | apply string_leb_trans].
  - apply sortBy_sorted; [apply String.leb_total | apply string_leb_trans].
  - rewrite !sortBy_perm. exact Hp.
Qed.

End KeyOrder.

(** X19.  [getKey] identifies a triangle by its set of vertices, whatever their
    order: two vertex lists (the first not empty) have the same key exactly
    when one is a permutation of the other. *)
Theorem getKey_unordered :
  forall vs1 vs2 : list Point,
    vs1 <> [] ->
    (getKey vs1 = getKey vs2 <-> Permutation vs1 vs2).
Proof.
  intros vs1 vs2 Hne. split; [now apply getKey_perm|].
  intros Hp. unfold getKey. f_equal. apply sort_perm. now apply Permutation_map.
Qed.

Lemma getKey_unordered_witness :
  [pt 0 0; pt 1 0; pt 0 1] <> []
  /\ getKey [pt 0 0; pt 1 0; pt 0 1] = getKey [pt 0 1; pt 0 0; pt 1 0].
Proof.
  assert (H : [pt 0 0; pt 1 0; pt 0 1] <> []) by discriminate.
  split; [exact H|].
  apply (proj2 (getKey_unordered [pt 0 0; pt 1 0; pt 0 1] [pt 0 1; pt 0 0; pt 1 0] H)).
  apply Permutation_sym.
  exact (Permutation_cons_append [pt 0 0; pt 1 0] (pt 0 1)).
Defined.

(** X20.  The coordinate keys in which the engine stores points in its sets
    ([`${x},${y}`]) can be decoded: splitting a key at the comma and applying
    [Number] gives back the coordinates, for negative coordinates as well, so
    different points have different keys. *)
Theorem coordinate_key_round_trip :
  (forall p : Point, Point.parse (Point.key p) = p)
  /\ (forall p : Point, parsePair (Point.key p) = (Point.x p, Point.y p))
  /\ (forall p q : Point, Point.key p = Point.key q <-> p = q)
  /\ (forall z : Z, Number (numToString z) = z)
  /\ Point.key (pt (-2) 13) = "-2,13"%string.
Proof.
  split; [exact parse_key|]. split; [exact parsePair_key|].
  split; [|split; [exact Number_numToString | reflexivity]].
  intros p q. split; [apply key_inj | now intros ->].
Qed.

(** ** The two triangles of the additive quadrilateral *)

Section Additive.

Lemma area2_quad a b c d :
  area2 [a; b; c; d] = cross a b + cross b c + cross c d + cross d a.
Proof. reflexivity. Qed.

Lemma Qabs_half z : (Qabs (inject_Z z / 2) == inject_Z (Z.abs z) / 2)%Q.
Proof.
  unfold Qdiv. rewrite Qabs_Qmult. change (Qabs (/ 2)) with (/ 2)%Q.
  apply Qmult_comp; [|reflexivity].
  unfold Qabs, inject_Z. reflexivity.
Qed.

Lemma half_zero z : (inject_Z z / 2 == 0)%Q -> z = 0.
Proof. unfold Qeq, Qdiv, Qmult, Qinv, inject_Z. simpl. lia. Qed.

End Additive.

(** X21.  When [trianglesOnOppositeSides] accepts [a, b, c, d], the two
    triangles the additive tab draws, [a, b, c] and [a, d, c], both have
    non-zero area and their areas add up to the area of the quadrilateral
    (in absolute value, as [polygonAreaValue] computes them).  The answer of
    [trianglesOnOppositeSides] is the same when [b] and [d] are exchanged,
    when the diagonal is reversed, and when the list is started at [c]. *)
Theorem opposite_sides_areas_add :
  forall a b c d : Point,
    (trianglesOnOppositeSides (Array [a; b; c; d]) = true ->
     (Qabs (polygonAreaValue (Array [a; b; c; d]))
      == Qabs (polygonAreaValue (Array [a; b; c]))
         + Qabs (polygonAreaValue (Array [a; d; c])))%Q
     /\ ~ (polygonAreaValue (Array [a; b; c]) == 0)%Q
     /\ ~ (polygonAreaValue (Array [a; d; c]) == 0)%Q)
    /\ trianglesOnOppositeSides (Array [a; d; c; b])
       = trianglesOnOppositeSides (Array [a; b; c; d])
    /\ trianglesOnOppositeSides (Array [c; b; a; d])
       = trianglesOnOppositeSides (Array [a; b; c; d])
    /\ trianglesOnOppositeSides (Array [c; d; a; b])
       = trianglesOnOppositeSides (Array [a; b; c; d]).
Proof.
  intros a b c d.
  assert (Hflip : forall p q r, orientation q p r = - orientation p q r)
    by (intros; unfold orientation; ring).
  assert (Hsym : forall u v : Z,
             (if (u =? 0) || (v =? 0) then false else u * v <? 0)
             = (if (v =? 0) || (u =? 0) then false else v * u <? 0)).
  { intros u v. now rewrite orb_comm, Z.mul_comm. }
  assert (Hneg : forall u v : Z,
             (if (- u =? 0) || (- v =? 0) then false else - u * - v <? 0)
             = (if (u =? 0) || (v =? 0) then false else u * v <? 0)).
  { intros u v. replace (- u * - v) with (u * v) by ring.
    destruct (Z.eqb_spec u 0), (Z.eqb_spec (- u) 0), (Z.eqb_spec v 0), (Z.eqb_spec (- v) 0);
      try reflexivity; lia. }
  split; [|split; [|split]].
  - unfold trianglesOnOppositeSides, polygonAreaValue.
    cbn [List.length Nat.ltb Nat.leb].
    rewrite area2_quad, !area2_triangle.
    set (oB := orientation a c b). set (oD := orientation a c d).
    assert (E1 : cross a b + cross b c + cross c d + cross d a = oD - oB)
      by (unfold oB, oD, orientation, cross; ring).
    assert (E2 : Point.x a * Point.y b - Point.x b * Point.y a
                 + (Point.x b * Point.y c - Point.x c * Point.y b)
                 + (Point.x c * Point.y a - Point.x a * Point.y c) = - oB)
      by (unfold oB, orientation; ring).
    assert (E3 : Point.x a * Point.y d - Point.x d * Point.y a
                 + (Point.x d * Point.y c - Point.x c * Point.y d)
                 + (Point.x c * Point.y a - Point.x a * Point.y c) = - oD)
      by (unfold oD, orientation; ring).
    rewrite E1, E2, E3. clear E1 E2 E3.
    destruct (Z.eqb_spec oB 0) as [|HB]; [discriminate|].
    destruct (Z.eqb_spec oD 0) as [|HD]; [discriminate|].
    cbn [orb]. intros Hlt. apply Z.ltb_lt in Hlt.
    split; [|split].
    + rewrite !Qabs_half.
      assert (E : Z.abs (oD - oB) = Z.abs (- oB) + Z.abs (- oD)) by nia.
      rewrite E, inject_Z_plus. field.
    + intros H. apply HB.
      apply half_zero in H. lia.
    + intros H. apply HD.
      apply half_zero in H. lia.
  - unfold trianglesOnOppositeSides. apply Hsym.
  - unfold trianglesOnOppositeSides.
    rewrite (Hflip a c b), (Hflip a c d). apply Hneg.
  - unfold trianglesOnOppositeSides.
    rewrite (Hflip a c b), (Hflip a c d), Hneg. apply Hsym.
Qed.

Lemma opposite_sides_areas_add_witness :
  trianglesOnOppositeSides (Array Constants.initialAdditive) = true
  /\ ~ (polygonAreaValue (Array [pt (-4) (-1); pt 3 (-1); pt 2 4]) == 0)%Q.
Proof.
  assert (H : trianglesOnOppositeSides (Array Constants.initialAdditive) = true)
    by (vm_compute; reflexivity).
  split; [exact H|].
  exact (proj1 (proj2 (proj1 (opposite_sides_areas_add
                                (pt (-4) (-1)) (pt 3 (-1)) (pt 2 4) (pt (-3) 4)) H))).
Defined.

(** ** What [segmentsIntersect] decides *)

Section Crossing.

Lemma onSegment_between a b c :
  onSegment a b c = true
  <-> between (Point.x a) (Point.x b) (Point.x c)
      /\ between (Point.y a) (Point.y b) (Point.y c).
Proof.
  unfold onSegment, between.
  rewrite !andb_true_iff, !Z.geb_le, !Z.leb_le. tauto.
Qed.

Lemma scaled_between D a u v w :
  0 < D -> 0 <= a <= D -> D * v = D * u + a * (w - u) -> between u v w.
Proof.
  intros HD Ha E. unfold between.
  destruct (Z.le_ge_cases u w) as [L | L].
  - rewrite Z.min_l, Z.max_r by lia. nia.
  - rewrite Z.min_r, Z.max_l by lia. nia.
Qed.

Lemma opposite_signs u v : u * v < 0 -> (u < 0 /\ 0 < v) \/ (0 < u /\ v < 0).
Proof.
  intros H.
  destruct (Z.lt_trichotomy u 0) as [|[|]], (Z.lt_trichotomy v 0) as [|[|]]; nia.
Qed.

Lemma onSegment_param p q r :
  orientation p q r = 0 -> onSegment p r q = true ->
  exists a D, 0 < D /\ 0 <= a <= D
    /\ D * Point.x r = D * Point.x p + a * (Point.x q - Point.x p)
    /\ D * Point.y r = D * Point.y p + a * (Point.y q - Point.y p).
Proof.
  destruct p as [xp yp], q as [xq yq], r as [xr yr].
  rewrite onSegment_between. unfold orientation, between. cbn [Point.x Point.y].
  intros Ho [Hx Hy].
  destruct (Z.lt_trichotomy xp xq) as [L | [E | L]].
  - exists (xr - xp), (xq - xp). repeat split; try lia; nia.
  - subst xq. destruct (Z.lt_trichotomy yp yq) as [L | [E | L]].
    + exists (yr - yp), (yq - yp). repeat split; try lia; nia.
    + subst yq. exists 0, 1. repeat split; lia.
    + exists (yp - yr), (yp - yq). repeat split; try lia; nia.
  - exists (xp - xr), (xp - xq). repeat split; try lia; nia.
Qed.

Lemma segmentsIntersect_cases p1 p2 p3 p4 :
  segmentsIntersect p1 p2 p3 p4 = true
  <-> (orientation p1 p2 p3 = 0 /\ onSegment p1 p3 p2 = true)
      \/ (orientation p1 p2 p4 = 0 /\ onSegment p1 p4 p2 = true)
      \/ (orientation p3 p4 p1 = 0 /\ onSegment p3 p1 p4 = true)
      \/ (orientation p3 p4 p2 = 0 /\ onSegment p3 p2 p4 = true)
      \/ (orientation p1 p2 p3 * orientation p1 p2 p4 < 0
          /\ orientation p3 p4 p1 * orientation p3 p4 p2 < 0).
Proof.
  unfold segmentsIntersect. cbv zeta.
  destruct (Z.eqb_spec (orientation p1 p2 p3) 0) as [E1 | E1];
    destruct (onSegment p1 p3 p2) eqn:S1; cbn [andb];
    try (split; [intros _; left; now split | reflexivity]);
  (destruct (Z.eqb_spec (orientation p1 p2 p4) 0) as [E2 | E2];
    destruct (onSegment p1 p4 p2) eqn:S2; cbn [andb];
    try (split; [intros _; right; left; now split | reflexivity]));
  (destruct (Z.eqb_spec (orientation p3 p4 p1) 0) as [E3 | E3];
    destruct (onSegment p3 p1 p4) eqn:S3; cbn [andb];
    try (split; [intros _; right; right; left; now split | reflexivity]));
  (destruct (Z.eqb_spec (orientation p3 p4 p2) 0) as [E4 | E4];
    destruct (onSegment p3 p2 p4) eqn:S4; cbn [andb];
    try (split; [intros _; right; right; right; left; now split | reflexivity]));
  rewrite andb_true_iff, !Z.ltb_lt;
  (split; [intros H; now repeat right
          | intros [[? ?] | [[? ?] | [[? ?] | [[? ?] | H]]]];
            try discriminate; try contradiction; exact H]).
Qed.

(** Three points of the line through two different points are collinear. *)
Lemma line_collinear p1 p2 q r s :
  p1 <> p2 ->
  orientation p1 p2 q = 0 -> orientation p1 p2 r = 0 -> orientation p1 p2 s = 0 ->
  orientation q r s = 0.
Proof.
  destruct p1 as [x1 y1], p2 as [x2 y2], q as [xq yq], r as [xr yr], s as [xs ys].
  unfold orientation. cbn [Point.x Point.y]. intros Hne Hq Hr Hs.
  set (o := (xr - xq) * (ys - yq) - (yr - yq) * (xs - xq)).
  assert (A : (x2 - x1) * (yr - yq) = (y2 - y1) * (xr - xq)) by lia.
  assert (B : (x2 - x1) * (ys - yq) = (y2 - y1) * (xs - xq)) by lia.
  assert (Ex : (x2 - x1) * o = 0).
  { unfold o.
    replace ((x2 - x1) * ((xr - xq) * (ys - yq) - (yr - yq) * (xs - xq)))
      with ((xr - xq) * ((x2 - x1) * (ys - yq)) - ((x2 - x1) * (yr - yq)) * (xs - xq))
      by ring.
    rewrite A, B. ring. }
  assert (Ey : (y2 - y1) * o = 0).
  { unfold o.
    replace ((y2 - y1) * ((xr - xq) * (ys - yq) - (yr - yq) * (xs - xq)))
      with (((y2 - y1) * (xr - xq)) * (ys - yq) - (yr - yq) * ((y2 - y1) * (xs - xq)))
      by ring.
    rewrite <- A, <- B. ring. }
  destruct (Z.eq_dec o 0) as [|No]; [assumption|].
  exfalso. apply Hne.
  apply Z.mul_eq_0 in Ex, Ey.
  f_equal; lia.
Qed.

Lemma mono_1d (du dv uq ur us vq vr vs : Z) :
  du <> 0 ->
  du * (vr - vq) = dv * (ur - uq) -> du * (vs - vr) = dv * (us - ur) ->
  between uq ur us -> between vq vr vs.
Proof.
  intros Hd A B Hb.
  assert (P : 0 <= (vr - vq) * (vs - vr)).
  { assert (E : du * du * ((vr - vq) * (vs - vr)) = dv * dv * ((ur - uq) * (us - ur))).
    { replace (du * du * ((vr - vq) * (vs - vr)))
        with ((du * (vr - vq)) * (du * (vs - vr))) by ring.
      rewrite A, B. ring. }
    assert (0 <= (ur - uq) * (us - ur)).
    { unfold between in Hb.
      destruct (Z.le_ge_cases uq us) as [L | L].
      - rewrite Z.min_l, Z.max_r in Hb by lia. nia.
      - rewrite Z.min_r, Z.max_l in Hb by lia. nia. }
    assert (0 < du * du) by nia.
    assert (0 <= dv * dv) by nia.
    nia. }
  unfold between.
  destruct (Z.le_ge_cases vq vs) as [L | L].
  - rewrite Z.min_l, Z.max_r by lia. nia.
  - rewrite Z.min_r, Z.max_l by lia. nia.
Qed.

Lemma line_onSegment_x p1 p2 q r s :
  Point.x p1 <> Point.x p2 ->
  orientation p1 p2 q = 0 -> orientation p1 p2 r = 0 -> orientation p1 p2 s = 0 ->
  between (Point.x q) (Point.x r) (Point.x s) -> onSegment q r s = true.
Proof.
  destruct p1 as [x1 y1], p2 as [x2 y2], q as [xq yq], r as [xr yr], s as [xs ys].
  rewrite onSegment_between. unfold orientation. cbn [Point.x Point.y].
  intros Hne Hq Hr Hs Hb. split; [exact Hb|].
  apply (mono_1d (x2 - x1) (y2 - y1) xq xr xs); try assumption; lia.
Qed.

Lemma line_onSegment_y p1 p2 q r s :
  Point.y p1 <> Point.y p2 ->
  orientation p1 p2 q = 0 -> orientation p1 p2 r = 0 -> orientation p1 p2 s = 0 ->
  between (Point.y q) (Point.y r) (Point.y s) -> onSegment q r s = true.
Proof.
  destruct p1 as [x1 y1], p2 as [x2 y2], q as [xq yq], r as [xr yr], s as [xs ys].
  rewrite onSegment_between. unfold orientation. cbn [Point.x Point.y].
  intros Hne Hq Hr Hs Hb. split; [|exact Hb].
  apply (mono_1d (y2 - y1) (x2 - x1) yq yr ys); try assumption; lia.
Qed.

(** Two intervals with a common point: an end of one lies in the other. *)
Lemma overlap_1d (D a b u1 u2 u3 u4 : Z) :
  0 < D -> 0 <= a <= D -> 0 <= b <= D ->
  D * u1 + a * (u2 - u1) = D * u3 + b * (u4 - u3) ->
  between u1 u3 u2 \/ between u1 u4 u2 \/ between u3 u1 u4 \/ between u3 u2 u4.
Proof.
  intros HD Ha Hb E.
  unfold between.
  destruct (Z.le_ge_cases u1 u2) as [L12 | L12];
    destruct (Z.le_ge_cases u3 u4) as [L34 | L34];
    repeat first [rewrite Z.min_l by lia | rewrite Z.min_r by lia
                 | rewrite Z.max_l by lia | rewrite Z.max_r by lia].
  - assert (u1 <= u4) by nia. assert (u3 <= u2) by nia. lia.
  - assert (u1 <= u3) by nia. assert (u4 <= u2) by nia. lia.
  - assert (u2 <= u4) by nia. assert (u3 <= u1) by nia. lia.
  - assert (u2 <= u3) by nia. assert (u4 <= u1) by nia. lia.
Qed.

Lemma orientation_self_l p q : orientation p q p = 0.
Proof. unfold orientation. ring. Qed.

Lemma orientation_self_r p q : orientation p q q = 0.
Proof. unfold orientation. ring. Qed.

Lemma segmentsIntersect_meets p1 p2 p3 p4 :
  segmentsIntersect p1 p2 p3 p4 = true -> meets p1 p2 p3 p4.
Proof.
  intros H. apply segmentsIntersect_cases in H. unfold meets.
  destruct H as [[E S] | [[E S] | [[E S] | [[E S] | [H12 H34]]]]].
  - destruct (onSegment_param _ _ _ E S) as (a & D & HD & Ha & Ex & Ey).
    exists a, 0, D. repeat split; lia.
  - destruct (onSegment_param _ _ _ E S) as (a & D & HD & Ha & Ex & Ey).
    exists a, D, D. repeat split; lia.
  - destruct (onSegment_param _ _ _ E S) as (b & D & HD & Hb & Ex & Ey).
    exists 0, b, D. repeat split; lia.
  - destruct (onSegment_param _ _ _ E S) as (b & D & HD & Hb & Ex & Ey).
    exists D, b, D. repeat split; lia.
  - apply opposite_signs in H12, H34.
    assert (Ed : orientation p1 p2 p3 - orientation p1 p2 p4
                 = - (orientation p3 p4 p1 - orientation p3 p4 p2))
      by (unfold orientation; ring).
    destruct H34 as [[L3 L4] | [L3 L4]].
    + exists (- orientation p3 p4 p1), (orientation p1 p2 p3),
             (orientation p3 p4 p2 - orientation p3 p4 p1).
      split; [lia|]. split; [lia|]. split; [lia|].
      split; unfold orientation; ring.
    + exists (orientation p3 p4 p1), (- orientation p1 p2 p3),
             (orientation p3 p4 p1 - orientation p3 p4 p2).
      split; [lia|]. split; [lia|]. split; [lia|].
      split; unfold orientation; ring.
Qed.

Lemma meets_segmentsIntersect p1 p2 p3 p4 :
  meets p1 p2 p3 p4 -> segmentsIntersect p1 p2 p3 p4 = true.
Proof.
  intros (a & b & D & HD & Ha & Hb & Hx & Hy).
  apply segmentsIntersect_cases.
  assert (F1 : (D - b) * orientation p1 p2 p3 + b * orientation p1 p2 p4 = 0).
  { unfold orientation.
    replace ((D - b) * ((Point.x p2 - Point.x p1) * (Point.y p3 - Point.y p1)
                        - (Point.y p2 - Point.y p1) * (Point.x p3 - Point.x p1))
             + b * ((Point.x p2 - Point.x p1) * (Point.y p4 - Point.y p1)
                    - (Point.y p2 - Point.y p1) * (Point.x p4 - Point.x p1)))
      with ((Point.x p2 - Point.x p1)
            * (D * Point.y p3 + b * (Point.y p4 - Point.y p3) - D * Point.y p1)
            - (Point.y p2 - Point.y p1)
              * (D * Point.x p3 + b * (Point.x p4 - Point.x p3) - D * Point.x p1))
      by ring.
    rewrite <- Hx, <- Hy. ring. }
  assert (F2 : (D - a) * orientation p3 p4 p1 + a * orientation p3 p4 p2 = 0).
  { unfold orientation.
    replace ((D - a) * ((Point.x p4 - Point.x p3) * (Point.y p1 - Point.y p3)
                        - (Point.y p4 - Point.y p3) * (Point.x p1 - Point.x p3))
             + a * ((Point.x p4 - Point.x p3) * (Point.y p2 - Point.y p3)
                    - (Point.y p4 - Point.y p3) * (Point.x p2 - Point.x p3)))
      with ((Point.x p4 - Point.x p3)
            * (D * Point.y p1 + a * (Point.y p2 - Point.y p1) - D * Point.y p3)
            - (Point.y p4 - Point.y p3)
              * (D * Point.x p1 + a * (Point.x p2 - Point.x p1) - D * Point.x p3))
      by ring.
    rewrite Hx, Hy. ring. }
  destruct (Z.eq_dec (orientation p1 p2 p3) 0) as [Z1 | N1];
    destruct (Z.eq_dec (orientation p1 p2 p4) 0) as [Z2 | N2].
  - (* the second segment lies on the line of the first *)
    destruct (Point.eqb p1 p2) eqn:E12.
    + apply Point_eqb_eq in E12. subst p2.
      right; right; left.
      assert (Z3 : orientation p3 p4 p1 = 0).
      { assert (E : D * orientation p3 p4 p1 = 0) by lia.
        apply Z.mul_eq_0 in E. lia. }
      split; [exact Z3|].
      apply onSegment_between.
      split; apply (scaled_between D b); try assumption; lia.
    + assert (Hne : p1 <> p2).
      { intros ->. rewrite (proj2 (Point_eqb_eq p2 p2) eq_refl) in E12. discriminate. }
      pose proof (orientation_self_l p1 p2) as L1.
      pose proof (orientation_self_r p1 p2) as L2.
      assert (Z3 : orientation p3 p4 p1 = 0) by now apply (line_collinear p1 p2).
      assert (Z4 : orientation p3 p4 p2 = 0) by now apply (line_collinear p1 p2).
      assert (Hxy : Point.x p1 <> Point.x p2 \/ Point.y p1 <> Point.y p2).
      { destruct p1 as [x1 y1], p2 as [x2 y2]. cbn [Point.x Point.y].
        destruct (Z.eq_dec x1 x2) as [-> | ?]; [right | now left].
        intros ->. now apply Hne. }
      destruct Hxy as [Hd | Hd].
      * destruct (overlap_1d D a b _ _ _ _ HD Ha Hb Hx) as [B | [B | [B | B]]].
        -- left. split; [exact Z1|]. now apply (line_onSegment_x p1 p2).
        -- right; left. split; [exact Z2|]. now apply (line_onSegment_x p1 p2).
        -- right; right; left. split; [exact Z3|]. now apply (line_onSegment_x p1 p2).
        -- right; right; right; left. split; [exact Z4|].
           now apply (line_onSegment_x p1 p2).
      * destruct (overlap_1d D a b _ _ _ _ HD Ha Hb Hy) as [B | [B | [B | B]]].
        -- left. split; [exact Z1|]. now apply (line_onSegment_y p1 p2).
        -- right; left. split; [exact Z2|]. now apply (line_onSegment_y p1 p2).
        -- right; right; left. split; [exact Z3|]. now apply (line_onSegment_y p1 p2).
        -- right; right; right; left. split; [exact Z4|].
           now apply (line_onSegment_y p1 p2).
  - (* only [p3] is on the line of the first segment: the common point is [p3] *)
    assert (b = 0).
    { rewrite Z1 in F1. assert (E : b * orientation p1 p2 p4 = 0) by lia.
      apply Z.mul_eq_0 in E. lia. }
    subst b. left. split; [exact Z1|].
    apply onSegment_between.
    split; apply (scaled_between D a); try assumption; lia.
  - assert (b = D).
    { rewrite Z2 in F1. assert (E : (D - b) * orientation p1 p2 p3 = 0) by lia.
      apply Z.mul_eq_0 in E. lia. }
    subst b. right; left. split; [exact Z2|].
    apply onSegment_between.
    split; apply (scaled_between D a); try assumption; lia.
  - assert (H12 : orientation p1 p2 p3 * orientation p1 p2 p4 < 0).
    { assert (0 < b) by nia. assert (b < D) by nia.
      destruct (Z.lt_trichotomy (orientation p1 p2 p4) 0) as [L | [L | L]];
        [nia | lia | nia]. }
    destruct (Z.eq_dec (orientation p3 p4 p1) 0) as [Z3 | N3];
      destruct (Z.eq_dec (orientation p3 p4 p2) 0) as [Z4 | N4].
    + exfalso. apply N1.
      destruct (Point.eqb p3 p4) eqn:E34.
      * apply Point_eqb_eq in E34. subst p4. nia.
      * assert (Hne : p3 <> p4).
        { intros ->. rewrite (proj2 (Point_eqb_eq p4 p4) eq_refl) in E34. discriminate. }
        apply (line_collinear p3 p4); try assumption.
        apply orientation_self_l.
    + assert (a = 0).
      { rewrite Z3 in F2. assert (E : a * orientation p3 p4 p2 = 0) by lia.
        apply Z.mul_eq_0 in E. lia. }
      subst a. right; right; left. split; [exact Z3|].
      apply onSegment_between.
      split; apply (scaled_between D b); try assumption; lia.
    + assert (a = D).
      { rewrite Z4 in F2. assert (E : (D - a) * orientation p3 p4 p1 = 0) by lia.
        apply Z.mul_eq_0 in E. lia. }
      subst a. right; right; right; left. split; [exact Z4|].
      apply onSegment_between.
      split; apply (scaled_between D b); try assumption; lia.
    + right; right; right; right. split; [exact H12|].
      assert (0 < a) by nia. assert (a < D) by nia.
      destruct (Z.lt_trichotomy (orientation p3 p4 p2) 0) as [L | [L | L]];
        [nia | lia | nia].
Qed.

Lemma meets_commonPoint p1 p2 p3 p4 : meets p1 p2 p3 p4 <-> commonPoint p1 p2 p3 p4.
Proof.
  unfold meets, commonPoint. split.
  - intros (a & b & D & HD & Ha & Hb & Hx & Hy).
    destruct D as [|d|d]; try lia.
    exists (a # d)%Q, (b # d)%Q.
    unfold Qle, Qeq, Qplus, Qmult, inject_Z. cbn [Qnum Qden].
    rewrite ?Pos2Z.inj_mul, ?Pos.mul_1_r, ?Z.mul_1_r, ?Z.mul_1_l.
    repeat split; try lia; nia.
  - intros ([sn sd] & [tn td] & Hs & Ht & Hx & Hy).
    revert Hs Ht Hx Hy.
    unfold Qle, Qeq, Qplus, Qmult, inject_Z. cbn [Qnum Qden].
    rewrite ?Pos2Z.inj_mul, ?Pos.mul_1_r, ?Z.mul_1_r, ?Z.mul_1_l.
    intros Hs Ht Hx Hy.
    exists (sn * Z.pos td), (tn * Z.pos sd), (Z.pos sd * Z.pos td).
    repeat split; try lia; nia.
Qed.

End Crossing.

(** X22.  [segmentsIntersect] decides whether two closed segments with integer
    end points have a point in common: it answers [true] exactly when some
    point [p1 + s (p2 - p1)] with [0 <= s <= 1] is also a point
    [p3 + t (p4 - p3)] with [0 <= t <= 1], for rational [s] and [t].  Segments
    reduced to a point, segments that only touch and collinear segments that
    overlap are included.  The parameters can be taken over one common
    integer denominator. *)
Theorem segmentsIntersect_decides_common_point :
  forall p1 p2 p3 p4 : Point,
    (segmentsIntersect p1 p2 p3 p4 = true <-> commonPoint p1 p2 p3 p4)
    /\ (commonPoint p1 p2 p3 p4 <-> meets p1 p2 p3 p4).
Proof.
  intros p1 p2 p3 p4. split; [split|].
  - intros H. now apply meets_commonPoint, segmentsIntersect_meets.
  - intros H. now apply meets_segmentsIntersect, meets_commonPoint.
  - symmetry. apply meets_commonPoint.
Qed.

(** X23.  In geometric terms, [isSimplePolygon] accepts a list of at least three
    vertices exactly when the vertices are pairwise different, the area is at
    least one half, and no two edges that are not neighbours on the cycle have
    a point in common. *)
Theorem isSimplePolygon_no_common_point :
  forall vs : list Point,
    (3 <= List.length vs)%nat ->
    (isSimplePolygon (Array vs) = true <->
     NoDup vs
     /\ (1 # 2 <= Qabs (polygonAreaValue (Array vs)))%Q
     /\ forall i j : nat,
         (i < List.length vs)%nat -> (j < List.length vs)%nat ->
         ~ neighbours (List.length vs) i j ->
         ~ commonPoint (edgeStart vs i) (edgeEnd vs i)
                       (edgeStart vs j) (edgeEnd vs j)).
Proof.
  intros vs Hlen. rewrite (isSimplePolygon_iff vs Hlen). unfold noCrossing.
  split; intros (Hnd & Harea & Hcross); (split; [exact Hnd|]); (split; [exact Harea|]);
    intros i j Hi Hj Hn.
  - intros Hc. apply meets_commonPoint, meets_segmentsIntersect in Hc.
    rewrite (Hcross i j Hi Hj Hn) in Hc. discriminate.
  - destruct (segmentsIntersect (edgeStart vs i) (edgeEnd vs i)
                                (edgeStart vs j) (edgeEnd vs j)) eqn:E; [|reflexivity].
    exfalso. apply (Hcross i j Hi Hj Hn).
    now apply meets_commonPoint, segmentsIntersect_meets.
Qed.

Lemma isSimplePolygon_no_common_point_witness :
  (3 <= List.length [pt 0 0; pt 2 0; pt 2 2; pt 0 2])%nat
  /\ NoDup [pt 0 0; pt 2 0; pt 2 2; pt 0 2].
Proof.
  assert (H : (3 <= List.length [pt 0 0; pt 2 0; pt 2 2; pt 0 2])%nat)
    by (cbn [List.length]; lia).
  split; [exact H|].
  apply (proj1 (isSimplePolygon_no_common_point _ H)).
  vm_compute. reflexivity.
Defined.
